(** * Bookworm: table-of-contents reconstruction, structured navigation
      and the Piper utterance loop

    A shallow embedding of three pieces of the application:

    - [FitzDocument.toc_tree]
      (bookworm/document_formats/mu/__init__.py),
    - [BookViewerWindow.navigate_to_structural_element] and
      [BookViewerWindow.onTOCItemClick]
      (bookworm/gui/book_viewer/__init__.py),
    - [PiperSpeechEngine.speak_utterance]
      (bookworm/platforms/win32/speech_engines/piper/__init__.py).

    Python integers are unbounded, so page numbers, levels and character
    offsets are [Z].  List positions produced by [enumerate] are [nat].
    An uncaught Python exception is the [Raise] outcome of [Py.result]. *)

From Equations Require Import Equations.
From Stdlib Require Import ZArith List String Bool Lia.
Import ListNotations.

Local Open Scope Z_scope.

(** ** Python outcomes *)

Module Py.

Inductive exn : Type :=
| IndexError
| KeyError.

Inductive result (A : Type) : Type :=
| Ok (a : A)
| Raise (e : exn).

Arguments Ok {A} a.
Arguments Raise {A} e.

Definition bind {A B : Type} (m : result A) (k : A -> result B) : result B :=
  match m with
  | Ok a => k a
  | Raise e => Raise e
  end.

Definition is_ok {A : Type} (m : result A) : bool :=
  match m with
  | Ok _ => true
  | Raise _ => false
  end.

(** [xs[-1]]: the last element of a Python list together with the
    elements before it; [IndexError] on the empty list. *)
Fixpoint split_last {A : Type} (xs : list A) : option (list A * A) :=
  match xs with
  | [] => None
  | x :: rest =>
      match split_last rest with
      | None => Some ([], x)
      | Some (init, z) => Some (x :: init, z)
      end
  end.

(** Keeps the equation of a scrutinee available in a branch. *)
Definition inspect {A : Type} (x : A) : { y : A | x = y } :=
  exist _ x eq_refl.

End Py.

Import Py.

Notation "x <- m ;; k" := (Py.bind m (fun x => k))
  (at level 61, m at next level, right associativity).

(** ** The table of contents: data *)

(** One row of [self._ebook.getToC()]: [(level, title, start_page, *extra)].
    The loop of [toc_tree] binds [extra] and never reads it. *)
Record Entry : Type := mkEntry {
  level : Z;
  title : string;
  start_page : Z
}.

(** Modelled from the spec: [Pager] of bookworm.document_formats.base, a
    record of the first, last and current page of a section. *)
Record Pager : Type := mkPager {
  first : Z;
  last : Z;
  current : Z
}.

(** Modelled from the spec: [Section] of bookworm.document_formats.base, a
    title, a pager and an ordered sequence of child sections;
    [Section.append] adds a child at the end of [children]. *)
Inductive Section : Type :=
| mkSection (sec_title : string) (sec_pager : Pager) (sec_children : list Section).

Definition sec_title (s : Section) : string :=
  match s with mkSection t _ _ => t end.

Definition pager (s : Section) : Pager :=
  match s with mkSection _ p _ => p end.

Definition children (s : Section) : list Section :=
  match s with mkSection _ _ cs => cs end.

Definition append (parent child : Section) : Section :=
  match parent with
  | mkSection t p cs => mkSection t p (cs ++ [child])
  end.

(** The object [parent.children[-1]] is mutated in place by the walk; in
    the tree of values this is the replacement of the last child. *)
Definition with_children (parent : Section) (cs : list Section) : Section :=
  match parent with
  | mkSection t p _ => mkSection t p cs
  end.

(** ** [toc_tree]: the forward scan for the bounding entry *)

(** The [while next_item[0] != level] loop.  [curr_index] is bumped before
    it is used as a subscript, so the entry at [index + 1] is read twice;
    the subscript that runs past the list raises the [IndexError] which the
    surrounding [try] turns into [next_item = None]. *)
Equations? scan_loop (toc_info : list Entry) (lvl : Z) (curr_index : nat)
    (next_item : Entry) : option Entry
    by wf (List.length toc_info - curr_index)%nat lt :=
  scan_loop toc_info lvl curr_index next_item
    with inspect (negb (level next_item =? lvl)) => {
    | exist _ false _ := Some next_item;
    | exist _ true _ with inspect (nth_error toc_info (S curr_index)) => {
        | exist _ (Some it) Hget := scan_loop toc_info lvl (S curr_index) it;
        | exist _ None _ := None } }.
Proof.
  change (nth_error toc_info (S curr_index) = Some it) in Hget.
  assert (S curr_index < List.length toc_info)%nat
    by (apply nth_error_Some; congruence).
  lia.
Qed.

(** The body of the [try] block: [curr_index = index], the first read
    [toc_info[curr_index + 1]], then the loop. *)
Definition find_next_item (toc_info : list Entry) (index : nat) (lvl : Z)
  : option Entry :=
  let curr_index := index in
  match nth_error toc_info (curr_index + 1) with
  | None => None
  | Some next_item => scan_loop toc_info lvl curr_index next_item
  end.

(** ** [toc_tree]: attaching a section *)

(** The [while True] loop that descends into [children[-1]] while
    [parent_lvl > 1] and then appends. *)
Equations? walk_append (parent_lvl : Z) (parent sect : Section)
    : result Section by wf (Z.to_nat (parent_lvl - 1)) lt :=
  walk_append parent_lvl parent sect with Z_gt_dec parent_lvl 1 => {
    | left Hgt with split_last (children parent) => {
        | None := Raise IndexError;
        | Some (init, child) :=
            child' <- walk_append (parent_lvl - 1) child sect ;;
            Ok (with_children parent (init ++ [child'])) };
    | right _ := Ok (append parent sect) }.
Proof.
  lia.
Qed.

Definition attach (root_item : Section) (lvl : Z) (sect : Section)
  : result Section :=
  if lvl =? 1 then Ok (append root_item sect)
  else
    let parent_lvl := lvl - 1 in
    match split_last (children root_item) with
    | None => Raise IndexError
    | Some (init, parent) =>
        parent' <- walk_append parent_lvl parent sect ;;
        Ok (with_children root_item (init ++ [parent']))
    end.

(** ** [toc_tree]: the loop over [enumerate(toc_info)] *)

Definition last_page_of (max_page : Z) (next_item : option Entry) : Z :=
  match next_item with
  | None => max_page
  | Some it => start_page it - 2
  end.

Definition make_section (toc_info : list Entry) (max_page : Z) (index : nat)
    (e : Entry) : Section :=
  let next_item := find_next_item toc_info index (level e) in
  let last_page := last_page_of max_page next_item in
  let pgn := mkPager (start_page e - 1) last_page (start_page e - 1) in
  mkSection (title e) pgn [].

Fixpoint toc_loop (toc_info : list Entry) (max_page : Z) (index : nat)
    (rest : list Entry) (root_item : Section) : result Section :=
  match rest with
  | [] => Ok root_item
  | e :: rest' =>
      let sect := make_section toc_info max_page index e in
      root_item' <- attach root_item (level e) sect ;;
      toc_loop toc_info max_page (S index) rest' root_item'
  end.

(** [doc_title] is [self.metadata.title] and [num_pages] is [len(self)]. *)
Definition toc_tree (doc_title : string) (num_pages : Z)
    (toc_info : list Entry) : result Section :=
  let max_page := num_pages - 1 in
  let root_item := mkSection doc_title (mkPager 0 (num_pages - 1) 0) [] in
  toc_loop toc_info max_page 0 toc_info root_item.

(** ** Specification-side definitions for the table of contents *)

(** The bound as the specification words it: the next entry after position
    [i] whose level equals [lvl]. *)
Definition next_same_level (toc_info : list Entry) (i : nat) (lvl : Z)
  : option Entry :=
  find (fun e => level e =? lvl) (skipn (S i) toc_info).

Definition spec_last_page (toc_info : list Entry) (num_pages : Z) (i : nat)
    (lvl : Z) : Z :=
  match next_same_level toc_info i lvl with
  | Some it => start_page it - 2
  | None => num_pages - 1
  end.

(** The number of [children[-1]] steps of the walk, counted structurally. *)
Fixpoint descend_append (n : nat) (parent sect : Section) : result Section :=
  match n with
  | O => Ok (append parent sect)
  | S n' =>
      match split_last (children parent) with
      | None => Raise IndexError
      | Some (init, child) =>
          child' <- descend_append n' child sect ;;
          Ok (with_children parent (init ++ [child']))
      end
  end.

(** Title and pager of every section of a tree, parents before children,
    children in order. *)
Fixpoint heads (s : Section) : list (string * Pager) :=
  match s with
  | mkSection t p cs => (t, p) :: flat_map heads cs
  end.

Definition pagers (s : Section) : list Pager := map snd (heads s).

(** Every (parent pager, child pager) pair of a tree. *)
Fixpoint edges (s : Section) : list (Pager * Pager) :=
  match s with
  | mkSection _ p cs => map (fun c => (p, pager c)) cs ++ flat_map edges cs
  end.

(** Pagers met by following [children[-1]] from a section, the section
    itself first. *)
Fixpoint last_chain (s : Section) : list Pager :=
  match s with
  | mkSection _ p cs =>
      p :: (fix go (l : list Section) : list Pager :=
              match l with
              | [] => []
              | c :: r =>
                  match r with
                  | [] => last_chain c
                  | _ :: _ => go r
                  end
              end) cs
  end.

(** How many times [children[-1]] can be taken from a section. *)
Definition last_depth (s : Section) : nat := (List.length (last_chain s) - 1)%nat.

(** Depth at which an entry of a given level ends up when the walk
    succeeds: level 1 under the root, a level [l >= 2] after [l - 2] steps
    below the last top-level section, and any level below 1 directly under
    the last top-level section. *)
Definition entry_depth (lvl : Z) : nat :=
  if lvl =? 1 then 1%nat else (2 + Z.to_nat (lvl - 2))%nat.

(** The walk of every entry finds the sections it indexes: each entry sits
    at most one step below the entry before it. *)
Fixpoint nesting_ok (depth : nat) (toc_info : list Entry) : bool :=
  match toc_info with
  | [] => true
  | e :: rest =>
      (entry_depth (level e) <=? S depth)%nat
      && nesting_ok (entry_depth (level e)) rest
  end.

Definition pager_ordered (p : Pager) : bool :=
  (first p <=? current p) && (current p <=? last p).

Definition pager_within (parent child : Pager) : bool :=
  (first parent <=? first child) && (first child <=? last parent)
  && (first parent <=? last child) && (last child <=? last parent).

(** The well-formedness of a tree as the specification words it. *)
Definition tree_well_formed (t : Section) : bool :=
  forallb pager_ordered (pagers t)
  && forallb (fun pc => pager_within (fst pc) (snd pc)) (edges t).

(** Title and pager of the section built for the entry at [index]. *)
Definition head_of (toc_info : list Entry) (max_page : Z) (index : nat)
    (e : Entry) : string * Pager :=
  let s := make_section toc_info max_page index e in (sec_title s, pager s).

(** The sections of all entries in the order of [enumerate]. *)
Definition section_heads (toc_info : list Entry) (num_pages : Z)
  : list (string * Pager) :=
  map (fun ie => head_of toc_info (num_pages - 1) (fst ie) (snd ie))
      (combine (seq 0 (List.length toc_info)) toc_info).

(** The bound computed from the entries that follow an entry. *)
Definition last_page_after (max_page : Z) (lvl : Z) (rest : list Entry) : Z :=
  last_page_of max_page (find (fun e => level e =? lvl) rest).

(** Depth-first order with levels from 1: no entry is more than one level
    deeper than the entry before it, the first entry being at level 1. *)
Fixpoint well_nested (prev : Z) (toc_info : list Entry) : bool :=
  match toc_info with
  | [] => true
  | e :: rest =>
      (1 <=? level e) && (level e <=? prev + 1) && well_nested (level e) rest
  end.

(** Levels as the outline contract gives them: at least 1. *)
Definition levels_ok (toc_info : list Entry) : bool :=
  forallb (fun e => 1 <=? level e) toc_info.

(** Every start page is a page of the document, counted from 1. *)
Definition pages_in_document (num_pages : Z) (toc_info : list Entry) : bool :=
  forallb (fun e => (1 <=? start_page e) && (start_page e <=? num_pages))
          toc_info.

(** [e'] comes later in the outline than [e]: it does not start on an
    earlier page, and it starts on a later page when it is not nested
    deeper than [e]. *)
Definition starts_after (e e' : Entry) : bool :=
  (start_page e <=? start_page e')
  && (if level e' <=? level e then start_page e <? start_page e' else true).

Fixpoint pages_ok (toc_info : list Entry) : bool :=
  match toc_info with
  | [] => true
  | e :: rest => forallb (starts_after e) rest && pages_ok rest
  end.

Definition page_range (s : Section) : Z * Z :=
  (first (pager s), last (pager s)).

Definition child_named (name : string) (parent : Section) : option Section :=
  find (fun c => String.eqb (sec_title c) name) (children parent).

(** The last page of a section met at depth [d] on the chain of last
    children is the end of the document or is fixed by an entry of level
    [d] that is still to come. *)
Definition chain_bounded (max_page : Z) (rest : list Entry) (d : nat)
    (p : Pager) : Prop :=
  last p = max_page \/
  exists e, In e rest /\ level e = Z.of_nat d /\ last p = start_page e - 2.

(** What the loop maintains while the entries [rest] are still to come. *)
Record tree_inv (max_page : Z) (rest : list Entry) (root_item : Section)
  : Prop := mk_tree_inv {
  inv_ordered :
    forall p, In p (pagers root_item) ->
              current p = first p /\ first p <= last p;
  inv_before :
    forall d p e, nth_error (last_chain root_item) d = Some p ->
                  In e rest -> first p <= start_page e - 1;
  inv_edges :
    forall pp cp, In (pp, cp) (edges root_item) ->
                  first pp <= first cp <= last pp /\ first pp <= last cp;
  inv_chain :
    forall d p, nth_error (last_chain root_item) d = Some p ->
                chain_bounded max_page rest d p
}.

Local Open Scope string_scope.
Local Open Scope list_scope.
Local Open Scope Z_scope.

Definition scenario_outline : list Entry :=
  [ mkEntry 1 "Intro" 1; mkEntry 1 "Ch1" 3; mkEntry 2 "Ch1.1" 5;
    mkEntry 1 "Ch2" 12 ].

Definition siblings_outline : list Entry :=
  [ mkEntry 1 "A" 1; mkEntry 1 "B" 10; mkEntry 1 "C" 20 ].

(** The scenario of the specification, as it words the outcome. *)
Definition spec_scenario_outcome (doc_title : string) : Prop :=
  exists root ch1 ch11 ch2,
    toc_tree doc_title 50 scenario_outline = Ok root /\
    List.length (children root) = 3%nat /\
    child_named "Ch1" root = Some ch1 /\
    children ch1 = [ch11] /\
    sec_title ch11 = "Ch1.1" /\
    page_range ch1 = (2, 10) /\
    page_range ch11 = (4, 10) /\
    child_named "Ch2" root = Some ch2 /\
    page_range ch2 = (11, 49).

(** The sibling bounds of the specification, as it words them. *)
Definition spec_siblings_outcome (doc_title : string) : Prop :=
  exists root a b c,
    toc_tree doc_title 30 siblings_outline = Ok root /\
    child_named "A" root = Some a /\ page_range a = (0, 7) /\
    child_named "B" root = Some b /\ page_range b = (9, 17) /\
    child_named "C" root = Some c /\ page_range c = (19, 29).

(** ** Structured navigation: data *)

(** Modelled from the spec: [SemanticElementType] of
    bookworm.structured_text, the kinds of semantic element the
    specification lists; [heading] is the request for a heading of any
    level. *)
Inductive SemanticElementType : Type :=
| heading
| heading_1 | heading_2 | heading_3 | heading_4 | heading_5 | heading_6
| link | table | quote | landmark | graphic | list_element.

Definition element_type_eqb (a b : SemanticElementType) : bool :=
  match a, b with
  | heading, heading
  | heading_1, heading_1 | heading_2, heading_2 | heading_3, heading_3
  | heading_4, heading_4 | heading_5, heading_5 | heading_6, heading_6
  | link, link | table, table | quote, quote | landmark, landmark
  | graphic, graphic | list_element, list_element => true
  | _, _ => false
  end.

(** Modelled from the spec: a requested kind stands for itself, and
    [heading] stands for the whole family of headings. *)
Definition kind_matches (requested actual : SemanticElementType) : bool :=
  match requested, actual with
  | heading, (heading_1 | heading_2 | heading_3 | heading_4 | heading_5
              | heading_6) => true
  | _, _ => element_type_eqb requested actual
  end.

(** Modelled from the spec: a semantic element, a kind and the text range
    [start, stop) it covers. *)
Record SemanticElement : Type := mkElement {
  kind : SemanticElementType;
  start : Z;
  stop : Z
}.

(** The value of [pos]: [((start, stop), actual_element_type)]. *)
Definition Pos : Type := (Z * Z) * SemanticElementType.

Definition pos_eqb (a b : Pos) : bool :=
  (fst (fst a) =? fst (fst b)) && (snd (fst a) =? snd (fst b))
  && element_type_eqb (snd a) (snd b).

(** [pos_info]: [(current_insertion_point, pos)]. *)
Definition pos_info_eqb (a b : Z * Pos) : bool :=
  (fst a =? fst b) && pos_eqb (snd a) (snd b).

(** [self.__latest_structured_navigation_position == pos_info]; the
    attribute is [None] or an earlier [pos_info]. *)
Definition memento_eqb (latest : option (Z * Pos)) (pos_info : Z * Pos) : bool :=
  match latest with
  | None => false
  | Some m => pos_info_eqb m pos_info
  end.

(** Modelled from the spec: [locate], which [reader.get_semantic_element]
    stands for: the nearest element of the requested kind strictly after
    [from_position] when going forward, strictly before it when going
    backward, in document order; [None] when there is none. *)
Definition qualifies (requested : SemanticElementType) (forward : bool)
    (from_position : Z) (el : SemanticElement) : bool :=
  kind_matches requested (kind el)
  && (if forward then from_position <? start el else stop el <? from_position).

Definition pos_of (el : SemanticElement) : Pos :=
  ((start el, stop el), kind el).

Definition locate (elements : list SemanticElement)
    (requested : SemanticElementType) (forward : bool) (from_position : Z)
  : option Pos :=
  option_map pos_of
    (find (qualifies requested forward from_position)
          (if forward then elements else rev elements)).

(** ** Structured navigation: the window *)

Inductive Sound : Type := structured_navigation | navigation.

(** What the window sends out: [wx.Bell()], [speech.announce], a sound, the
    [reading_position_change] signal. *)
Inductive Event : Type :=
| Bell
| Announce (msg : string) (urgent : bool)
| Play (sound : Sound)
| ReadingPositionChange (position : Z) (tts_speech_prefix : string).

Section Viewer.

(** The reader behind the window: its state, [reader.ready] and
    [reader.get_semantic_element]. *)
Variable Reader : Type.
Variable ready : Reader -> bool.
Variable get_semantic_element :
  Reader -> SemanticElementType -> bool -> Z -> option Pos.

(** [SEMANTIC_ELEMENT_OUTPUT_OPTIONS] of bookworm.structured_text:
    [(element_label, should_speak_whole_text, move_to_start_of_line)] for
    each element type. *)
Variable SEMANTIC_ELEMENT_OUTPUT_OPTIONS :
  SemanticElementType -> string * bool * bool.

(** [contentTextCtrl.GetContainingLine] and [contentTextCtrl.GetRange] on
    the text that is shown. *)
Variable get_containing_line : Z -> Z * Z.
Variable GetRange : Z -> Z -> string.

(** The part of the window that the reader and the text control reach:
    the reader, the insertion point of [contentTextCtrl], what was sent
    out, the two speech switches of [config.conf["general"]] and the
    keyboard focus. *)
Record Shell : Type := mkShell {
  reader : Reader;
  insertion_point : Z;
  events : list Event;
  speak_page_number : bool;
  speak_section_title : bool;
  content_focused : bool
}.

(** The window: the shell and the name-mangled attribute
    [__latest_structured_navigation_position], which only methods of
    [BookViewerWindow] can name. *)
Record View : Type := mkView {
  shell : Shell;
  latest_structured_navigation_position : option (Z * Pos)
}.

Definition get_insertion_point (v : View) : Z := insertion_point (shell v).

Definition with_shell (f : Shell -> Shell) (v : View) : View :=
  mkView (f (shell v)) (latest_structured_navigation_position v).

(** [set_insertion_point]: the text control takes the focus and stores the
    position it is given. *)
Definition set_insertion_point (to : Z) (v : View) : View :=
  with_shell (fun sh => mkShell (reader sh) to (events sh)
                                (speak_page_number sh)
                                (speak_section_title sh) true) v.

Definition emit (evs : list Event) (v : View) : View :=
  with_shell (fun sh => mkShell (reader sh) (insertion_point sh)
                                (events sh ++ evs)
                                (speak_page_number sh)
                                (speak_section_title sh)
                                (content_focused sh)) v.

Definition remember (pos_info : Z * Pos) (v : View) : View :=
  mkView (shell v) (Some pos_info).

(** The state after [BookViewerWindow.__init__] as far as it is modelled:
    the attribute starts as [None]. *)
Definition initial_view (sh : Shell) : View := mkView sh None.

Definition no_more_message (forward : bool) (element_label : string) : string :=
  ((if forward then "No next " else "No previous ") ++ element_label)%string.

Definition found_message (text element_label : string) : string :=
  (text ++ ": " ++ element_label)%string.

(** [navigate_to_structural_element].  The method calls itself after it
    has moved the insertion point to [stop]; [fuel] bounds the depth of
    these calls and [None] tells that it was not enough. *)
Fixpoint navigate_to_structural_element (fuel : nat)
    (element_type : SemanticElementType) (forward : bool) (v : View)
  : option View :=
  match fuel with
  | O => None
  | S fuel' =>
      if negb (ready (reader (shell v))) then Some (emit [Bell] v)
      else
        let current_insertion_point := get_insertion_point v in
        match get_semantic_element (reader (shell v)) element_type forward
                current_insertion_point with
        | Some pos =>
            let '((start, stop), actual_element_type) := pos in
            let pos_info := (current_insertion_point, pos) in
            if memento_eqb (latest_structured_navigation_position v) pos_info
            then
              navigate_to_structural_element fuel' element_type forward
                (set_insertion_point stop v)
            else
              let v := remember pos_info v in
              let '(element_label, should_speak_whole_text,
                    move_to_start_of_line) :=
                SEMANTIC_ELEMENT_OUTPUT_OPTIONS actual_element_type in
              let '(text_start, text_stop) :=
                if should_speak_whole_text
                then get_containing_line (start + 1)
                else (start, stop) in
              let text := GetRange text_start text_stop in
              let msg := found_message text element_label in
              let target_position :=
                if negb move_to_start_of_line then start
                else fst (get_containing_line (stop - 1)) in
              let v := set_insertion_point target_position v in
              Some (emit [ Announce msg true;
                           Play structured_navigation;
                           ReadingPositionChange start element_label ] v)
        | None =>
            let '(element_label, _, _) :=
              SEMANTIC_ELEMENT_OUTPUT_OPTIONS element_type in
            Some (emit [Announce (no_more_message forward element_label) true] v)
        end
  end.

(** [go_to_position(start_pos, end_pos=None)], the explicit seek. *)
Definition go_to_position (start_pos : Z) (end_pos : option Z) (v : View)
  : View :=
  let '(start, end_) :=
    match end_pos with
    | None => get_containing_line start_pos
    | Some e => (start_pos, e)
    end in
  let line_text := GetRange start end_ in
  let v := set_insertion_point start v in
  emit [Play navigation; Announce line_text false] v.

(** What a click on the table of contents reaches in the reader:
    [reader.active_section = ...] and [reader.go_to_first_of_section()],
    which turns pages through the shell. *)
Variable set_active_section : Section -> Shell -> Shell.
Variable go_to_first_of_section : Shell -> Shell.

Definition set_speech_switches (page section_ : bool) (sh : Shell) : Shell :=
  mkShell (reader sh) (insertion_point sh) (events sh) page section_
          (content_focused sh).

Definition SetFocus (sh : Shell) : Shell :=
  mkShell (reader sh) (insertion_point sh) (events sh) (speak_page_number sh)
          (speak_section_title sh) true.

(** [onTOCItemClick], inside [mute_page_and_section_speech()]: the two
    switches are saved, turned off for the body and put back afterwards. *)
Definition onTOCItemClick (selected : Section) (v : View) : View :=
  let opsc := speak_page_number (shell v) in
  let ossc := speak_section_title (shell v) in
  let v := with_shell (set_speech_switches false false) v in
  let v := with_shell (set_active_section selected) v in
  let v := with_shell go_to_first_of_section v in
  let v := with_shell SetFocus v in
  with_shell (set_speech_switches opsc ossc) v.

End Viewer.

(** ** Structured navigation over a page of elements *)

(** Modelled from the spec: the reader as far as navigation needs it, a
    loaded document or none and the semantic elements of the text shown;
    [get_semantic_element] is [locate] on these elements. *)
Record PageReader : Type := mkPageReader {
  is_loaded : bool;
  page_elements : list SemanticElement
}.

Definition page_get_semantic_element (r : PageReader)
    (requested : SemanticElementType) (forward : bool) (from_position : Z)
  : option Pos :=
  locate (page_elements r) requested forward from_position.

Section Presses.

Variable options : SemanticElementType -> string * bool * bool.
Variable lines : Z -> Z * Z.
Variable range_text : Z -> Z -> string.

(** One key press: the method run on a page reader.  Two levels of call
    are given; [press_cases] shows that no more are needed. *)
Definition press (element_type : SemanticElementType) (forward : bool)
    (v : View PageReader) : option (View PageReader) :=
  navigate_to_structural_element PageReader is_loaded
    page_get_semantic_element options lines range_text 2 element_type forward v.

(** [target_position] for a match on the element [el]. *)
Definition landing (el : SemanticElement) : Z :=
  let '(_, _, move_to_start_of_line) := options (kind el) in
  if negb move_to_start_of_line then start el
  else fst (lines (stop el - 1)).

(** Every match leaves the insertion point on its own start. *)
Definition lands_on_start (elements : list SemanticElement) : bool :=
  forallb (fun el => landing el =? start el) elements.

(** Every range is [start <= stop]. *)
Definition ranges_ok (elements : list SemanticElement) : bool :=
  forallb (fun el => start el <=? stop el) elements.

(** The call ended in the branch that found nothing. *)
Definition announced_nothing (v v' : View PageReader) : Prop :=
  exists element_label,
    events _ (shell _ v') =
    events _ (shell _ v) ++ [Announce (no_more_message true element_label) true].

(** The call ended in the branch that announces a match. *)
Definition announced_match (v v' : View PageReader) : Prop :=
  exists msg position element_label,
    events _ (shell _ v') =
    events _ (shell _ v)
      ++ [ Announce msg true; Play structured_navigation;
           ReadingPositionChange position element_label ].

(** [k] presses forward each announce a match, and the next one finds
    nothing. *)
Inductive reaches_end (element_type : SemanticElementType)
  : View PageReader -> nat -> Prop :=
| reaches_end_now v v' :
    press element_type true v = Some v' ->
    announced_nothing v v' ->
    reaches_end element_type v 0
| reaches_end_later v v' k :
    press element_type true v = Some v' ->
    announced_match v v' ->
    reaches_end element_type v' k ->
    reaches_end element_type v (S k).

(** The same, and every press that announces a match leaves the insertion
    point, the next [from_position], strictly further on. *)
Inductive advances (element_type : SemanticElementType)
  : View PageReader -> nat -> Prop :=
| advances_now v v' :
    press element_type true v = Some v' ->
    announced_nothing v v' ->
    advances element_type v 0
| advances_later v v' k :
    press element_type true v = Some v' ->
    announced_match v v' ->
    get_insertion_point _ v < get_insertion_point _ v' ->
    advances element_type v' k ->
    advances element_type v (S k).

End Presses.

(** The elements a forward request from [from_position] can still find. *)
Definition remaining (elements : list SemanticElement)
    (requested : SemanticElementType) (from_position : Z) : nat :=
  List.length (filter (qualifies requested true from_position) elements).

(** A page of one line of twenty characters with two headings on it, and
    output options that read a heading with its whole line and move to the
    start of the line. *)
Definition line_options (k : SemanticElementType) : string * bool * bool :=
  match k with
  | link => ("Link", false, false)
  | table => ("Table", false, false)
  | _ => ("Heading", true, true)
  end.

Definition one_line (pos : Z) : Z * Z := (0, 20).

Definition no_text (text_start text_stop : Z) : string := "".

Definition two_headings : list SemanticElement :=
  [ mkElement heading_1 1 2; mkElement heading_1 5 10 ].

Definition view_at (elements : list SemanticElement) (pos : Z)
  : View PageReader :=
  initial_view PageReader
    (mkShell PageReader (mkPageReader true elements) pos [] true true true).

(** The states the window runs through on that page when a heading is
    asked for again and again, starting at position 2. *)
Definition alternating_state (v : View PageReader) : Prop :=
  reader _ (shell _ v) = mkPageReader true two_headings /\
  ((get_insertion_point _ v = 2 /\
    latest_structured_navigation_position _ v = None)
   \/
   (get_insertion_point _ v = 0 /\
    (latest_structured_navigation_position _ v
       = Some (2, ((5, 10), heading_1))
     \/ latest_structured_navigation_position _ v
       = Some (0, ((1, 2), heading_1))))).

(** Options that leave the insertion point on the start of the match. *)
Definition exact_options (k : SemanticElementType) : string * bool * bool :=
  match k with
  | link => ("Link", false, false)
  | table => ("Table", false, false)
  | _ => ("Heading", true, false)
  end.

Definition nested_outline : list Entry :=
  [ mkEntry 1 "A" 1; mkEntry 2 "A.1" 1; mkEntry 2 "A.2" 3; mkEntry 1 "B" 5 ].

(** ** The Piper engine: speaking an utterance *)

Module Piper.

(** [PauseSpec], [RateSpec] and [VolumeSpec] of
    bookworm.speechdriver.enumerations, by the keys of the three maps. *)
Inductive PauseSpec : Type :=
| pause_null | pause_extra_small | pause_small | pause_medium | pause_large
| pause_extra_large.

Inductive RateSpec : Type :=
| rate_not_set | rate_extra_slow | rate_slow | rate_medium | rate_fast
| rate_extra_fast.

Inductive VolumeSpec : Type :=
| volume_not_set | volume_silent | volume_extra_soft | volume_soft
| volume_medium | volume_loud | volume_extra_loud | volume_default.

(** The content of a pause, a rate or a volume is a key of the map or a
    plain value, which [dict.get(x, x)] hands back as it is. *)
Inductive PauseContent : Type :=
| pause_spec (s : PauseSpec)
| pause_value (ms : Z).

Inductive RateContent : Type :=
| rate_spec (s : RateSpec)
| rate_value (r : option Z).

Inductive VolumeContent : Type :=
| volume_spec (s : VolumeSpec)
| volume_value (v : option Z).

Definition PAUSE_VALUE_MAP (s : PauseSpec) : Z :=
  match s with
  | pause_null => 10
  | pause_extra_small => 100
  | pause_small => 250
  | pause_medium => 500
  | pause_large => 750
  | pause_extra_large => 1000
  end.

Definition RATE_VALUE_MAP (s : RateSpec) : option Z :=
  match s with
  | rate_not_set => None
  | rate_extra_slow => Some 20
  | rate_slow => Some 40
  | rate_medium => Some 60
  | rate_fast => Some 80
  | rate_extra_fast => Some 100
  end.

Definition VOLUME_VALUE_MAP (DEFAULT_VOLUME : Z) (s : VolumeSpec) : option Z :=
  match s with
  | volume_not_set => None
  | volume_silent => Some 1
  | volume_extra_soft => Some 10
  | volume_soft => Some 25
  | volume_medium => Some 50
  | volume_loud => Some 75
  | volume_extra_loud => Some 100
  | volume_default => Some DEFAULT_VOLUME
  end.

(** An element of an utterance: its kind together with the content that
    kind carries.  [other] is any kind the loop has no branch for. *)
Inductive SpeechElement : Type :=
| text (content : string)
| sentence (content : string)
| bookmark (content : string)
| pause (content : PauseContent)
| start_voice (voice_id : string)
| end_voice
| start_prosody (pitch : option Z) (rate : RateContent) (volume : VolumeContent)
| end_prosody
| audio (uri : string)
| other.

(** A character of [string.punctuation + string.whitespace]. *)
Definition strippable (c : Ascii.ascii) : bool :=
  let n := Ascii.nat_of_ascii c in
  ((33 <=? n) && (n <=? 47) || (58 <=? n) && (n <=? 64)
   || (91 <=? n) && (n <=? 96) || (123 <=? n) && (n <=? 126)
   || (9 <=? n) && (n <=? 13) || (n =? 32))%nat.

(** [not content.strip(string.punctuation + string.whitespace)]. *)
Fixpoint strips_to_nothing (content : string) : bool :=
  match content with
  | EmptyString => true
  | String c rest => strippable c && strips_to_nothing rest
  end.

Section Engine.

(** [PiperTextToSpeechSystem] is outside this file: the options object it
    holds, whatever else it holds, and its properties and task makers. *)
Variable SpeechOptions : Type.
Variable TtsState : Type.
Variable PiperTask : Type.
Variable Player : Type.
Variable DEFAULT_VOLUME : Z.

Record Tts : Type := mkTts {
  speech_options : SpeechOptions;
  tts_state : TtsState
}.

Variable get_voice : Tts -> option string.
Variable set_voice : string -> Tts -> Tts.
Variable get_pitch get_rate get_volume : Tts -> option Z.
Variable set_pitch set_rate set_volume : Z -> Tts -> Tts.
Variable create_speech_task : Tts -> string -> PiperTask.
Variable create_bookmark_task : Tts -> string -> PiperTask.
Variable create_break_task : Tts -> Z -> PiperTask.
Variable audio_uri_to_filepath : string -> string.

(** What [self._bgQueue.put] is given. *)
Inductive QueueItem : Type :=
| AudioFileTask (filename : string)
| ProcessPiperTask (task : option PiperTask) (player : Player)
| DoneSpeaking (player : Player).

Record Engine : Type := mkEngine {
  tts : Tts;
  bgQueue : list QueueItem;
  player : Player;
  silence_event : bool
}.

Definition with_tts (f : Tts -> Tts) (eng : Engine) : Engine :=
  mkEngine (f (tts eng)) (bgQueue eng) (player eng) (silence_event eng).

Definition put (item : QueueItem) (eng : Engine) : Engine :=
  mkEngine (tts eng) (bgQueue eng ++ [item]) (player eng) (silence_event eng).

(** The locals of the loop. *)
Record Locals : Type := mkLocals {
  old_voice : option string;
  old_prosody : option Z * option Z * option Z
}.

Definition truthy_voice (v : option string) : bool :=
  match v with
  | Some (String _ _) => true
  | _ => false
  end.

Definition set_if_some (set : Z -> Tts -> Tts) (value : option Z) (t : Tts)
  : Tts :=
  match value with
  | Some x => set x t
  | None => t
  end.

Definition pause_lookup (content : PauseContent) : Z :=
  match content with
  | pause_spec s => PAUSE_VALUE_MAP s
  | pause_value ms => ms
  end.

Definition rate_lookup (content : RateContent) : option Z :=
  match content with
  | rate_spec s => RATE_VALUE_MAP s
  | rate_value r => r
  end.

Definition volume_lookup (content : VolumeContent) : option Z :=
  match content with
  | volume_spec s => VOLUME_VALUE_MAP DEFAULT_VOLUME s
  | volume_value v => v
  end.

(** After the branches: [self._bgQueue.put(ProcessPiperTask(task, ...))]. *)
Definition put_task (task : option PiperTask) (eng : Engine) : Engine :=
  put (ProcessPiperTask task (player eng)) eng.

(** One turn of [for element in utterance]. *)
Definition speak_element (element : SpeechElement) (st : Locals * Engine)
  : Locals * Engine :=
  let '(loc, eng) := st in
  match element with
  | text content | sentence content =>
      if strips_to_nothing content then (loc, eng)
      else (loc, put_task (Some (create_speech_task (tts eng) content)) eng)
  | bookmark content =>
      (loc, put_task (Some (create_bookmark_task (tts eng) content)) eng)
  | pause content =>
      let pause_value := pause_lookup content in
      if pause_value =? 0 then (loc, put_task None eng)
      else (loc, put_task (Some (create_break_task (tts eng) pause_value)) eng)
  | start_voice voice_id =>
      let loc := mkLocals (get_voice (tts eng)) (old_prosody loc) in
      (loc, put_task None (with_tts (set_voice voice_id) eng))
  | end_voice =>
      let eng :=
        if truthy_voice (old_voice loc)
        then match old_voice loc with
             | Some v => with_tts (set_voice v) eng
             | None => eng
             end
        else eng in
      (loc, put_task None eng)
  | start_prosody pitch rate volume =>
      let t := tts eng in
      let loc := mkLocals (old_voice loc) (get_pitch t, get_rate t, get_volume t) in
      let eng := with_tts (set_if_some set_pitch pitch) eng in
      let eng := with_tts (set_if_some set_rate (rate_lookup rate)) eng in
      let eng := with_tts (set_if_some set_volume (volume_lookup volume)) eng in
      (loc, put_task None eng)
  | end_prosody =>
      let '(pitch, rate, volume) := old_prosody loc in
      let eng := with_tts (set_if_some set_pitch pitch) eng in
      let eng := with_tts (set_if_some set_rate rate) eng in
      let eng := with_tts (set_if_some set_volume volume) eng in
      (loc, put_task None eng)
  | audio uri =>
      (loc, put (AudioFileTask (audio_uri_to_filepath uri)) eng)
  | other => (loc, put_task None eng)
  end.

(** [speak_utterance]: the silence event is cleared, the options are
    copied, the elements are worked through, [DoneSpeaking] is queued and
    the copy is assigned back. *)
Definition speak_utterance (utterance : list SpeechElement) (eng : Engine)
  : Engine :=
  let eng := mkEngine (tts eng) (bgQueue eng) (player eng) false in
  let old_speech_options := speech_options (tts eng) in
  let loc := mkLocals None (None, None, None) in
  let '(_, eng) := fold_left (fun st element => speak_element element st)
                             utterance (loc, eng) in
  let eng := put (DoneSpeaking (player eng)) eng in
  with_tts (fun t => mkTts old_speech_options (tts_state t)) eng.

End Engine.

End Piper.

(** A text-to-speech system whose options are the name of the voice and
    whose speech task records the voice it was made with. *)
Definition voice_tts : Type := Piper.Tts string unit.

Definition voice_engine : Type := Piper.Engine string unit (string * string) unit.

Definition voice_speak_utterance
  : list Piper.SpeechElement -> voice_engine -> voice_engine :=
  Piper.speak_utterance string unit (string * string) unit 50
    (fun t => Some (Piper.speech_options _ _ t))
    (fun voice_id t => Piper.mkTts _ _ voice_id (Piper.tts_state _ _ t))
    (fun _ => None) (fun _ => None) (fun _ => None)
    (fun _ t => t) (fun _ t => t) (fun _ t => t)
    (fun t content => (Piper.speech_options _ _ t, content))
    (fun t content => (Piper.speech_options _ _ t, content))
    (fun t _ => (Piper.speech_options _ _ t, ""))
    (fun uri => uri).

(** * Further parts of the program

    Beside the three methods above, the development covers the rest of
    the Piper engine (the event sink, the tasks of the queue, the
    background thread, [stop], [pause] and [resume], [bind] and the
    players), the loader of documents and the muting of speech in the
    window, and the text, the metadata and the reading of a document. *)

(** ** The table of contents read back from the tree *)

(** The outline rows a tree stands for, parents before children: the depth
    of a section as its level, its title, and its first page counted from
    1 again. *)
Fixpoint outline_at (d : Z) (s : Section) : list Entry :=
  match s with
  | mkSection t p cs =>
      mkEntry d t (first p + 1) :: flat_map (outline_at (d + 1)) cs
  end.

Definition outline_of (root_item : Section) : list Entry :=
  flat_map (outline_at 1) (children root_item).

(** Title and pager of the sections directly under a section. *)
Definition top_heads (s : Section) : list (string * Pager) :=
  map (fun c => (sec_title c, pager c)) (children s).

(** The rows of [enumerate(toc_info)] whose level is 1. *)
Definition top_level_rows (toc_info : list Entry) : list (nat * Entry) :=
  filter (fun ie => level (snd ie) =? 1)
         (combine (seq 0 (List.length toc_info)) toc_info).

(** The sections of an outline that has entries of level 1 only: each one
    ends two pages before the start page of the next entry, the last one
    on the last page of the document. *)
Fixpoint flat_sections (max_page : Z) (toc_info : list Entry) : list Section :=
  match toc_info with
  | [] => []
  | e :: rest =>
      mkSection (title e)
        (mkPager (start_page e - 1)
                 (match rest with
                  | [] => max_page
                  | e' :: _ => start_page e' - 2
                  end)
                 (start_page e - 1)) []
      :: flat_sections max_page rest
  end.

Definition flat_outline (toc_info : list Entry) : bool :=
  forallb (fun e => level e =? 1) toc_info.

(** ** The Piper engine: what an utterance queues *)

(** The elements for which one turn of the loop of [speak_utterance] puts
    an item on the queue: all but text that strips to nothing. *)
Definition queues_item (element : Piper.SpeechElement) : bool :=
  match element with
  | Piper.text content | Piper.sentence content =>
      negb (Piper.strips_to_nothing content)
  | _ => true
  end.

(** The elements whose branch assigns to [self.tts] unconditionally. *)
Definition opens_scope (element : Piper.SpeechElement) : bool :=
  match element with
  | Piper.start_voice _ | Piper.start_prosody _ _ _ => true
  | _ => false
  end.

(** The elements whose branch never reads or assigns the voice or the
    prosody of [self.tts]. *)
Definition plain_element (element : Piper.SpeechElement) : bool :=
  match element with
  | Piper.text _ | Piper.sentence _ | Piper.bookmark _ | Piper.pause _
  | Piper.audio _ | Piper.other => true
  | _ => false
  end.

(** One turn of the loop on the text-to-speech system of
    [voice_speak_utterance], and an engine whose voice is "amy". *)
Definition voice_speak_element
  : Piper.SpeechElement -> Piper.Locals * voice_engine
    -> Piper.Locals * voice_engine :=
  Piper.speak_element string unit (string * string) unit 50
    (fun t => Some (Piper.speech_options _ _ t))
    (fun voice_id t => Piper.mkTts _ _ voice_id (Piper.tts_state _ _ t))
    (fun _ => None) (fun _ => None) (fun _ => None)
    (fun _ t => t) (fun _ t => t) (fun _ t => t)
    (fun t content => (Piper.speech_options _ _ t, content))
    (fun t content => (Piper.speech_options _ _ t, content))
    (fun t _ => (Piper.speech_options _ _ t, ""))
    (fun uri => uri).

Definition voice_engine_amy : voice_engine :=
  Piper.mkEngine string unit (string * string) unit
    (Piper.mkTts _ _ "amy" tt) [] tt true.

(** An item that the loop of [speak_utterance] queues while the engine's
    player is [p]: an audio file, or a task for that player. *)
Definition loop_item {PiperTask Player : Type} (p : Player)
    (item : Piper.QueueItem PiperTask Player) : Prop :=
  match item with
  | Piper.AudioFileTask _ _ _ => True
  | Piper.ProcessPiperTask _ _ _ p' => p' = p
  | Piper.DoneSpeaking _ _ _ => False
  end.

(** The items that are a [ProcessPiperTask], and the elements for which
    the loop queues one: those that queue an item, audio apart. *)
Definition is_process {PiperTask Player : Type}
    (item : Piper.QueueItem PiperTask Player) : bool :=
  match item with
  | Piper.ProcessPiperTask _ _ _ _ => true
  | _ => false
  end.

Definition queues_task (element : Piper.SpeechElement) : bool :=
  match element with
  | Piper.audio _ => false
  | _ => queues_item element
  end.

(** The names of the bookmark elements of an utterance, in order. *)
Definition bookmark_names (utterance : list Piper.SpeechElement)
  : list string :=
  flat_map (fun element => match element with
                           | Piper.bookmark name => [name]
                           | _ => []
                           end) utterance.

Section Queued.

Variable SpeechOptions : Type.
Variable TtsState : Type.
Variable PiperTask : Type.
Variable Player : Type.
Variable create_speech_task :
  Piper.Tts SpeechOptions TtsState -> string -> PiperTask.
Variable create_bookmark_task :
  Piper.Tts SpeechOptions TtsState -> string -> PiperTask.
Variable create_break_task :
  Piper.Tts SpeechOptions TtsState -> Z -> PiperTask.
Variable audio_uri_to_filepath : string -> string.

(** What one turn of the loop puts on the queue for an element while the
    engine's player is [p]; [t] is [self.tts] as the turn finds it. *)
Inductive queued_for (p : Player)
  : Piper.SpeechElement -> list (Piper.QueueItem PiperTask Player) -> Prop :=
| queued_blank_text content :
    Piper.strips_to_nothing content = true ->
    queued_for p (Piper.text content) []
| queued_blank_sentence content :
    Piper.strips_to_nothing content = true ->
    queued_for p (Piper.sentence content) []
| queued_text content t :
    Piper.strips_to_nothing content = false ->
    queued_for p (Piper.text content)
      [Piper.ProcessPiperTask _ _ (Some (create_speech_task t content)) p]
| queued_sentence content t :
    Piper.strips_to_nothing content = false ->
    queued_for p (Piper.sentence content)
      [Piper.ProcessPiperTask _ _ (Some (create_speech_task t content)) p]
| queued_bookmark name t :
    queued_for p (Piper.bookmark name)
      [Piper.ProcessPiperTask _ _ (Some (create_bookmark_task t name)) p]
| queued_break content t :
    Piper.pause_lookup content <> 0 ->
    queued_for p (Piper.pause content)
      [Piper.ProcessPiperTask _ _
         (Some (create_break_task t (Piper.pause_lookup content))) p]
| queued_no_break content :
    Piper.pause_lookup content = 0 ->
    queued_for p (Piper.pause content) [Piper.ProcessPiperTask _ _ None p]
| queued_no_task element :
    plain_element element = false ->
    queued_for p element [Piper.ProcessPiperTask _ _ None p]
| queued_other :
    queued_for p Piper.other [Piper.ProcessPiperTask _ _ None p]
| queued_audio uri :
    queued_for p (Piper.audio uri)
      [Piper.AudioFileTask _ _ (audio_uri_to_filepath uri)].

(** The same for the elements of an utterance in turn. *)
Inductive queued_for_all (p : Player)
  : list Piper.SpeechElement -> list (Piper.QueueItem PiperTask Player)
    -> Prop :=
| queued_nil : queued_for_all p [] []
| queued_cons element utterance items rest :
    queued_for p element items ->
    queued_for_all p utterance rest ->
    queued_for_all p (element :: utterance) (items ++ rest).

End Queued.

(** ** The Piper engine: the event sink and the background thread *)

Module PiperThread.

(** [SynthState] and [EngineEvent] of bookworm.speechdriver.enumerations,
    by the members this file names; [state_other] and [event_other] stand
    for any further member. *)
Inductive SynthState : Type :=
| state_ready | state_busy | state_paused | state_other.

Inductive EngineEvent : Type :=
| bookmark_reached | state_changed | event_other.

Definition state_eqb (a b : SynthState) : bool :=
  match a, b with
  | state_ready, state_ready | state_busy, state_busy
  | state_paused, state_paused | state_other, state_other => true
  | _, _ => false
  end.

Definition event_eqb (a b : EngineEvent) : bool :=
  match a, b with
  | bookmark_reached, bookmark_reached | state_changed, state_changed
  | event_other, event_other => true
  | _, _ => false
  end.

(** What [isinstance(self.task, AudioTask)] and
    [isinstance(self.task, BookmarkTask)] tell about a task, with
    [task.name] of a bookmark task. *)
Inductive TaskKind : Type :=
| AudioTask
| BookmarkTask (name : string)
| OtherTask.

Definition is_bookmark_task (k : TaskKind) : bool :=
  match k with
  | BookmarkTask _ => true
  | _ => false
  end.

(** [event in (EngineEvent.bookmark_reached, EngineEvent.state_changed)]. *)
Definition bindable (event : EngineEvent) : bool :=
  match event with
  | bookmark_reached | state_changed => true
  | event_other => false
  end.

(** The states of a sequence that differ from the state before them,
    [prev] being the state before the first. *)
Fixpoint changes (prev : SynthState) (states : list SynthState)
  : list SynthState :=
  match states with
  | [] => []
  | state :: rest =>
      if state_eqb state prev then changes prev rest
      else state :: changes state rest
  end.

Section Thread.

(** A handler is a callable given to [bind]; a call of it is recorded and
    is taken to return without touching the engine. *)
Variable Handler : Type.
Variable PiperTask : Type.
Variable Player : Type.
Variable task_kind : PiperTask -> TaskKind.

(** What the sink, the tasks and [stop] do to the outside. *)
Inductive Effect : Type :=
| StateHandler (handler : Handler) (state : SynthState)
| BookmarkHandler (handler : Handler) (bookmark : string)
| LogWarning
| PlaySound (filename : string)
| PlayerFeed (player : Player) (task : PiperTask)
| PlayerStop (player : Player)
| PlayerClose (player : Player)
| PlayerIdle (player : Player)
| PlayerPause (player : Player) (switch : bool).

(** [event_handlers] as [.get(event, ())] reads it: the handlers of an
    event in the order they were bound, none for an event without key. *)
Definition EventHandlers : Type := EngineEvent -> list Handler.

Definition no_handlers : EventHandlers := fun _ => [].

(** [PiperSpeechEngine.bind]; [None] is [raise NotImplementedError]. *)
Definition bind (event : EngineEvent) (handler : Handler)
    (event_handlers : EventHandlers) : option EventHandlers :=
  match event with
  | bookmark_reached | state_changed =>
      Some (fun e => if event_eqb e event
                     then event_handlers e ++ [handler]
                     else event_handlers e)
  | event_other => None
  end.

(** [bind] called for each pair in turn; the first call that raises ends
    the sequence. *)
Fixpoint bind_all (bindings : list (EngineEvent * Handler))
    (event_handlers : EventHandlers) : option EventHandlers :=
  match bindings with
  | [] => Some event_handlers
  | (event, handler) :: rest =>
      match bind event handler event_handlers with
      | Some event_handlers' => bind_all rest event_handlers'
      | None => None
      end
  end.

(** The [EventSink] with what it reaches: [synthref()] is the live engine,
    seen through its [event_handlers], or [None]; [_state]; and what was
    done so far.  [_silence_event] is the [silence_event] of the engine
    record and is passed to the tasks. *)
Record EventSink : Type := mkEventSink {
  synthref : option EventHandlers;
  _state : SynthState;
  effects : list Effect
}.

Definition effect (evs : list Effect) (sink : EventSink) : EventSink :=
  mkEventSink (synthref sink) (_state sink) (effects sink ++ evs).

Definition set_state (state : SynthState) (sink : EventSink) : EventSink :=
  mkEventSink (synthref sink) state (effects sink).

(** [EventSink.on_state_changed]. *)
Definition on_state_changed (state : SynthState) (sink : EventSink)
  : EventSink :=
  if state_eqb state (_state sink) then sink
  else
    match synthref sink with
    | None => set_state state_ready (effect [LogWarning] sink)
    | Some event_handlers =>
        let sink := set_state state sink in
        let handlers := event_handlers state_changed in
        effect (map (fun handler => StateHandler handler state) handlers) sink
    end.

(** [on_state_changed] called with each state of a sequence in turn. *)
Definition report (states : list SynthState) (sink : EventSink) : EventSink :=
  fold_left (fun sink state => on_state_changed state sink) states sink.

(** [EventSink.on_bookmark_reached]. *)
Definition on_bookmark_reached (bookmark : string) (sink : EventSink)
  : EventSink :=
  match synthref sink with
  | None => effect [LogWarning] sink
  | Some event_handlers =>
      effect (map (fun handler => BookmarkHandler handler bookmark)
                  (event_handlers bookmark_reached)) sink
  end.

(** The [__call__] of the three task classes; [silence] is
    [self.event_sink._silence_event.is_set()]. *)
Definition run_task (silence : bool) (item : Piper.QueueItem PiperTask Player)
    (sink : EventSink) : EventSink :=
  match item with
  | Piper.AudioFileTask _ _ filename =>
      if silence then sink else effect [PlaySound filename] sink
  | Piper.ProcessPiperTask _ _ task player =>
      if silence then sink
      else
        let sink := on_state_changed state_busy sink in
        match task with
        | Some t =>
            match task_kind t with
            | AudioTask => effect [PlayerFeed player t] sink
            | BookmarkTask name => on_bookmark_reached name sink
            | OtherTask => sink
            end
        | None => sink
        end
  | Piper.DoneSpeaking _ _ player =>
      let sink :=
        if silence then effect [PlayerStop player; PlayerClose player] sink
        else sink in
      let sink := effect [PlayerIdle player] sink in
      on_state_changed state_ready sink
  end.

(** [BgThread.run] over the tasks that are on the queue: each is taken and
    called in turn.  A call is taken to return; the loop itself catches
    and logs what a task raises and goes on with the next one. *)
Definition run (silence : bool) (tasks : list (Piper.QueueItem PiperTask Player))
    (sink : EventSink) : EventSink :=
  fold_left (fun sink task => run_task silence task sink) tasks sink.

Variable SpeechOptions : Type.
Variable TtsState : Type.

(** [PiperSpeechEngine.stop]: the silence event is set, the player is
    stopped, the queue is emptied, [DoneSpeaking] is queued, and
    [self._bgQueue.join()] returns when the background thread has called
    it. *)
Definition stop
    (eng : Piper.Engine SpeechOptions TtsState PiperTask Player)
    (sink : EventSink)
  : Piper.Engine SpeechOptions TtsState PiperTask Player * EventSink :=
  let eng := Piper.mkEngine _ _ _ _ (Piper.tts _ _ _ _ eng)
               (Piper.bgQueue _ _ _ _ eng) (Piper.player _ _ _ _ eng) true in
  let sink := effect [PlayerStop (Piper.player _ _ _ _ eng)] sink in
  let eng := Piper.mkEngine _ _ _ _ (Piper.tts _ _ _ _ eng) []
               (Piper.player _ _ _ _ eng) (Piper.silence_event _ _ _ _ eng) in
  let eng := Piper.put _ _ _ _
               (Piper.DoneSpeaking _ _ (Piper.player _ _ _ _ eng)) eng in
  let sink := run (Piper.silence_event _ _ _ _ eng)
                  (Piper.bgQueue _ _ _ _ eng) sink in
  (Piper.mkEngine _ _ _ _ (Piper.tts _ _ _ _ eng) []
     (Piper.player _ _ _ _ eng) (Piper.silence_event _ _ _ _ eng), sink).

(** [pause] and [resume]. *)
Definition pause
    (eng : Piper.Engine SpeechOptions TtsState PiperTask Player)
    (sink : EventSink) : EventSink :=
  on_state_changed state_paused
    (effect [PlayerPause (Piper.player _ _ _ _ eng) true] sink).

Definition resume
    (eng : Piper.Engine SpeechOptions TtsState PiperTask Player)
    (sink : EventSink) : EventSink :=
  on_state_changed state_busy
    (effect [PlayerPause (Piper.player _ _ _ _ eng) false] sink).

End Thread.

(** The handler calls among the effects that tell a state. *)
Definition told_states {Handler PiperTask Player : Type}
    (evs : list (Effect Handler PiperTask Player))
  : list (Handler * SynthState) :=
  flat_map (fun ev => match ev with
                      | StateHandler _ _ _ handler state => [(handler, state)]
                      | _ => []
                      end) evs.

(** The bookmarks told to the handlers. *)
Definition told_bookmarks {Handler PiperTask Player : Type}
    (evs : list (Effect Handler PiperTask Player))
  : list (Handler * string) :=
  flat_map (fun ev => match ev with
                      | BookmarkHandler _ _ _ handler bookmark =>
                          [(handler, bookmark)]
                      | _ => []
                      end) evs.

End PiperThread.

(** Two handlers bound to [state_changed] and one to
    [bookmark_reached]. *)
Definition two_handlers : PiperThread.EventHandlers string :=
  fun event =>
    match event with
    | PiperThread.state_changed => ["first"; "second"]
    | PiperThread.bookmark_reached => ["marks"]
    | PiperThread.event_other => []
    end.

(** A text-to-speech system whose tasks are their kinds: speech and breaks
    are audio tasks, a bookmark is a bookmark task of its name. *)
Definition kind_engine : Type :=
  Piper.Engine string unit PiperThread.TaskKind unit.

Definition kind_speak_utterance
  : list Piper.SpeechElement -> kind_engine -> kind_engine :=
  Piper.speak_utterance string unit PiperThread.TaskKind unit 50
    (fun t => Some (Piper.speech_options _ _ t))
    (fun voice_id t => Piper.mkTts _ _ voice_id (Piper.tts_state _ _ t))
    (fun _ => None) (fun _ => None) (fun _ => None)
    (fun _ t => t) (fun _ t => t) (fun _ t => t)
    (fun _ _ => PiperThread.AudioTask)
    (fun _ name => PiperThread.BookmarkTask name)
    (fun _ _ => PiperThread.AudioTask)
    (fun uri => uri).

Definition kind_engine_amy : kind_engine :=
  Piper.mkEngine string unit PiperThread.TaskKind unit
    (Piper.mkTts _ _ "amy" tt) [] tt true.

(** The background thread on the queue that [kind_speak_utterance] leaves,
    with the handlers of [two_handlers] and a sink that is [ready]. *)
Definition kind_run (utterance : list Piper.SpeechElement)
  : PiperThread.EventSink string PiperThread.TaskKind unit :=
  let eng' := kind_speak_utterance utterance kind_engine_amy in
  PiperThread.run string PiperThread.TaskKind unit (fun k => k)
    (Piper.silence_event _ _ _ _ eng') (Piper.bgQueue _ _ _ _ eng')
    (PiperThread.mkEventSink _ _ _ (Some two_handlers)
       PiperThread.state_ready []).

(** ** The Piper engine: the players *)

Module PiperPlayers.

(** [WavePlayer(channels=1, samplesPerSec=sample_rate, bitsPerSample=16,
    buffered=True)] of bookworm.platforms.win32.nvwave, by the arguments
    it is made with.  Every call of the constructor makes a new object;
    [player_id] tells the objects apart. *)
Record WavePlayer : Type := mkWavePlayer {
  player_id : nat;
  channels : Z;
  samplesPerSec : Z;
  bitsPerSample : Z;
  buffered : bool
}.

(** [self._players], a dict from sample rate to player in insertion order,
    and the number of players constructed so far. *)
Record Players : Type := mkPlayers {
  _players : list (Z * WavePlayer);
  constructed : nat
}.

(** [self._players = {}] of [__init__]. *)
Definition no_players : Players := mkPlayers [] 0.

(** [self._players[sample_rate]] where the key is present. *)
Fixpoint lookup (sample_rate : Z) (d : list (Z * WavePlayer))
  : option WavePlayer :=
  match d with
  | [] => None
  | (k, p) :: rest => if k =? sample_rate then Some p else lookup sample_rate rest
  end.

(** [PiperSpeechEngine._get_or_create_player]: the player returned and the
    players afterwards. *)
Definition _get_or_create_player (sample_rate : Z) (ps : Players)
  : WavePlayer * Players :=
  match lookup sample_rate (_players ps) with
  | Some p => (p, ps)
  | None =>
      let p := mkWavePlayer (constructed ps) 1 sample_rate 16 true in
      (p, mkPlayers (_players ps ++ [(sample_rate, p)]) (S (constructed ps)))
  end.

(** The players after a player was asked for each sample rate in turn. *)
Definition requests (sample_rates : list Z) (ps : Players) : Players :=
  fold_left (fun ps sample_rate => snd (_get_or_create_player sample_rate ps))
            sample_rates ps.

End PiperPlayers.

(** ** The window: muting page and section speech *)

Section Mute.

Variable Reader : Type.

(** [mute_page_and_section_speech], the context manager: the two switches
    are saved and turned off, the body of the [with] statement runs, and
    the [finally] clause puts the saved values back, whether the body
    returned or raised.  The body is given by the shell it leaves and its
    outcome. *)
Definition mute_page_and_section_speech {A : Type}
    (body : Shell Reader -> Shell Reader * result A) (sh : Shell Reader)
  : Shell Reader * result A :=
  let opsc := speak_page_number _ sh in
  let ossc := speak_section_title _ sh in
  let sh := set_speech_switches _ false false sh in
  let '(sh, outcome) := body sh in
  (set_speech_switches _ opsc ossc sh, outcome).

End Mute.

(** ** Structured navigation backwards *)

(** The elements a backward request from [from_position] can still
    find. *)
Definition remaining_before (elements : list SemanticElement)
    (requested : SemanticElementType) (from_position : Z) : nat :=
  List.length (filter (qualifies requested false from_position) elements).

Section PressesBack.

Variable options : SemanticElementType -> string * bool * bool.
Variable lines : Z -> Z * Z.
Variable range_text : Z -> Z -> string.

(** Every match leaves the insertion point at or before its own end: the
    start of a line is not after a position of the line. *)
Definition lands_within (elements : list SemanticElement) : bool :=
  forallb (fun el => landing options lines el <=? stop el) elements.

(** The call ended in the branch that found nothing, going backward. *)
Definition announced_no_previous (v v' : View PageReader) : Prop :=
  exists element_label,
    events _ (shell _ v') =
    events _ (shell _ v)
      ++ [Announce (no_more_message false element_label) true].

(** [k] presses backward each announce a match and leave the insertion
    point strictly further back, and the next one finds nothing. *)
Inductive retreats (element_type : SemanticElementType)
  : View PageReader -> nat -> Prop :=
| retreats_now v v' :
    press options lines range_text element_type false v = Some v' ->
    announced_no_previous v v' ->
    retreats element_type v 0
| retreats_later v v' k :
    press options lines range_text element_type false v = Some v' ->
    announced_match v v' ->
    get_insertion_point _ v' < get_insertion_point _ v ->
    retreats element_type v' k ->
    retreats element_type v (S k).

End PressesBack.

(** ** Loading a document into the window *)

Module ResourceLoader.

(** What [resolver.read_document()] raised, by the [except] clause of
    [resolve_document] that catches it; the clauses are tried in this
    order and [OtherException] is the final [except Exception]. *)
Inductive Raised : Type :=
| DecryptionRequired
| ResourceDoesNotExist
| DocumentRestrictedError
| UnsupportedDocumentError
| ReaderError
| OtherException.

Inductive Icon : Type := ICON_ERROR | ICON_WARNING.

Section Loader.

Variable Document : Type.

(** The translation function [_]. *)
Variable gettext : string -> string.

(** What the loader does to the window and the log. *)
Inductive Call : Type :=
| LogException (msg : string)
| NotifyUser (title message : string) (icon : Icon)
| UnloadCurrentEbook
| DecryptDocument
| LoadDocument (document : Document)
| Callback.

(** What an [except ... as e] clause of [resolve_document] does before
    the [finally] clause: it logs and schedules [notify_user].  The texts
    are those of the source, a line break written as it is there. *)
Definition report (e : Raised) : list Call :=
  match e with
  | DecryptionRequired => []
  | ResourceDoesNotExist =>
      [ LogException "Failed to open file. File does not exist";
        NotifyUser (gettext "Document not found")
          (gettext "Could not open Document.\nThe document does not exist.")
          ICON_ERROR ]
  | DocumentRestrictedError =>
      [ LogException
          "Failed to open document. The document is restricted by the author.";
        NotifyUser (gettext "Document Restricted")
          (gettext
             "Could not open Document.\nThe document is restricted by the publisher.")
          ICON_ERROR ]
  | UnsupportedDocumentError =>
      [ LogException "Unsupported file format";
        NotifyUser (gettext "Unsupported Document Format")
          (gettext
             "The format of the given document is not supported by Bookworm.")
          ICON_WARNING ]
  | ReaderError =>
      [ LogException "Unsupported file format";
        NotifyUser (gettext "Error Opening Document")
          (gettext
             "Could not open file\n.Either the file  has been damaged during download, or it has been corrupted in some other way.")
          ICON_ERROR ]
  | OtherException =>
      [ LogException "Unsupported file format";
        NotifyUser (gettext "Error Openning Document")
          (gettext
             "Could not open document.\nAn unknown error occurred while loading the file.")
          ICON_ERROR ]
  end.

(** [ResourceLoader.resolve_document]: the calls made, and the value
    returned ([None] when the function falls off its end) or the exception
    that leaves it.  [debug] is [app.debug]. *)
Definition resolve_document (debug : bool) (read_document : Document + Raised)
  : list Call * (option Document + Raised) :=
  match read_document with
  | inl document => ([], inl (Some document))
  | inr DecryptionRequired => ([], inr DecryptionRequired)
  | inr e =>
      (report e ++ [UnloadCurrentEbook],
       if debug then inr e else inl None)
  end.

(** [ResourceLoader.load]. *)
Definition load (document : option Document) (cancelled has_callback : bool)
  : list Call :=
  match document with
  | None => []
  | Some d =>
      if cancelled then []
      else LoadDocument d :: (if has_callback then [Callback] else [])
  end.

(** [ResourceLoader._document_read_callback], on the outcome that
    [future.result()] hands over. *)
Definition _document_read_callback (future : option Document + Raised)
    (cancelled has_callback : bool) : list Call * option Raised :=
  match future with
  | inr DecryptionRequired => ([DecryptDocument], None)
  | inr e => ([], Some e)
  | inl document => (load document cancelled has_callback, None)
  end.

(** [ResourceLoader.init_resolver].  [resolved] tells that
    [UriResolver(uri)] did not raise [ReaderError], [read_async] is
    [resolver.should_read_async()]; the dialog of the asynchronous branch
    runs its task and hands the outcome to its [done_callback]. *)
Definition init_resolver (uri : string)
    (debug resolved read_async cancelled has_callback : bool)
    (read_document : Document + Raised) : list Call * option Raised :=
  if negb resolved then
    ([ LogException ("Failed to resolve document uri: " ++ uri);
       NotifyUser (gettext "Failed to open document")
         (gettext
            "The document you are trying to open could not be opened in Bookworm.")
         ICON_ERROR ], None)
  else
    let '(calls, outcome) := resolve_document debug read_document in
    if negb read_async then
      match outcome with
      | inl (Some d) => (calls ++ load (Some d) cancelled has_callback, None)
      | inl None => (calls, None)
      | inr e => (calls, Some e)
      end
    else
      let '(calls', raised) :=
        _document_read_callback outcome cancelled has_callback in
      (calls ++ calls', raised).

(** [BookViewerWindow.open_uri]: the current book is unloaded, the loader
    is made with a callback that is never [None], and [DecryptionRequired]
    coming out of it leads to [decrypt_document]. *)
Definition open_uri (uri : string) (debug resolved read_async cancelled : bool)
    (read_document : Document + Raised) : list Call * option Raised :=
  let '(calls, raised) :=
    init_resolver uri debug resolved read_async cancelled true read_document in
  match raised with
  | Some DecryptionRequired =>
      (UnloadCurrentEbook :: calls ++ [DecryptDocument], None)
  | _ => (UnloadCurrentEbook :: calls, raised)
  end.

Definition is_notify (c : Call) : bool :=
  match c with NotifyUser _ _ _ => true | _ => false end.

Definition is_unload (c : Call) : bool :=
  match c with UnloadCurrentEbook => true | _ => false end.

Definition is_load (c : Call) : bool :=
  match c with LoadDocument _ => true | _ => false end.

End Loader.

(** Reading failed with something other than [DecryptionRequired]. *)
Definition failed {Document : Type} (read_document : Document + Raised) : bool :=
  match read_document with
  | inl _ | inr DecryptionRequired => false
  | inr _ => true
  end.

End ResourceLoader.

(** ** The text of a page *)

Module FitzText.

Definition LF : Ascii.ascii := Ascii.ascii_of_nat 10.
Definition CR : Ascii.ascii := Ascii.ascii_of_nat 13.
Definition SPACE : Ascii.ascii := Ascii.ascii_of_nat 32.

(** The separator of [_text_from_page], a carriage return and a line
    feed. *)
Definition CRLF : string := String CR (String LF EmptyString).

(** [blk[4].replace(newline, space)]. *)
Fixpoint replace_newlines (s : string) : string :=
  match s with
  | EmptyString => EmptyString
  | String c rest =>
      String (if Ascii.eqb c LF then SPACE else c) (replace_newlines rest)
  end.

(** [FitzDocument._text_from_page].  A block of [page.getTextBlocks()] is
    given by its item 4, the text of the block, the only item that is
    read. *)
Definition _text_from_page (bloks : list string) : string :=
  let text := map replace_newlines bloks in
  String.concat CRLF text.

(** The number of line feeds of a string. *)
Fixpoint count_lf (s : string) : nat :=
  match s with
  | EmptyString => 0
  | String c rest => ((if Ascii.eqb c LF then 1 else 0) + count_lf rest)%nat
  end.

Definition push_front (c : Ascii.ascii) (parts : list string) : list string :=
  match parts with
  | [] => [String c EmptyString]
  | part :: rest => String c part :: rest
  end.

(** [s.split(CRLF)] of Python: the pieces between the occurrences of the
    separator, found from the left. *)
Fixpoint split_crlf (s : string) : list string :=
  match s with
  | EmptyString => [EmptyString]
  | String c rest =>
      match rest with
      | String c' rest' =>
          if Ascii.eqb c CR && Ascii.eqb c' LF
          then EmptyString :: split_crlf rest'
          else push_front c (split_crlf rest)
      | EmptyString => push_front c (split_crlf rest)
      end
  end.

End FitzText.

(** ** The metadata of a document *)

Module FitzMetadata.

(** [BookMetadata] of bookworm.document_formats.base, by the three keyword
    arguments that [metadata] gives it. *)
Record BookMetadata : Type := mkBookMetadata {
  title : string;
  author : string;
  publication_year : string
}.

(** [value or alternative] for a value that is [None] or a string. *)
Definition py_or (value : option string) (alternative : string) : string :=
  match value with
  | Some (String c rest) => String c rest
  | _ => alternative
  end.

(** [name[:-4]]. *)
Definition drop_last_4 (name : string) : string :=
  String.substring 0 (String.length name - 4) name.

(** [FitzDocument.metadata].  [basename] is
    [os.path.split(self.filename)[-1]]; the three values are
    [meta["title"]], [meta["author"]] and [meta["creationDate"]]. *)
Definition metadata (basename : string)
    (meta_title meta_author meta_creationDate : option string)
  : BookMetadata :=
  let to_str := fun value => py_or value EmptyString in
  mkBookMetadata (py_or meta_title (drop_last_4 basename))
                 (to_str meta_author)
                 (to_str meta_creationDate).

End FitzMetadata.

(** ** Reading a document *)

Module FitzRead.

(** What leaves [read]: [DocumentError] with its arguments, the
    [IndexError] of [e.args[0]], or anything else. *)
Inductive Exn : Type :=
| DocumentError (args : list string)
| IndexError
| OtherError.

(** [c.lower()] for a character of ASCII. *)
Definition lower_char (c : Ascii.ascii) : Ascii.ascii :=
  let n := Ascii.nat_of_ascii c in
  if ((65 <=? n) && (n <=? 90))%nat then Ascii.ascii_of_nat (n + 32) else c.

Fixpoint lower (s : string) : string :=
  match s with
  | EmptyString => EmptyString
  | String c rest => String (lower_char c) (lower rest)
  end.

(** [needle in s]. *)
Definition contains (needle s : string) : bool :=
  match String.index 0 needle s with
  | Some _ => true
  | None => false
  end.

Section Read.

Variable Ebook : Type.

(** The document object as far as [read] touches it. *)
Record Doc : Type := mkDoc {
  filename : string;
  _ebook : option Ebook;
  _original_file_name : option string
}.

(** What [fitz.open(filename, filetype=filetype)] does: it returns the
    document, raises [RuntimeError] with arguments, or raises something
    else. *)
Inductive Opened : Type :=
| Returned (ebook : Ebook)
| RuntimeError (args : list string)
| Failed.

Variable fitz_open : string -> option string -> Opened.

(** [BaseDocument.read], which [super().read()] reaches: the document
    afterwards and what it raised. *)
Variable base_read : Doc -> Doc * option Exn.

(** [_tools.make_unrestricted_file]. *)
Variable make_unrestricted_file : string -> string.

(** The outcome of a [read]: the document afterwards, what was raised,
    and the calls of [fitz.open] that were made, in order. *)
Definition Outcome : Type := Doc * option Exn * list (string * option string).

(** [FitzDocument.read]. *)
Definition read (filetype : option string) (doc : Doc) : Outcome :=
  let opened := [(filename doc, filetype)] in
  match fitz_open (filename doc) filetype with
  | Returned ebook =>
      let '(doc, raised) :=
        base_read (mkDoc (filename doc) (Some ebook)
                         (_original_file_name doc)) in
      (doc, raised, opened)
  | RuntimeError args => (doc, Some (DocumentError args), opened)
  | Failed => (doc, Some OtherError, opened)
  end.

(** [FitzEPUBDocument.read]. *)
Definition epub_read (doc : Doc) : Outcome :=
  let '(doc, raised, opened) := read None doc in
  match raised with
  | Some (DocumentError args) =>
      match args with
      | [] => (doc, Some IndexError, opened)
      | msg :: _ =>
          if contains "drm" (lower msg) then
            let doc := mkDoc (make_unrestricted_file (filename doc))
                             (_ebook doc) (Some (filename doc)) in
            let '(doc, raised, opened') := read (Some "epub") doc in
            (doc, raised, opened ++ opened')
          else (doc, Some (DocumentError args), opened)
      end
  | _ => (doc, raised, opened)
  end.

End Read.

End FitzRead.

(** A [fitz.open] that refuses every file with a message about DRM, and a
    base class whose [read] does nothing. *)
Definition drm_open (name : string) (filetype : option string)
  : FitzRead.Opened unit :=
  FitzRead.RuntimeError unit ["File is protected by DRM"].

Definition plain_base_read (doc : FitzRead.Doc unit)
  : FitzRead.Doc unit * option FitzRead.Exn := (doc, None).

(** ** The generators over the queue of a worker process *)

Module FitzQueue.

Section Drain.

(** What the worker process puts on its queue, and the test
    [value == -1]. *)
Variable Value : Type.
Variable is_minus_one : Value -> bool.

(** The loop of [export_to_text] and of [search]: [queue] is what the
    process puts on [process.queue] over its life, in order.  The values
    yielded are returned when the loop reaches its [break]; [None] says
    that [process.queue.get()] waits for ever on a queue that ran dry. *)
Fixpoint drain (queue : list Value) : option (list Value) :=
  match queue with
  | [] => None
  | value :: rest =>
      if is_minus_one value then Some []
      else match drain rest with
           | Some yielded => Some (value :: yielded)
           | None => None
           end
  end.

Definition export_to_text : list Value -> option (list Value) := drain.

Definition search : list Value -> option (list Value) := drain.

End Drain.

End FitzQueue.

(** * Part II: properties *)

(** ** Lists and [children[-1]] *)

Lemma split_last_snoc {A : Type} (init : list A) (z : A) :
  split_last (init ++ [z]) = Some (init, z).
Proof.
  induction init as [|x init IH]; simpl.
  - reflexivity.
  - rewrite IH. reflexivity.
Qed.

Lemma split_last_Some {A : Type} (xs init : list A) (z : A) :
  split_last xs = Some (init, z) -> xs = init ++ [z].
Proof.
  revert init z.
  induction xs as [|x xs IH]; simpl; intros init z H.
  - discriminate.
  - destruct (split_last xs) as [[i' z']|] eqn:E.
    + inversion H; subst. rewrite (IH i' z eq_refl). reflexivity.
    + inversion H; subst. destruct xs as [|y ys]; [reflexivity|].
      simpl in E. destruct (split_last ys) as [[? ?]|]; discriminate.
Qed.

Lemma split_last_None {A : Type} (xs : list A) :
  split_last xs = None -> xs = [].
Proof.
  destruct xs as [|x xs]; simpl; [reflexivity|].
  destruct (split_last xs) as [[? ?]|]; discriminate.
Qed.

Lemma skipn_nth_error_cons {A : Type} (xs : list A) (i : nat) (x : A) :
  nth_error xs i = Some x -> skipn i xs = x :: skipn (S i) xs.
Proof.
  revert i.
  induction xs as [|y ys IH]; intros [|i] H; simpl in *; try discriminate.
  - inversion H. reflexivity.
  - apply IH. exact H.
Qed.

Lemma skipn_nth_error_nil {A : Type} (xs : list A) (i : nat) :
  nth_error xs i = None -> skipn i xs = [].
Proof.
  intros H. apply skipn_all2. apply nth_error_None. exact H.
Qed.

(** ** The scan is the search for the next entry of equal level *)

Lemma scan_loop_body (toc_info : list Entry) (lvl : Z) (curr_index : nat)
    (next_item : Entry) :
  scan_loop toc_info lvl curr_index next_item =
  if negb (level next_item =? lvl) then
    match nth_error toc_info (S curr_index) with
    | Some it => scan_loop toc_info lvl (S curr_index) it
    | None => None
    end
  else Some next_item.
Proof.
  funelim (scan_loop toc_info lvl curr_index next_item);
    try match goal with E : negb _ = _ |- _ => rewrite E end;
    try match goal with E : nth_error _ _ = _ |- _ => rewrite E end;
    reflexivity.
Qed.

Lemma scan_loop_find (toc_info : list Entry) (lvl : Z) (gap curr_index : nat)
    (next_item : Entry) :
  (List.length toc_info - curr_index <= gap)%nat ->
  scan_loop toc_info lvl curr_index next_item =
  if level next_item =? lvl then Some next_item
  else next_same_level toc_info curr_index lvl.
Proof.
  unfold next_same_level.
  revert curr_index next_item.
  induction gap as [|gap IH]; intros curr_index next_item Hgap;
    rewrite scan_loop_body;
    destruct (level next_item =? lvl); cbn [negb]; try reflexivity.
  - rewrite skipn_all2 by lia.
    destruct (nth_error toc_info (S curr_index)) eqn:E; [|reflexivity].
    assert (S curr_index < List.length toc_info)%nat
      by (apply nth_error_Some; congruence).
    lia.
  - destruct (nth_error toc_info (S curr_index)) as [it|] eqn:E.
    + rewrite IH by lia.
      rewrite (skipn_nth_error_cons toc_info (S curr_index) it E).
      simpl. reflexivity.
    + rewrite (skipn_nth_error_nil toc_info (S curr_index) E). reflexivity.
Qed.

Lemma find_next_item_spec (toc_info : list Entry) (index : nat) (lvl : Z) :
  find_next_item toc_info index lvl = next_same_level toc_info index lvl.
Proof.
  unfold find_next_item.
  replace (index + 1)%nat with (S index) by lia.
  destruct (nth_error toc_info (S index)) as [it|] eqn:E.
  - rewrite (scan_loop_find _ _ (List.length toc_info)) by lia.
    unfold next_same_level.
    rewrite (skipn_nth_error_cons _ _ _ E). simpl.
    destruct (level it =? lvl); reflexivity.
  - unfold next_same_level.
    rewrite (skipn_nth_error_nil _ _ E). reflexivity.
Qed.

(** ** The walk takes [parent_lvl - 1] steps *)

Lemma walk_append_descend (parent_lvl : Z) (parent sect : Section) :
  walk_append parent_lvl parent sect =
  descend_append (Z.to_nat (parent_lvl - 1)) parent sect.
Proof.
  funelim (walk_append parent_lvl parent sect).
  - replace (Z.to_nat (parent_lvl - 1)) with O by lia. reflexivity.
  - replace (Z.to_nat (parent_lvl - 1)) with (S (Z.to_nat (parent_lvl - 1 - 1)))
      by lia.
    simpl. rewrite Heq.
    match goal with IH : walk_append _ _ _ = descend_append _ _ _ |- _ =>
      rewrite IH end.
    reflexivity.
  - replace (Z.to_nat (parent_lvl - 1)) with (S (Z.to_nat (parent_lvl - 1 - 1)))
      by lia.
    simpl. rewrite Heq. reflexivity.
Qed.

Lemma entry_depth_attach (root_item : Section) (lvl : Z) (sect : Section) :
  attach root_item lvl sect =
  descend_append (Nat.pred (entry_depth lvl)) root_item sect.
Proof.
  unfold attach, entry_depth.
  destruct (lvl =? 1) eqn:E.
  - reflexivity.
  - simpl.
    destruct (split_last (children root_item)) as [[init parent]|]; [|reflexivity].
    rewrite walk_append_descend.
    replace (Z.to_nat (lvl - 1 - 1)) with (Z.to_nat (lvl - 2)) by lia.
    reflexivity.
Qed.

Lemma entry_depth_level (lvl : Z) :
  1 <= lvl -> Z.of_nat (entry_depth lvl) = lvl.
Proof.
  intros H. unfold entry_depth.
  destruct (lvl =? 1) eqn:E.
  - apply Z.eqb_eq in E. subst. reflexivity.
  - apply Z.eqb_neq in E. lia.
Qed.

Lemma entry_depth_pos (lvl : Z) : (1 <= entry_depth lvl)%nat.
Proof.
  unfold entry_depth. destruct (lvl =? 1); lia.
Qed.

(** ** What one walk does to the tree *)

Lemma last_chain_leaf (t : string) (p : Pager) :
  last_chain (mkSection t p []) = [p].
Proof. reflexivity. Qed.

Lemma last_chain_snoc (t : string) (p : Pager) (init : list Section)
    (c : Section) :
  last_chain (mkSection t p (init ++ [c])) = p :: last_chain c.
Proof.
  simpl. f_equal.
  induction init as [|x init IH].
  - reflexivity.
  - simpl. rewrite IH.
    destruct (init ++ [c]) eqn:E; [|reflexivity].
    destruct init; discriminate.
Qed.

Lemma last_chain_nonempty (s : Section) : last_chain s <> [].
Proof. destruct s; discriminate. Qed.

Lemma heads_snoc (t : string) (p : Pager) (init : list Section) (c : Section) :
  heads (mkSection t p (init ++ [c])) =
  heads (mkSection t p init) ++ heads c.
Proof.
  simpl. rewrite flat_map_app. simpl. rewrite app_nil_r. reflexivity.
Qed.

Lemma edges_snoc (t : string) (p : Pager) (init : list Section) (c : Section)
    (x : Pager * Pager) :
  In x (edges (mkSection t p (init ++ [c]))) <->
  In x (edges (mkSection t p init)) \/ x = (p, pager c) \/ In x (edges c).
Proof.
  simpl. rewrite map_app, flat_map_app. simpl.
  rewrite !in_app_iff. simpl.
  intuition (subst; auto).
Qed.

Lemma descend_append_raise (n : nat) :
  forall parent sect,
    (List.length (last_chain parent) <= n)%nat ->
    descend_append n parent sect = Raise IndexError.
Proof.
  induction n as [|n IH]; intros [t p cs] sect Hlen.
  - simpl in Hlen. lia.
  - simpl. destruct (split_last cs) as [[init child]|] eqn:E; [|reflexivity].
    apply split_last_Some in E. subst cs.
    rewrite last_chain_snoc in Hlen. simpl in Hlen.
    rewrite IH by lia. reflexivity.
Qed.

Lemma descend_append_ok (n : nat) :
  forall parent sect,
    (n < List.length (last_chain parent))%nat ->
    exists p',
      descend_append n parent sect = Ok p' /\
      sec_title p' = sec_title parent /\
      pager p' = pager parent /\
      heads p' = heads parent ++ heads sect /\
      last_chain p' = firstn (S n) (last_chain parent) ++ last_chain sect /\
      (forall x, In x (edges p') <->
                 In x (edges parent)
                 \/ x = (nth n (last_chain parent) (pager parent), pager sect)
                 \/ In x (edges sect)).
Proof.
  induction n as [|n IH]; intros [t p cs] sect Hlen.
  - exists (mkSection t p (cs ++ [sect])). simpl descend_append.
    repeat split; try reflexivity.
    + apply heads_snoc.
    + rewrite last_chain_snoc. reflexivity.
    + apply edges_snoc.
    + apply edges_snoc.
  - simpl descend_append.
    destruct (split_last cs) as [[init child]|] eqn:E.
    + apply split_last_Some in E. subst cs.
      rewrite last_chain_snoc in Hlen. simpl in Hlen.
      destruct (IH child sect) as (c' & Hrun & Htitle & Hpager & Hheads & Hchain & Hedges);
        [lia|].
      rewrite Hrun. cbn [bind with_children].
      exists (mkSection t p (init ++ [c'])).
      split; [reflexivity|]. split; [reflexivity|]. split; [reflexivity|].
      split; [|split].
      * rewrite !heads_snoc, Hheads, app_assoc. reflexivity.
      * rewrite !last_chain_snoc, Hchain. reflexivity.
      * intros x. rewrite !edges_snoc, Hedges, Hpager.
        rewrite last_chain_snoc.
        change (nth (S n) (p :: last_chain child) (pager (mkSection t p (init ++ [child]))))
          with (nth n (last_chain child) p).
        rewrite (nth_indep (last_chain child) p (pager child)) by lia.
        tauto.
    + apply split_last_None in E. subst cs. simpl in Hlen. lia.
Qed.

Lemma last_depth_chain (s : Section) :
  S (last_depth s) = List.length (last_chain s).
Proof.
  unfold last_depth. destruct s as [t p cs]. simpl. lia.
Qed.

Lemma attach_raise (root_item : Section) (lvl : Z) (sect : Section) :
  (S (last_depth root_item) < entry_depth lvl)%nat ->
  attach root_item lvl sect = Raise IndexError.
Proof.
  intros H. rewrite entry_depth_attach.
  apply descend_append_raise. rewrite <- last_depth_chain. lia.
Qed.

Lemma attach_ok (root_item : Section) (lvl : Z) (sect : Section) :
  (entry_depth lvl <= S (last_depth root_item))%nat ->
  exists r',
    attach root_item lvl sect = Ok r' /\
    pager r' = pager root_item /\
    heads r' = heads root_item ++ heads sect /\
    last_chain r' =
      firstn (entry_depth lvl) (last_chain root_item) ++ last_chain sect /\
    (forall x, In x (edges r') <->
               In x (edges root_item)
               \/ x = (nth (Nat.pred (entry_depth lvl)) (last_chain root_item)
                          (pager root_item), pager sect)
               \/ In x (edges sect)).
Proof.
  intros H. rewrite entry_depth_attach.
  pose proof (entry_depth_pos lvl) as Hpos.
  destruct (descend_append_ok (Nat.pred (entry_depth lvl)) root_item sect)
    as (r' & Hrun & _ & Hpager & Hheads & Hchain & Hedges).
  { rewrite <- last_depth_chain. lia. }
  exists r'. replace (S (Nat.pred (entry_depth lvl))) with (entry_depth lvl)
    in Hchain by lia.
  auto.
Qed.

Lemma attach_depth (root_item r' : Section) (lvl : Z) (t : string) (p : Pager) :
  attach root_item lvl (mkSection t p []) = Ok r' ->
  last_depth r' = entry_depth lvl.
Proof.
  intros Hrun.
  destruct (Nat.le_gt_cases (entry_depth lvl) (S (last_depth root_item)))
    as [Hle|Hgt].
  - destruct (attach_ok root_item lvl (mkSection t p []) Hle)
      as (r & Hr & _ & _ & Hchain & _).
    rewrite Hr in Hrun. inversion Hrun; subst r'.
    pose proof (last_depth_chain r) as Hd. rewrite Hchain in Hd.
    rewrite length_app, length_firstn, <- last_depth_chain in Hd.
    simpl in Hd. lia.
  - rewrite attach_raise in Hrun by lia. discriminate.
Qed.

(** ** The loop: when it completes and what it builds *)

Section Loop.

Variable toc_info : list Entry.
Variable max_page : Z.

Lemma toc_loop_raise (rest : list Entry) :
  forall index root_item,
    nesting_ok (last_depth root_item) rest = false ->
    toc_loop toc_info max_page index rest root_item = Raise IndexError.
Proof.
  induction rest as [|e rest IH]; intros index root_item H; simpl in H.
  - discriminate.
  - simpl.
    destruct (Nat.leb_spec (entry_depth (level e)) (S (last_depth root_item)))
      as [Hle|Hgt].
    + destruct (attach_ok root_item (level e)
                  (make_section toc_info max_page index e) Hle)
        as (r' & Hrun & _).
      rewrite Hrun. simpl. apply IH.
      rewrite (attach_depth _ _ _ _ _ Hrun). exact H.
    + rewrite attach_raise by lia. reflexivity.
Qed.

Lemma toc_loop_ok (rest : list Entry) :
  forall index root_item,
    nesting_ok (last_depth root_item) rest = true ->
    exists t,
      toc_loop toc_info max_page index rest root_item = Ok t /\
      pager t = pager root_item /\
      heads t =
        heads root_item ++
        map (fun ie => head_of toc_info max_page (fst ie) (snd ie))
            (combine (seq index (List.length rest)) rest).
Proof.
  induction rest as [|e rest IH]; intros index root_item H; simpl in H.
  - exists root_item. simpl. rewrite app_nil_r. auto.
  - apply andb_prop in H. destruct H as [Hle Hrest].
    apply Nat.leb_le in Hle.
    destruct (attach_ok root_item (level e)
                (make_section toc_info max_page index e) Hle)
      as (r' & Hrun & Hpager & Hheads & _).
    simpl. rewrite Hrun. simpl.
    rewrite <- (attach_depth _ _ _ _ _ Hrun) in Hrest.
    destruct (IH (S index) r' Hrest) as (t & Ht & Htp & Hth).
    exists t. split; [exact Ht|]. split; [congruence|].
    rewrite Hth, Hheads. unfold head_of at 2.
    simpl. rewrite <- app_assoc. reflexivity.
Qed.

End Loop.

(** ** Positions in the outline *)

Lemma find_first {A : Type} (f : A -> bool) (l : list A) :
  forall j x,
    nth_error l j = Some x -> f x = true ->
    (forall k y, (k < j)%nat -> nth_error l k = Some y -> f y = false) ->
    find f l = Some x.
Proof.
  induction l as [|a l IH]; intros [|j] x Hj Hx Hbefore; simpl in *;
    try discriminate.
  - inversion Hj; subst. rewrite Hx. reflexivity.
  - rewrite (Hbefore O a) by (simpl; auto; lia).
    apply (IH j x Hj Hx).
    intros k y Hk Hy. apply (Hbefore (S k) y); [lia | exact Hy].
Qed.

Lemma find_none {A : Type} (f : A -> bool) (l : list A) :
  (forall k y, nth_error l k = Some y -> f y = false) -> find f l = None.
Proof.
  induction l as [|a l IH]; intros H; simpl.
  - reflexivity.
  - rewrite (H O a eq_refl). apply IH.
    intros k y Hy. apply (H (S k) y Hy).
Qed.

Lemma nth_error_enumerate {A : Type} (l : list A) :
  forall a i x,
    nth_error l i = Some x ->
    nth_error (combine (seq a (List.length l)) l) i = Some ((a + i)%nat, x).
Proof.
  induction l as [|y l IH]; intros a [|i] x H; simpl in *; try discriminate.
  - inversion H. rewrite Nat.add_0_r. reflexivity.
  - rewrite (IH (S a) i x H). f_equal. f_equal. lia.
Qed.

Lemma make_section_suffix (done rest : list Entry) (max_page : Z) (e : Entry) :
  make_section (done ++ e :: rest) max_page (List.length done) e =
  mkSection (title e)
            (mkPager (start_page e - 1)
                     (last_page_after max_page (level e) rest)
                     (start_page e - 1))
            [].
Proof.
  unfold make_section, last_page_after.
  rewrite find_next_item_spec. unfold next_same_level.
  replace (S (List.length done)) with (List.length (done ++ [e]))
    by (rewrite length_app; simpl; lia).
  replace (done ++ e :: rest) with ((done ++ [e]) ++ rest)
    by (rewrite <- app_assoc; reflexivity).
  rewrite skipn_app, skipn_all, Nat.sub_diag. reflexivity.
Qed.

Lemma toc_tree_heads (doc_title : string) (num_pages : Z)
    (toc_info : list Entry) (t : Section) :
  toc_tree doc_title num_pages toc_info = Ok t ->
  pager t = mkPager 0 (num_pages - 1) 0 /\
  heads t =
    (doc_title, mkPager 0 (num_pages - 1) 0) :: section_heads toc_info num_pages.
Proof.
  unfold toc_tree. intros Hrun.
  set (root_item := mkSection doc_title (mkPager 0 (num_pages - 1) 0) []) in *.
  destruct (nesting_ok (last_depth root_item) toc_info) eqn:Hn.
  - destruct (toc_loop_ok toc_info (num_pages - 1) toc_info 0 root_item Hn)
      as (t' & Ht' & Hp & Hh).
    rewrite Ht' in Hrun. inversion Hrun; subst t'.
    split; [exact Hp|]. rewrite Hh. reflexivity.
  - rewrite (toc_loop_raise toc_info (num_pages - 1) toc_info 0 root_item Hn)
      in Hrun.
    discriminate.
Qed.

(** ** C1: when the builder completes *)

(** C1, as stated, fails: a first entry of level 2 makes
    [root_item.children[-1]] raise [IndexError], which nothing catches. *)
Lemma toc_tree_first_entry_level_2_raises :
  toc_tree "Book" 50 [mkEntry 2 "X" 1] = Raise IndexError.
Proof. reflexivity. Qed.

(** A skipped level raises as well: the level-3 entry walks into the
    children of a section that has none. *)
Lemma toc_tree_skipped_level_raises :
  toc_tree "Book" 50 [mkEntry 1 "A" 1; mkEntry 3 "A.1.1" 2] = Raise IndexError.
Proof. reflexivity. Qed.

(** C1 (amended): [toc_tree] completes exactly on the outlines in which
    every entry sits at most one step deeper than the entry before it, the
    first one at depth 1 (the depth of an entry is its level, and 2 for a
    level below 1).  On such an outline it returns a tree whose sections
    are, parents first and in outline order, the root followed by the
    section built for each entry; on every other outline it raises
    [IndexError]. *)
Theorem toc_tree_completes_iff_nested (doc_title : string) (num_pages : Z)
    (toc_info : list Entry) :
  (nesting_ok 0 toc_info = true ->
   exists t,
     toc_tree doc_title num_pages toc_info = Ok t /\
     heads t =
       (doc_title, mkPager 0 (num_pages - 1) 0)
         :: section_heads toc_info num_pages) /\
  (nesting_ok 0 toc_info = false ->
   toc_tree doc_title num_pages toc_info = Raise IndexError).
Proof.
  unfold toc_tree.
  set (root_item := mkSection doc_title (mkPager 0 (num_pages - 1) 0) []).
  split; intros Hn.
  - destruct (toc_loop_ok toc_info (num_pages - 1) toc_info 0 root_item Hn)
      as (t & Ht & _ & Hh).
    exists t. split; [exact Ht|]. rewrite Hh. reflexivity.
  - apply (toc_loop_raise toc_info (num_pages - 1) toc_info 0 root_item Hn).
Qed.

Lemma toc_tree_completes_iff_nested_witness :
  nesting_ok 0 scenario_outline = true /\
  exists t,
    toc_tree "Book" 50 scenario_outline = Ok t /\
    heads t =
      ("Book", mkPager 0 (50 - 1) 0) :: section_heads scenario_outline 50.
Proof.
  split; [reflexivity|].
  apply (proj1 (toc_tree_completes_iff_nested "Book" 50 scenario_outline)).
  reflexivity.
Defined.

(** Outlines in depth-first order with levels from 1 are among them. *)
Lemma well_nested_nesting_ok (toc_info : list Entry) :
  forall prev : nat,
    well_nested (Z.of_nat prev) toc_info = true ->
    nesting_ok prev toc_info = true.
Proof.
  induction toc_info as [|e rest IH]; intros prev H; simpl in *.
  - reflexivity.
  - apply andb_prop in H. destruct H as [H Hrest].
    apply andb_prop in H. destruct H as [Hpos Hstep].
    apply Z.leb_le in Hpos. apply Z.leb_le in Hstep.
    pose proof (entry_depth_level (level e) Hpos) as Hd.
    apply andb_true_intro. split.
    + apply Nat.leb_le. lia.
    + apply IH. rewrite Hd. exact Hrest.
Qed.

(** ** C2 and C4: the two worked outlines *)

(** C2, as stated, fails: "Ch1.1" is the only level-2 entry, so its last
    page is the last page of the document, 49, and not 10. *)
Lemma scenario_as_specified_fails : ~ spec_scenario_outcome "Book".
Proof.
  intros (root & ch1 & ch11 & ch2 & Hrun & _ & Hch1 & Hkids & _ & _ & Hr & _).
  vm_compute in Hrun. inversion Hrun; subst root.
  vm_compute in Hch1. inversion Hch1; subst ch1.
  simpl in Hkids. inversion Hkids; subst ch11.
  vm_compute in Hr. discriminate.
Qed.

(** C2 (amended): over 50 pages the outline yields a root with exactly
    three children; "Ch1" has the single child "Ch1.1"; the page ranges are
    "Intro" [0,1], "Ch1" [2,10], "Ch1.1" [4,49] and "Ch2" [11,49]. *)
Theorem scenario_tree (doc_title : string) :
  toc_tree doc_title 50 scenario_outline =
  Ok (mkSection doc_title (mkPager 0 49 0)
        [ mkSection "Intro" (mkPager 0 1 0) [];
          mkSection "Ch1" (mkPager 2 10 2)
            [ mkSection "Ch1.1" (mkPager 4 49 4) [] ];
          mkSection "Ch2" (mkPager 11 49 11) [] ]).
Proof. reflexivity. Qed.

(** C4, as stated, fails: the bound is the sibling's start page minus 2,
    which is 8 for "A" and 18 for "B". *)
Lemma siblings_as_specified_fail : ~ spec_siblings_outcome "Book".
Proof.
  intros (root & a & b & c & Hrun & Ha & Hr & _).
  vm_compute in Hrun. inversion Hrun; subst root.
  vm_compute in Ha. inversion Ha; subst a.
  vm_compute in Hr. discriminate.
Qed.

(** C4 (amended): over 30 pages, "A" spans [0,8], "B" spans [9,18] and
    "C" spans [19,29]. *)
Theorem siblings_tree (doc_title : string) :
  toc_tree doc_title 30 siblings_outline =
  Ok (mkSection doc_title (mkPager 0 29 0)
        [ mkSection "A" (mkPager 0 8 0) [];
          mkSection "B" (mkPager 9 18 9) [];
          mkSection "C" (mkPager 19 29 19) [] ]).
Proof. reflexivity. Qed.

(** ** C5: the last page of an entry *)

Lemma next_same_level_found (toc_info : list Entry) (i j : nat) (lvl : Z)
    (ej : Entry) :
  (i < j)%nat ->
  nth_error toc_info j = Some ej ->
  level ej = lvl ->
  (forall k ek, (i < k < j)%nat -> nth_error toc_info k = Some ek ->
                level ek <> lvl) ->
  next_same_level toc_info i lvl = Some ej.
Proof.
  intros Hij Hj Hlvl Hbetween. unfold next_same_level.
  apply (find_first _ _ (j - S i)%nat).
  - rewrite nth_error_skipn. replace (S i + (j - S i))%nat with j by lia.
    exact Hj.
  - apply Z.eqb_eq. exact Hlvl.
  - intros k y Hk Hy. rewrite nth_error_skipn in Hy.
    apply Z.eqb_neq. apply (Hbetween (S i + k)%nat y); [lia | exact Hy].
Qed.

Lemma next_same_level_absent (toc_info : list Entry) (i : nat) (lvl : Z) :
  (forall k ek, (i < k)%nat -> nth_error toc_info k = Some ek ->
                level ek <> lvl) ->
  next_same_level toc_info i lvl = None.
Proof.
  intros Hafter. unfold next_same_level. apply find_none.
  intros k y Hy. rewrite nth_error_skipn in Hy.
  apply Z.eqb_neq. apply (Hafter (S i + k)%nat y); [lia | exact Hy].
Qed.



(** The scan also passes over shallower entries: the bound of "A.1" is
    taken from "B.1", a section of another chapter. *)
Lemma last_page_passes_over_shallower_entries :
  toc_tree "Book" 20
    [ mkEntry 1 "A" 1; mkEntry 2 "A.1" 2; mkEntry 1 "B" 5; mkEntry 2 "B.1" 6 ]
  = Ok (mkSection "Book" (mkPager 0 19 0)
          [ mkSection "A" (mkPager 0 3 0) [ mkSection "A.1" (mkPager 1 4 1) [] ];
            mkSection "B" (mkPager 4 19 4)
              [ mkSection "B.1" (mkPager 5 19 5) [] ] ]).
Proof. reflexivity. Qed.

(** ** C3: page ranges of the sections *)

Section Ranges.

Variable max_page : Z.

Lemma new_pager_ordered (e : Entry) (rest : list Entry) :
  start_page e <= max_page + 1 ->
  forallb (starts_after e) rest = true ->
  start_page e - 1 <= last_page_after max_page (level e) rest.
Proof.
  intros Hdoc Hafter. unfold last_page_after, last_page_of.
  destruct (find (fun x => level x =? level e) rest) as [it|] eqn:E.
  - apply find_some in E. destruct E as [Hin Hlvl].
    apply Z.eqb_eq in Hlvl.
    rewrite forallb_forall in Hafter. specialize (Hafter it Hin).
    unfold starts_after in Hafter. apply andb_prop in Hafter.
    destruct Hafter as [_ H].
    destruct (level it <=? level e) eqn:El.
    + apply Z.ltb_lt in H. lia.
    + apply Z.leb_gt in El. lia.
  - lia.
Qed.

Lemma new_pager_bounded (e : Entry) (rest : list Entry) (p : Pager) :
  1 <= level e ->
  last p = last_page_after max_page (level e) rest ->
  chain_bounded max_page rest (entry_depth (level e)) p.
Proof.
  intros Hpos Hlast. unfold chain_bounded.
  unfold last_page_after, last_page_of in Hlast.
  destruct (find (fun x => level x =? level e) rest) as [it|] eqn:E.
  - right. apply find_some in E. destruct E as [Hin Hlvl].
    apply Z.eqb_eq in Hlvl.
    exists it. rewrite entry_depth_level by exact Hpos. auto.
  - left. exact Hlast.
Qed.

Lemma attach_preserves_inv (e : Entry) (rest : list Entry)
    (root_item r' : Section) :
  tree_inv max_page (e :: rest) root_item ->
  1 <= level e ->
  start_page e <= max_page + 1 ->
  forallb (starts_after e) rest = true ->
  attach root_item (level e)
    (mkSection (title e)
       (mkPager (start_page e - 1)
                (last_page_after max_page (level e) rest)
                (start_page e - 1)) []) = Ok r' ->
  tree_inv max_page rest r'.
Proof.
  intros Hinv Hpos Hdoc Hafter Hrun.
  set (pgn := mkPager (start_page e - 1)
                      (last_page_after max_page (level e) rest)
                      (start_page e - 1)) in *.
  set (k := entry_depth (level e)) in *.
  assert (Hk : Z.of_nat k = level e) by (apply entry_depth_level; exact Hpos).
  assert (Hle : (k <= S (last_depth root_item))%nat).
  { destruct (Nat.le_gt_cases k (S (last_depth root_item))) as [H|H];
      [exact H|].
    rewrite attach_raise in Hrun by exact H. discriminate. }
  destruct (attach_ok root_item (level e) (mkSection (title e) pgn []) Hle)
    as (r & Hr & _ & Hheads & Hchain & Hedges).
  rewrite Hr in Hrun. inversion Hrun; subst r'. clear Hrun Hr.
  fold k in Hchain, Hedges. simpl in Hchain, Hheads.
  rewrite last_depth_chain in Hle.
  assert (Hfirstn : List.length (firstn k (last_chain root_item)) = k)
    by (rewrite length_firstn; lia).
  assert (Hnew : first pgn <= last pgn)
    by (apply new_pager_ordered; assumption).
  assert (Hstart : forall e', In e' rest -> start_page e <= start_page e').
  { intros e' Hin. rewrite forallb_forall in Hafter.
    specialize (Hafter e' Hin). unfold starts_after in Hafter.
    apply andb_prop in Hafter. destruct Hafter as [H _].
    apply Z.leb_le in H. exact H. }
  assert (Hold : forall d p, (d < k)%nat ->
            nth_error (firstn k (last_chain root_item) ++ [pgn]) d = Some p ->
            nth_error (last_chain root_item) d = Some p).
  { intros d p Hd Hnth.
    rewrite nth_error_app1, nth_error_firstn in Hnth by lia.
    apply Nat.ltb_lt in Hd. rewrite Hd in Hnth. exact Hnth. }
  assert (Hlast : forall p, nth_error (firstn k (last_chain root_item) ++ [pgn]) k
                            = Some p -> p = pgn).
  { intros p Hnth. rewrite nth_error_app2, Hfirstn, Nat.sub_diag in Hnth by lia.
    simpl in Hnth. congruence. }
  assert (Hrange : forall d p,
            nth_error (firstn k (last_chain root_item) ++ [pgn]) d = Some p ->
            (d <= k)%nat).
  { intros d p Hnth.
    assert (d < List.length (firstn k (last_chain root_item) ++ [pgn]))%nat
      by (apply nth_error_Some; congruence).
    rewrite length_app, Hfirstn in H. simpl in H. lia. }
  constructor.
  - intros p Hin. unfold pagers in Hin. rewrite Hheads, map_app in Hin.
    apply in_app_or in Hin. destruct Hin as [Hin|Hin].
    + apply (inv_ordered _ _ _ Hinv). exact Hin.
    + simpl in Hin. destruct Hin as [Hin|[]]. subst p. split; [reflexivity|exact Hnew].
  - intros d p e' Hnth Hin. rewrite Hchain in Hnth.
    pose proof (Hrange d p Hnth) as Hd.
    destruct (Nat.eq_dec d k) as [->|Hne].
    + rewrite (Hlast p Hnth). simpl. specialize (Hstart e' Hin). lia.
    + apply (inv_before _ _ _ Hinv d p e');
        [apply Hold; [lia|exact Hnth] | right; exact Hin].
  - intros pp cp Hin. apply Hedges in Hin.
    destruct Hin as [Hin|[Hin|[]]].
    + apply (inv_edges _ _ _ Hinv). exact Hin.
    + inversion Hin; subst pp cp. clear Hin. simpl pager.
      pose proof (entry_depth_pos (level e)) as Hk1. fold k in Hk1.
      assert (Hnth : nth_error (last_chain root_item) (Nat.pred k) =
                     Some (nth (Nat.pred k) (last_chain root_item)
                               (pager root_item)))
        by (apply nth_error_nth'; lia).
      set (pp := nth (Nat.pred k) (last_chain root_item) (pager root_item)) in *.
      assert (Hpp : first pp <= start_page e - 1)
        by (apply (inv_before _ _ _ Hinv (Nat.pred k) pp e Hnth); left;
            reflexivity).
      assert (Hcp : start_page e - 1 <= last pp).
      { destruct (inv_chain _ _ _ Hinv (Nat.pred k) pp Hnth)
          as [Hend|(e0 & Hin0 & Hlvl0 & Hlast0)].
        - lia.
        - destruct Hin0 as [Heq|Hin0]; [subst e0; lia|].
          rewrite forallb_forall in Hafter. specialize (Hafter e0 Hin0).
          unfold starts_after in Hafter. apply andb_prop in Hafter.
          destruct Hafter as [_ H].
          destruct (level e0 <=? level e) eqn:El.
          + apply Z.ltb_lt in H. lia.
          + apply Z.leb_gt in El. lia. }
      simpl. simpl in Hnew. lia.
  - intros d p Hnth. rewrite Hchain in Hnth.
    pose proof (Hrange d p Hnth) as Hd.
    destruct (Nat.eq_dec d k) as [->|Hne].
    + rewrite (Hlast p Hnth). apply new_pager_bounded; [exact Hpos|reflexivity].
    + destruct (inv_chain _ _ _ Hinv d p (Hold d p ltac:(lia) Hnth))
        as [Hend|(e0 & Hin0 & Hlvl0 & Hlast0)].
      * left. exact Hend.
      * right. exists e0. destruct Hin0 as [Heq|Hin0]; [subst e0; lia|].
        auto.
Qed.

Lemma toc_loop_preserves_inv (toc_info rest : list Entry) :
  forall done root_item t,
    toc_info = done ++ rest ->
    tree_inv max_page rest root_item ->
    levels_ok rest = true ->
    pages_in_document (max_page + 1) rest = true ->
    pages_ok rest = true ->
    toc_loop toc_info max_page (List.length done) rest root_item = Ok t ->
    tree_inv max_page [] t.
Proof.
  induction rest as [|e rest IH];
    intros done root_item t Htoc Hinv Hlv Hdoc Hpg Hrun; simpl in *.
  - inversion Hrun; subst. exact Hinv.
  - apply andb_prop in Hlv. destruct Hlv as [Hlv Hlvs].
    apply andb_prop in Hdoc. destruct Hdoc as [Hd Hdocs].
    apply andb_prop in Hpg. destruct Hpg as [Hafter Hpgs].
    apply andb_prop in Hd. destruct Hd as [_ Hd].
    apply Z.leb_le in Hlv. apply Z.leb_le in Hd.
    rewrite Htoc, make_section_suffix in Hrun. rewrite <- Htoc in Hrun.
    destruct (attach root_item (level e) _) as [r'|] eqn:Hatt;
      [|discriminate].
    simpl in Hrun.
    apply (IH (done ++ [e]) r' t).
    + rewrite <- app_assoc. exact Htoc.
    + apply (attach_preserves_inv e rest root_item r' Hinv Hlv Hd Hafter Hatt).
    + exact Hlvs.
    + exact Hdocs.
    + exact Hpgs.
    + rewrite length_app. simpl. rewrite Nat.add_1_r. exact Hrun.
Qed.

End Ranges.


(** Two entries of one level that start on the same page give the first of
    them a last page before its first page. *)
Lemma same_page_siblings_are_unordered :
  toc_tree "Book" 10 [mkEntry 1 "A" 1; mkEntry 1 "B" 1] =
  Ok (mkSection "Book" (mkPager 0 9 0)
        [ mkSection "A" (mkPager 0 (-1) 0) [];
          mkSection "B" (mkPager 0 9 0) [] ]).
Proof. reflexivity. Qed.



(** ** C9 and C7: what a call leaves alone *)

Section ViewerFacts.

Variable Reader : Type.
Variable ready : Reader -> bool.
Variable get_semantic_element :
  Reader -> SemanticElementType -> bool -> Z -> option Pos.
Variable options : SemanticElementType -> string * bool * bool.
Variable lines : Z -> Z * Z.
Variable range_text : Z -> Z -> string.
Variable set_active_section : Section -> Shell Reader -> Shell Reader.
Variable go_to_first_of_section : Shell Reader -> Shell Reader.

(** C9: when [get_semantic_element] returns [None] the call returns after
    one announcement, "No next ..." or "No previous ..." with the label of
    the requested type; the stored navigation position, the insertion
    point and the reader are the ones it started with. *)
Theorem navigate_nothing_found (fuel : nat) (element_type : SemanticElementType)
    (forward : bool) (v : View Reader) :
  ready (reader _ (shell _ v)) = true ->
  get_semantic_element (reader _ (shell _ v)) element_type forward
    (get_insertion_point _ v) = None ->
  exists v',
    navigate_to_structural_element Reader ready get_semantic_element options
      lines range_text (S fuel) element_type forward v = Some v' /\
    latest_structured_navigation_position _ v' =
      latest_structured_navigation_position _ v /\
    get_insertion_point _ v' = get_insertion_point _ v /\
    reader _ (shell _ v') = reader _ (shell _ v) /\
    events _ (shell _ v') =
      events _ (shell _ v)
        ++ [Announce (no_more_message forward
                        (fst (fst (options element_type)))) true].
Proof.
  intros Hready Hnone. simpl. rewrite Hready, Hnone. simpl.
  destruct (options element_type) as [[element_label whole] to_line].
  eexists. split; [reflexivity|]. simpl. auto.
Qed.

(** A call on a reader that is not ready rings the bell and changes
    nothing else. *)
Lemma navigate_not_ready (fuel : nat) (element_type : SemanticElementType)
    (forward : bool) (v : View Reader) :
  ready (reader _ (shell _ v)) = false ->
  navigate_to_structural_element Reader ready get_semantic_element options
    lines range_text (S fuel) element_type forward v = Some (emit _ [Bell] v).
Proof.
  intros Hready. simpl. rewrite Hready. reflexivity.
Qed.

(** C7 (amended): the stored navigation position is [None] when the
    window is created; a click on the table of contents and an explicit
    seek leave it as it is, whatever the reader does to the page. *)
Theorem memento_survives_other_moves (sh : Shell Reader) (v : View Reader)
    (selected : Section) (start_pos : Z) (end_pos : option Z) :
  latest_structured_navigation_position _ (initial_view _ sh) = None /\
  latest_structured_navigation_position _
    (onTOCItemClick _ set_active_section go_to_first_of_section selected v) =
    latest_structured_navigation_position _ v /\
  latest_structured_navigation_position _
    (go_to_position _ lines range_text start_pos end_pos v) =
    latest_structured_navigation_position _ v.
Proof.
  split; [reflexivity|]. split; [reflexivity|].
  unfold go_to_position.
  destruct end_pos as [e|]; [|destruct (lines start_pos)]; reflexivity.
Qed.

End ViewerFacts.

Lemma navigate_nothing_found_witness :
  exists v',
    press exact_options one_line no_text link true (view_at two_headings 0)
      = Some v' /\
    latest_structured_navigation_position _ v' = None /\
    get_insertion_point _ v' = 0 /\
    events _ (shell _ v') = [Announce "No next Link" true].
Proof.
  destruct (navigate_nothing_found PageReader is_loaded
              page_get_semantic_element exact_options one_line no_text 1
              link true (view_at two_headings 0) eq_refl eq_refl)
    as (v' & Hrun & Hlatest & Hpoint & _ & Hevents).
  exists v'. repeat split; assumption.
Defined.

(** C7, as stated, fails: after a navigation to the heading at [5, 10) a
    click on the table of contents that shows another page leaves the
    stored position in place. *)
Lemma toc_click_keeps_memento :
  exists v,
    press exact_options one_line no_text heading true (view_at two_headings 2)
      = Some v /\
    latest_structured_navigation_position _
      (onTOCItemClick PageReader (fun _ sh => sh)
         (fun sh => mkShell _ (mkPageReader true []) 0 (events _ sh)
                            (speak_page_number _ sh)
                            (speak_section_title _ sh)
                            (content_focused _ sh))
         (mkSection "Ch2" (mkPager 11 49 11) []) v)
    = Some (2, ((5, 10), heading_1)).
Proof.
  eexists. split; reflexivity.
Qed.

(** ** C6: forward navigation over a page *)

Lemma element_type_eqb_refl (k : SemanticElementType) :
  element_type_eqb k k = true.
Proof. destruct k; reflexivity. Qed.

Lemma memento_eqb_from (latest : option (Z * Pos)) (a b : Z) (x y : Pos) :
  memento_eqb latest (a, x) = true ->
  memento_eqb latest (b, y) = true ->
  a = b.
Proof.
  destruct latest as [[m mp]|]; simpl; [|discriminate].
  unfold pos_info_eqb. simpl. intros Ha Hb.
  apply andb_prop in Ha. destruct Ha as [Ha _].
  apply andb_prop in Hb. destruct Hb as [Hb _].
  apply Z.eqb_eq in Ha. apply Z.eqb_eq in Hb. congruence.
Qed.

Lemma locate_found (elements : list SemanticElement)
    (requested : SemanticElementType) (forward : bool) (from_position : Z)
    (pos : Pos) :
  locate elements requested forward from_position = Some pos ->
  exists el,
    In el elements /\
    qualifies requested forward from_position el = true /\
    pos = pos_of el.
Proof.
  unfold locate. intros H.
  destruct (find _ _) as [el|] eqn:E; [|discriminate].
  apply find_some in E. destruct E as [Hin Hq].
  inversion H. exists el. split; [|auto].
  destruct forward; [exact Hin | apply in_rev; exact Hin].
Qed.

Lemma found_range_leaves_position (elements : list SemanticElement)
    (requested : SemanticElementType) (forward : bool) (from_position : Z)
    (el : SemanticElement) :
  ranges_ok elements = true ->
  In el elements ->
  qualifies requested forward from_position el = true ->
  if forward then from_position < stop el else stop el < from_position.
Proof.
  intros Hok Hin Hq. unfold ranges_ok in Hok.
  rewrite forallb_forall in Hok. specialize (Hok el Hin).
  apply Z.leb_le in Hok.
  unfold qualifies in Hq. apply andb_prop in Hq. destruct Hq as [_ Hq].
  destruct forward; apply Z.ltb_lt in Hq; lia.
Qed.

Lemma filter_length_lt {A : Type} (f g : A -> bool) (l : list A) (a : A) :
  (forall x, g x = true -> f x = true) ->
  In a l -> f a = true -> g a = false ->
  (List.length (filter g l) < List.length (filter f l))%nat.
Proof.
  intros Hsub. induction l as [|x l IH]; intros Hin Hfa Hga.
  - destruct Hin.
  - assert (Hle : (List.length (filter g l) <= List.length (filter f l))%nat).
    { clear - Hsub. induction l as [|y l IHl]; simpl; [lia|].
      destruct (g y) eqn:Eg.
      - rewrite (Hsub y Eg). simpl. lia.
      - destruct (f y); simpl; lia. }
    simpl. destruct Hin as [->|Hin].
    + rewrite Hfa, Hga. simpl. lia.
    + specialize (IH Hin Hfa Hga).
      destruct (g x) eqn:Eg.
      * rewrite (Hsub x Eg). simpl. lia.
      * destruct (f x); simpl; lia.
Qed.

Lemma remaining_decreases (elements : list SemanticElement)
    (requested : SemanticElementType) (from_position : Z)
    (el : SemanticElement) :
  In el elements ->
  qualifies requested true from_position el = true ->
  (remaining elements requested (start el)
   < remaining elements requested from_position)%nat.
Proof.
  intros Hin Hq. unfold remaining.
  apply (filter_length_lt _ _ _ el); [|exact Hin|exact Hq|].
  - intros x Hx. unfold qualifies in *.
    apply andb_prop in Hx. destruct Hx as [Hk Hx].
    apply andb_prop in Hq. destruct Hq as [_ Hq].
    apply Z.ltb_lt in Hx. apply Z.ltb_lt in Hq.
    rewrite Hk. simpl. apply Z.ltb_lt. lia.
  - unfold qualifies. rewrite Z.ltb_irrefl. apply andb_false_r.
Qed.

Section PressFacts.

Variable options : SemanticElementType -> string * bool * bool.
Variable lines : Z -> Z * Z.
Variable range_text : Z -> Z -> string.

(** The branch that announces a match, run on the element found. *)
Lemma announce_branch (v : View PageReader) (from_position : Z)
    (el : SemanticElement) :
  exists v',
    (let '((start, stop), actual_element_type) := pos_of el in
     let v := remember _ (from_position, pos_of el) v in
     let '(element_label, should_speak_whole_text, move_to_start_of_line) :=
       options actual_element_type in
     let '(text_start, text_stop) :=
       if should_speak_whole_text then lines (start + 1) else (start, stop) in
     let text := range_text text_start text_stop in
     let msg := found_message text element_label in
     let target_position :=
       if negb move_to_start_of_line then start
       else fst (lines (stop - 1)) in
     let v := set_insertion_point _ target_position v in
     Some (emit _ [ Announce msg true; Play structured_navigation;
                    ReadingPositionChange start element_label ] v))
    = Some v' /\
    reader _ (shell _ v') = reader _ (shell _ v) /\
    get_insertion_point _ v' = landing options lines el /\
    events _ (shell _ v') =
      events _ (shell _ v)
        ++ [ Announce (found_message
                         (let '(text_start, text_stop) :=
                            if snd (fst (options (kind el)))
                            then lines (start el + 1)
                            else (start el, stop el) in
                          range_text text_start text_stop)
                         (fst (fst (options (kind el))))) true;
             Play structured_navigation;
             ReadingPositionChange (start el) (fst (fst (options (kind el)))) ].
Proof.
  unfold landing. simpl.
  destruct (options (kind el)) as [[element_label whole] to_line]. simpl.
  destruct whole; [destruct (lines (start el + 1))|];
    eexists; (split; [reflexivity|]); simpl; auto.
Qed.

Lemma press_cases (element_type : SemanticElementType) (forward : bool)
    (v : View PageReader) :
  is_loaded (reader _ (shell _ v)) = true ->
  ranges_ok (page_elements (reader _ (shell _ v))) = true ->
  exists v',
    press options lines range_text element_type forward v = Some v' /\
    reader _ (shell _ v') = reader _ (shell _ v) /\
    (events _ (shell _ v') =
       events _ (shell _ v)
         ++ [Announce (no_more_message forward
                         (fst (fst (options element_type)))) true]
     \/
     exists el msg,
       In el (page_elements (reader _ (shell _ v))) /\
       kind_matches element_type (kind el) = true /\
       (if forward then get_insertion_point _ v < start el
        else stop el < get_insertion_point _ v) /\
       get_insertion_point _ v' = landing options lines el /\
       events _ (shell _ v') =
         events _ (shell _ v)
           ++ [ Announce msg true; Play structured_navigation;
                ReadingPositionChange (start el)
                  (fst (fst (options (kind el)))) ]).
Proof.
  intros Hready Hok.
  destruct v as [[r ip evs spn sst foc] lat]. simpl in Hready, Hok.
  unfold press. cbn [navigate_to_structural_element].
  cbn [shell reader get_insertion_point insertion_point
       latest_structured_navigation_position].
  rewrite Hready. cbn [negb].
  unfold page_get_semantic_element at 1.
  destruct (locate (page_elements r) element_type forward ip) as [pos|] eqn:E1.
  - apply locate_found in E1. destruct E1 as (el & Hin & Hq & ->).
    pose proof (found_range_leaves_position _ _ _ _ _ Hok Hin Hq) as Hleave.
    assert (Hside : kind_matches element_type (kind el) = true /\
                    (if forward then ip < start el else stop el < ip)).
    { unfold qualifies in Hq. apply andb_prop in Hq. destruct Hq as [Hk Hq].
      split; [exact Hk|]. destruct forward; apply Z.ltb_lt in Hq; exact Hq. }
    destruct Hside as [Hkind Hside].
    destruct (memento_eqb lat (ip, pos_of el)) eqn:Em.
    + change (let '(start, stop, actual_element_type) := pos_of el in _)
        with (navigate_to_structural_element PageReader is_loaded
                page_get_semantic_element options lines range_text 1
                element_type forward
                (set_insertion_point _ (stop el)
                   (mkView _ (mkShell _ r ip evs spn sst foc) lat))).
      cbn [navigate_to_structural_element set_insertion_point with_shell
           shell reader get_insertion_point insertion_point events
           speak_page_number speak_section_title
           latest_structured_navigation_position].
      rewrite Hready. cbn [negb].
      unfold page_get_semantic_element at 1.
      destruct (locate (page_elements r) element_type forward (stop el))
        as [pos2|] eqn:E2.
      * apply locate_found in E2. destruct E2 as (el2 & Hin2 & Hq2 & ->).
        assert (Em2 : memento_eqb lat (stop el, pos_of el2) = false).
        { destruct (memento_eqb lat (stop el, pos_of el2)) eqn:E;
            [|reflexivity].
          pose proof (memento_eqb_from _ _ _ _ _ Em E) as Heq.
          destruct forward; lia. }
        rewrite Em2.
        destruct (announce_branch
                    (mkView _ (mkShell _ r (stop el) evs spn sst true) lat)
                    (stop el) el2)
          as (v' & Hrun & Hreader & Hpoint & Hevents).
        exists v'. split; [exact Hrun|]. split; [exact Hreader|].
        right. eexists el2, _. split; [exact Hin2|].
        unfold qualifies in Hq2. apply andb_prop in Hq2.
        destruct Hq2 as [Hk2 Hq2].
        split; [exact Hk2|]. split.
        { destruct forward; apply Z.ltb_lt in Hq2; simpl; lia. }
        split; [exact Hpoint|exact Hevents].
      * destruct (options element_type) as [[element_label whole] to_line].
        eexists. split; [reflexivity|]. split; [reflexivity|].
        left. reflexivity.
    + destruct (announce_branch
                  (mkView _ (mkShell _ r ip evs spn sst foc) lat) ip el)
        as (v' & Hrun & Hreader & Hpoint & Hevents).
      exists v'. split; [exact Hrun|]. split; [exact Hreader|].
      right. eexists el, _. split; [exact Hin|]. split; [exact Hkind|].
      split; [exact Hside|]. split; [exact Hpoint|exact Hevents].
  - destruct (options element_type) as [[element_label whole] to_line].
    eexists. split; [reflexivity|]. split; [reflexivity|].
    left. reflexivity.
Qed.

End PressFacts.

Section Progress.

Variable options : SemanticElementType -> string * bool * bool.
Variable lines : Z -> Z * Z.
Variable range_text : Z -> Z -> string.

Lemma advances_within (element_type : SemanticElementType) (n : nat) :
  forall v : View PageReader,
    is_loaded (reader _ (shell _ v)) = true ->
    ranges_ok (page_elements (reader _ (shell _ v))) = true ->
    lands_on_start options lines (page_elements (reader _ (shell _ v))) = true ->
    (remaining (page_elements (reader _ (shell _ v))) element_type
       (get_insertion_point _ v) <= n)%nat ->
    exists k, (k <= n)%nat /\
              advances options lines range_text element_type v k.
Proof.
  induction n as [|n IH]; intros v Hready Hok Hland Hrem;
    destruct (press_cases options lines range_text element_type true v
                Hready Hok)
      as (v' & Hrun & Hreader & [Hnone | (el & msg & Hin & Hk & Hafter & Hpoint & Hev)]).
  - exists O. split; [lia|].
    apply (advances_now _ _ _ _ v v' Hrun). eexists. exact Hnone.
  - assert (Hq : qualifies element_type true (get_insertion_point _ v) el = true).
    { unfold qualifies. rewrite Hk. simpl. apply Z.ltb_lt. exact Hafter. }
    pose proof (remaining_decreases _ _ _ _ Hin Hq). lia.
  - exists O. split; [lia|].
    apply (advances_now _ _ _ _ v v' Hrun). eexists. exact Hnone.
  - assert (Hq : qualifies element_type true (get_insertion_point _ v) el = true).
    { unfold qualifies. rewrite Hk. simpl. apply Z.ltb_lt. exact Hafter. }
    assert (Hstart : get_insertion_point _ v' = start el).
    { rewrite Hpoint. unfold lands_on_start in Hland.
      rewrite forallb_forall in Hland. apply Z.eqb_eq. apply Hland. exact Hin. }
    pose proof (remaining_decreases _ _ _ _ Hin Hq) as Hdec.
    destruct (IH v') as (k & Hle & Hadv).
    + rewrite Hreader. exact Hready.
    + rewrite Hreader. exact Hok.
    + rewrite Hreader. exact Hland.
    + rewrite Hreader, Hstart. lia.
    + exists (S k). split; [lia|].
      apply (advances_later _ _ _ _ v v' k Hrun).
      * eexists _, _, _. exact Hev.
      * rewrite Hstart. exact Hafter.
      * exact Hadv.
Qed.


End Progress.


Lemma alternating_press (v : View PageReader) :
  alternating_state v ->
  exists v' position,
    press line_options one_line no_text heading true v = Some v' /\
    alternating_state v' /\
    get_insertion_point _ v' = 0 /\
    events _ (shell _ v') =
      events _ (shell _ v)
        ++ [ Announce ": Heading" true; Play structured_navigation;
             ReadingPositionChange position "Heading" ].
Proof.
  destruct v as [[r ip evs spn sst foc] lat].
  unfold alternating_state, get_insertion_point. simpl.
  intros [-> [[-> ->] | [-> [-> | ->]]]];
    eexists _, _; (split; [vm_compute; reflexivity|]); simpl; auto 7.
Qed.

Lemma alternating_never_ends (k : nat) :
  forall v, alternating_state v ->
            ~ reaches_end line_options one_line no_text heading v k.
Proof.
  induction k as [|k IH]; intros v Hstate Hreach;
    destruct (alternating_press v Hstate)
      as (v1 & position & Hrun & Hstate1 & _ & Hevents);
    inversion Hreach as [v0 v' Hrun' Hnothing | v0 v' k0 Hrun' _ Hrest]; subst;
    rewrite Hrun in Hrun'; inversion Hrun'; subst v'.
  - destruct Hnothing as (element_label & Hnothing).
    rewrite Hevents in Hnothing. apply app_inv_head in Hnothing.
    discriminate.
  - exact (IH v1 Hstate1 Hrest).
Qed.


(** With a single heading the calls do end, but the second one starts from
    the position the first one started from. *)
Lemma one_heading_repeats_from_position :
  exists v1 v2,
    press line_options one_line no_text heading true
      (view_at [mkElement heading_1 5 10] 0) = Some v1 /\
    get_insertion_point _ v1 = 0 /\
    press line_options one_line no_text heading true v1 = Some v2 /\
    get_insertion_point _ v2 = 10 /\
    events _ (shell _ v2) =
      [ Announce ": Heading" true; Play structured_navigation;
        ReadingPositionChange 5 "Heading"; Announce "No next Heading" true ].
Proof.
  eexists _, _. split; [vm_compute; reflexivity|].
  split; [reflexivity|]. split; [vm_compute; reflexivity|].
  split; reflexivity.
Qed.

(** ** C8: empty input *)

(** C8: on an outline without entries [toc_tree] returns the root, spanning
    the document, with no children; on a page without elements every
    request, whatever the kind, the direction and the position, finds
    nothing. *)
Theorem empty_inputs (doc_title : string) (num_pages : Z)
    (requested : SemanticElementType) (forward : bool) (from_position : Z) :
  toc_tree doc_title num_pages [] =
    Ok (mkSection doc_title (mkPager 0 (num_pages - 1) 0) []) /\
  locate [] requested forward from_position = None /\
  page_get_semantic_element (mkPageReader true []) requested forward
    from_position = None.
Proof.
  split; [reflexivity|]. split; destruct forward; reflexivity.
Qed.

(** ** C10: the speech options after an utterance *)

Section EngineFacts.

Variable SpeechOptions : Type.
Variable TtsState : Type.
Variable PiperTask : Type.
Variable Player : Type.
Variable DEFAULT_VOLUME : Z.
Variable get_voice : Piper.Tts SpeechOptions TtsState -> option string.
Variable set_voice :
  string -> Piper.Tts SpeechOptions TtsState -> Piper.Tts SpeechOptions TtsState.
Variable get_pitch get_rate get_volume :
  Piper.Tts SpeechOptions TtsState -> option Z.
Variable set_pitch set_rate set_volume :
  Z -> Piper.Tts SpeechOptions TtsState -> Piper.Tts SpeechOptions TtsState.
Variable create_speech_task :
  Piper.Tts SpeechOptions TtsState -> string -> PiperTask.
Variable create_bookmark_task :
  Piper.Tts SpeechOptions TtsState -> string -> PiperTask.
Variable create_break_task :
  Piper.Tts SpeechOptions TtsState -> Z -> PiperTask.
Variable audio_uri_to_filepath : string -> string.


End EngineFacts.

(** The voice does change inside the call: the text after [start_voice] is
    queued with the new voice, and the options are the old ones again when
    the call is over. *)
Lemma speak_utterance_voice_example :
  let eng := Piper.mkEngine string unit (string * string) unit
               (Piper.mkTts _ _ "amy" tt) [] tt true in
  let eng' := voice_speak_utterance
                [Piper.start_voice "joe"; Piper.text "Hello"; Piper.text "..."]
                eng in
  Piper.bgQueue _ _ _ _ eng' =
    [ Piper.ProcessPiperTask _ _ None tt;
      Piper.ProcessPiperTask _ _ (Some ("joe", "Hello")) tt;
      Piper.DoneSpeaking _ _ tt ] /\
  Piper.speech_options _ _ (Piper.tts _ _ _ _ eng') = "amy".
Proof. split; reflexivity. Qed.


(** ** More on [toc_tree] *)

Lemma entry_eta (e : Entry) :
  mkEntry (level e) (title e) (start_page e) = e.
Proof. destruct e; reflexivity. Qed.

Lemma outline_at_snoc (d : Z) (t : string) (p : Pager) (init : list Section)
    (c : Section) :
  outline_at d (mkSection t p (init ++ [c])) =
  outline_at d (mkSection t p init) ++ outline_at (d + 1) c.
Proof.
  cbn [outline_at]. rewrite flat_map_app. cbn [flat_map].
  rewrite app_nil_r. reflexivity.
Qed.

Lemma descend_append_outline (n : nat) :
  forall d parent sect p',
    descend_append n parent sect = Ok p' ->
    outline_at d p' =
    outline_at d parent ++ outline_at (d + Z.of_nat n + 1) sect.
Proof.
  induction n as [|n IH]; intros d parent sect p' H.
  - cbn [descend_append] in H. injection H as <-.
    destruct parent as [t p cs]. cbn [append].
    rewrite outline_at_snoc. do 2 f_equal. lia.
  - cbn [descend_append] in H.
    destruct (split_last (children parent)) as [[init child]|] eqn:Hs;
      [|discriminate].
    destruct (descend_append n child sect) as [child'|] eqn:Hc;
      cbn [bind] in H; [|discriminate].
    injection H as <-.
    apply split_last_Some in Hs.
    destruct parent as [t p cs]. cbn [children] in Hs. subst cs.
    cbn [with_children]. rewrite !outline_at_snoc.
    rewrite (IH (d + 1) child sect child' Hc).
    rewrite app_assoc. do 2 f_equal. lia.
Qed.

Lemma attach_outline (root_item r' : Section) (lvl : Z) (sect : Section) :
  1 <= lvl ->
  attach root_item lvl sect = Ok r' ->
  outline_at 0 r' = outline_at 0 root_item ++ outline_at lvl sect.
Proof.
  intros Hl H. rewrite entry_depth_attach in H.
  rewrite (descend_append_outline _ 0 _ _ _ H). do 2 f_equal.
  pose proof (entry_depth_level lvl Hl). pose proof (entry_depth_pos lvl). lia.
Qed.

Lemma toc_loop_outline (toc_info : list Entry) (max_page : Z)
    (rest : list Entry) :
  forall index root_item,
    well_nested (Z.of_nat (last_depth root_item)) rest = true ->
    exists t,
      toc_loop toc_info max_page index rest root_item = Ok t /\
      outline_at 0 t = outline_at 0 root_item ++ rest.
Proof.
  induction rest as [|e rest IH]; intros index root_item Hn.
  - exists root_item. cbn [toc_loop]. rewrite app_nil_r. auto.
  - cbn [well_nested] in Hn.
    apply andb_prop in Hn as [Hn Hrest]. apply andb_prop in Hn as [H1 H2].
    apply Z.leb_le in H1, H2.
    pose proof (entry_depth_level (level e) H1) as Hd.
    cbn [toc_loop].
    destruct (attach_ok root_item (level e)
                (make_section toc_info max_page index e)) as (r' & Ha & _).
    { lia. }
    rewrite Ha. cbn [bind].
    assert (Hdepth : last_depth r' = entry_depth (level e)).
    { unfold make_section in Ha. eapply attach_depth. exact Ha. }
    destruct (IH (S index) r') as (t & Ht & Ho).
    { rewrite Hdepth, Hd. exact Hrest. }
    exists t. split; [exact Ht|].
    rewrite Ho, (attach_outline _ _ _ _ H1 Ha).
    unfold make_section. cbn [outline_at flat_map first].
    rewrite <- app_assoc. cbn [app]. do 3 f_equal.
    replace (start_page e - 1 + 1) with (start_page e) by lia.
    apply entry_eta.
Qed.

(** X1.  Round trip: for an outline in depth-first order with levels from
    1, [toc_tree] completes, and reading the tree back, parents before
    children, with the depth of a section as its level and its first page
    plus one as its start page, gives the outline itself. *)
Theorem toc_tree_outline_round_trip (doc_title : string) (num_pages : Z)
    (toc_info : list Entry) :
  well_nested 0 toc_info = true ->
  exists t,
    toc_tree doc_title num_pages toc_info = Ok t /\
    outline_of t = toc_info.
Proof.
  intros Hn. unfold toc_tree.
  destruct (toc_loop_outline toc_info (num_pages - 1) toc_info 0%nat
              (mkSection doc_title (mkPager 0 (num_pages - 1) 0) []))
    as (t & Ht & Ho).
  { exact Hn. }
  exists t. split; [exact Ht|].
  destruct t as [tt tp tcs]. cbn [outline_at flat_map app] in Ho.
  injection Ho as _ _ Ho. unfold outline_of. cbn [children].
  replace (0 + 1) with 1 in Ho by lia. exact Ho.
Qed.

Lemma toc_tree_outline_round_trip_witness :
  well_nested 0 nested_outline = true /\
  exists t,
    toc_tree "Book" 8 nested_outline = Ok t /\
    outline_of t = nested_outline.
Proof.
  split; [reflexivity|].
  apply (toc_tree_outline_round_trip "Book" 8 nested_outline). reflexivity.
Defined.

Lemma descend_append_head (n : nat) (parent sect p' : Section) :
  descend_append n parent sect = Ok p' ->
  sec_title p' = sec_title parent /\ pager p' = pager parent.
Proof.
  destruct parent as [t p cs]. destruct n as [|n]; cbn [descend_append].
  - intros H. injection H as <-. auto.
  - destruct (split_last (children (mkSection t p cs))) as [[init child]|];
      [|discriminate].
    destruct (descend_append n child sect); cbn [bind]; [|discriminate].
    intros H. injection H as <-. auto.
Qed.

Lemma attach_top_heads (root_item r' : Section) (lvl : Z) (sect : Section) :
  attach root_item lvl sect = Ok r' ->
  top_heads r' =
  top_heads root_item ++
  (if lvl =? 1 then [(sec_title sect, pager sect)] else []).
Proof.
  unfold attach, top_heads. destruct root_item as [t p cs].
  destruct (lvl =? 1).
  - intros H. injection H as <-. cbn [append children].
    rewrite map_app. reflexivity.
  - cbn [children].
    destruct (split_last cs) as [[init parent]|] eqn:Hs; [|discriminate].
    apply split_last_Some in Hs. subst cs.
    rewrite walk_append_descend.
    destruct (descend_append _ parent sect) as [parent'|] eqn:Hd;
      cbn [bind]; [|discriminate].
    intros H. injection H as <-. cbn [with_children children].
    apply descend_append_head in Hd as [Ht Hp].
    rewrite !map_app. cbn [map]. rewrite Ht, Hp, app_nil_r. reflexivity.
Qed.

Lemma toc_loop_top_heads (toc_info : list Entry) (max_page : Z)
    (rest : list Entry) :
  forall index root_item t,
    toc_loop toc_info max_page index rest root_item = Ok t ->
    top_heads t =
    top_heads root_item ++
    map (fun ie => head_of toc_info max_page (fst ie) (snd ie))
        (filter (fun ie => level (snd ie) =? 1)
                (combine (seq index (List.length rest)) rest)).
Proof.
  induction rest as [|e rest IH]; intros index root_item t H.
  - cbn [toc_loop] in H. injection H as <-. cbn. rewrite app_nil_r. reflexivity.
  - cbn [toc_loop] in H.
    destruct (attach root_item (level e)
                (make_section toc_info max_page index e)) as [r'|] eqn:Ha;
      cbn [bind] in H; [|discriminate].
    rewrite (IH _ _ _ H), (attach_top_heads _ _ _ _ Ha).
    cbn [List.length seq combine filter snd fst].
    rewrite <- app_assoc. f_equal.
    destruct (level e =? 1); reflexivity.
Qed.

(** X2.  Whenever [toc_tree] completes, the children of the root are the
    sections built for the entries of level 1, in outline order and no
    others; entries of any other level never become children of the
    root. *)
Theorem toc_tree_top_level_sections (doc_title : string) (num_pages : Z)
    (toc_info : list Entry) (t : Section) :
  toc_tree doc_title num_pages toc_info = Ok t ->
  top_heads t =
  map (fun ie => head_of toc_info (num_pages - 1) (fst ie) (snd ie))
      (top_level_rows toc_info).
Proof.
  unfold toc_tree. intros H.
  apply toc_loop_top_heads in H. exact H.
Qed.

Lemma toc_tree_top_level_sections_witness :
  exists t,
    toc_tree "Book" 50 scenario_outline = Ok t /\
    top_heads t =
    map (fun ie => head_of scenario_outline (50 - 1) (fst ie) (snd ie))
        (top_level_rows scenario_outline).
Proof.
  eexists. split; [reflexivity|].
  apply (toc_tree_top_level_sections "Book" 50 scenario_outline). reflexivity.
Defined.

Lemma map_snd_enumerate {A B : Type} (g : A -> B) (l : list A) :
  forall a,
    map (fun ie => g (snd ie)) (combine (seq a (List.length l)) l) = map g l.
Proof.
  induction l as [|x l IH]; intros a; [reflexivity|].
  cbn [List.length seq combine map snd]. rewrite IH. reflexivity.
Qed.

(** X3.  Whenever [toc_tree] completes, the tree holds one section for
    every entry and the root: read depth-first, parents before children,
    the titles are the document title followed by the titles of the
    outline in order, every section starts on the page before its entry's
    start page, and its current page is its first page. *)
Theorem toc_tree_depth_first_order (doc_title : string) (num_pages : Z)
    (toc_info : list Entry) (t : Section) :
  toc_tree doc_title num_pages toc_info = Ok t ->
  map fst (heads t) = doc_title :: map title toc_info /\
  map first (pagers t) = 0 :: map (fun e => start_page e - 1) toc_info /\
  map current (pagers t) = map first (pagers t) /\
  List.length (heads t) = S (List.length toc_info).
Proof.
  intros H. apply toc_tree_heads in H as [_ Hh].
  unfold pagers. rewrite Hh. unfold section_heads.
  cbn [map fst snd first current List.length].
  rewrite !map_map. cbn [head_of make_section sec_title pager fst snd first current].
  rewrite (map_snd_enumerate title toc_info 0).
  rewrite (map_snd_enumerate (fun e => start_page e - 1) toc_info 0).
  rewrite length_map, length_combine, length_seq, Nat.min_id.
  repeat split; reflexivity.
Qed.

Lemma toc_tree_depth_first_order_witness :
  exists t,
    toc_tree "Book" 50 scenario_outline = Ok t /\
    map fst (heads t) = "Book" :: map title scenario_outline /\
    List.length (heads t) = S (List.length scenario_outline).
Proof.
  eexists. split; [reflexivity|].
  pose proof (toc_tree_depth_first_order "Book" 50 scenario_outline _ eq_refl)
    as (H1 & _ & _ & H4).
  split; [exact H1 | exact H4].
Defined.

(** X4.  An entry whose level is below 1 is attached exactly as an entry
    of level 2 is: as the last child of the last top-level section, and
    with [IndexError] when the root has no child yet. *)
Theorem attach_level_below_1 (root_item : Section) (lvl : Z) (sect : Section) :
  lvl < 1 ->
  attach root_item lvl sect = attach root_item 2 sect /\
  (children root_item = [] -> attach root_item lvl sect = Raise IndexError) /\
  (forall init parent,
      children root_item = init ++ [parent] ->
      attach root_item lvl sect =
      Ok (with_children root_item (init ++ [append parent sect]))).
Proof.
  intros Hl.
  assert (Hd : entry_depth lvl = 2%nat).
  { unfold entry_depth. destruct (lvl =? 1) eqn:E; [apply Z.eqb_eq in E; lia|].
    replace (Z.to_nat (lvl - 2)) with 0%nat by lia. reflexivity. }
  rewrite !entry_depth_attach, Hd.
  change (Nat.pred (entry_depth 2)) with 1%nat. cbn [Nat.pred descend_append].
  split; [reflexivity|]. split.
  - intros ->. reflexivity.
  - intros init parent ->. rewrite split_last_snoc. reflexivity.
Qed.

Lemma attach_level_below_1_witness :
  attach (mkSection "Book" (mkPager 0 9 0) [mkSection "A" (mkPager 0 9 0) []])
         0 (mkSection "B" (mkPager 1 9 1) []) =
  attach (mkSection "Book" (mkPager 0 9 0) [mkSection "A" (mkPager 0 9 0) []])
         2 (mkSection "B" (mkPager 1 9 1) []).
Proof.
  destruct (attach_level_below_1
              (mkSection "Book" (mkPager 0 9 0)
                 [mkSection "A" (mkPager 0 9 0) []])
              0 (mkSection "B" (mkPager 1 9 1) [])) as [H _]; [lia | exact H].
Defined.

Lemma flat_last_page (max_page : Z) (e : Entry) (rest : list Entry) :
  level e = 1 ->
  flat_outline rest = true ->
  last_page_after max_page (level e) rest =
  match rest with
  | [] => max_page
  | e' :: _ => start_page e' - 2
  end.
Proof.
  intros He Hr. unfold last_page_after. destruct rest as [|e' rest]; [reflexivity|].
  cbn [flat_outline forallb] in Hr. apply andb_prop in Hr as [H1 _].
  cbn [find]. rewrite He, H1. reflexivity.
Qed.

Lemma toc_loop_flat (max_page : Z) (rest : list Entry) :
  forall done t p cs,
    flat_outline rest = true ->
    toc_loop (done ++ rest) max_page (List.length done) rest (mkSection t p cs) =
    Ok (mkSection t p (cs ++ flat_sections max_page rest)).
Proof.
  induction rest as [|e rest IH]; intros done t p cs Hf.
  - cbn [toc_loop flat_sections]. rewrite app_nil_r. reflexivity.
  - pose proof Hf as Hf'. cbn [flat_outline forallb] in Hf'.
    apply andb_prop in Hf' as [He Hr]. fold (flat_outline rest) in Hr.
    cbn [toc_loop]. rewrite make_section_suffix.
    unfold attach. rewrite He. cbn [bind append].
    apply Z.eqb_eq in He.
    rewrite (flat_last_page max_page e rest He Hr).
    specialize (IH (done ++ [e]) t p
                   (cs ++ [mkSection (title e)
                             (mkPager (start_page e - 1)
                                (match rest with
                                 | [] => max_page
                                 | e' :: _ => start_page e' - 2
                                 end) (start_page e - 1)) []]) Hr).
    rewrite <- app_assoc in IH. cbn [app] in IH.
    rewrite length_app in IH. cbn [List.length] in IH.
    rewrite Nat.add_1_r in IH. rewrite IH.
    cbn [flat_sections]. rewrite <- app_assoc. reflexivity.
Qed.

(** X5.  For an outline whose entries all have level 1, [toc_tree]
    completes and the root's children are, in order, one childless
    section per entry that runs from the page before its start page to two
    pages before the next entry's start page, the last one to the last
    page of the document. *)
Theorem toc_tree_flat_outline (doc_title : string) (num_pages : Z)
    (toc_info : list Entry) :
  flat_outline toc_info = true ->
  toc_tree doc_title num_pages toc_info =
  Ok (mkSection doc_title (mkPager 0 (num_pages - 1) 0)
        (flat_sections (num_pages - 1) toc_info)).
Proof.
  intros Hf. unfold toc_tree.
  exact (toc_loop_flat (num_pages - 1) toc_info [] doc_title _ [] Hf).
Qed.

Lemma toc_tree_flat_outline_witness :
  toc_tree "Book" 30 siblings_outline =
  Ok (mkSection "Book" (mkPager 0 (30 - 1) 0)
        (flat_sections (30 - 1) siblings_outline)).
Proof.
  apply (toc_tree_flat_outline "Book" 30 siblings_outline). reflexivity.
Defined.

Lemma toc_tree_is_ok (doc_title : string) (num_pages : Z)
    (toc_info : list Entry) :
  is_ok (toc_tree doc_title num_pages toc_info) = nesting_ok 0 toc_info.
Proof.
  unfold toc_tree.
  destruct (nesting_ok 0 toc_info) eqn:Hn.
  - destruct (toc_loop_ok toc_info (num_pages - 1) toc_info 0%nat
                (mkSection doc_title (mkPager 0 (num_pages - 1) 0) []) Hn)
      as (t & Ht & _).
    rewrite Ht. reflexivity.
  - rewrite (toc_loop_raise toc_info (num_pages - 1) toc_info 0%nat
               (mkSection doc_title (mkPager 0 (num_pages - 1) 0) []) Hn).
    reflexivity.
Qed.

Lemma nesting_ok_levels (a : list Entry) :
  forall b depth,
    map level a = map level b -> nesting_ok depth a = nesting_ok depth b.
Proof.
  induction a as [|x a IH]; intros [|y b] depth H; try discriminate;
    [reflexivity|].
  cbn [map] in H. injection H as Hxy Hab.
  cbn [nesting_ok]. rewrite Hxy, (IH b _ Hab). reflexivity.
Qed.

Lemma nesting_ok_prefix (a b : list Entry) :
  forall depth,
    nesting_ok depth (a ++ b) = true -> nesting_ok depth a = true.
Proof.
  induction a as [|x a IH]; intros depth H; [reflexivity|].
  cbn [app nesting_ok] in *. apply andb_prop in H as [H1 H2].
  rewrite H1, (IH _ H2). reflexivity.
Qed.

(** X6.  Whether [toc_tree] completes or raises depends on the levels of
    the outline alone: two outlines with the same sequence of levels both
    complete or both raise, whatever their titles and start pages and
    whatever the title and the number of pages of the document. *)
Theorem toc_tree_completion_by_levels (doc_title doc_title' : string)
    (num_pages num_pages' : Z) (toc_info toc_info' : list Entry) :
  map level toc_info = map level toc_info' ->
  is_ok (toc_tree doc_title num_pages toc_info) =
  is_ok (toc_tree doc_title' num_pages' toc_info').
Proof.
  intros H. rewrite !toc_tree_is_ok. apply nesting_ok_levels. exact H.
Qed.

Lemma toc_tree_completion_by_levels_witness :
  is_ok (toc_tree "Book" 50 scenario_outline) =
  is_ok (toc_tree "Other" 8
           [ mkEntry 1 "A" 1; mkEntry 1 "B" 2; mkEntry 2 "B.1" 2;
             mkEntry 1 "C" 3 ]).
Proof.
  apply (toc_tree_completion_by_levels "Book" "Other" 50 8
           scenario_outline
           [ mkEntry 1 "A" 1; mkEntry 1 "B" 2; mkEntry 2 "B.1" 2;
             mkEntry 1 "C" 3 ]).
  reflexivity.
Defined.

(** X7.  An outline on which [toc_tree] completes has no prefix on which
    it raises: once an entry cannot be attached, no later entry changes
    the outcome. *)
Theorem toc_tree_prefix_completes (doc_title : string) (num_pages : Z)
    (toc_info later : list Entry) :
  is_ok (toc_tree doc_title num_pages (toc_info ++ later)) = true ->
  is_ok (toc_tree doc_title num_pages toc_info) = true.
Proof.
  rewrite !toc_tree_is_ok. apply nesting_ok_prefix.
Qed.

Lemma toc_tree_prefix_completes_witness :
  is_ok (toc_tree "Book" 50 [mkEntry 1 "Intro" 1; mkEntry 1 "Ch1" 3]) = true.
Proof.
  apply (toc_tree_prefix_completes "Book" 50
           [mkEntry 1 "Intro" 1; mkEntry 1 "Ch1" 3]
           [mkEntry 2 "Ch1.1" 5; mkEntry 1 "Ch2" 12]).
  reflexivity.
Defined.

(** ** More on [speak_utterance]: the queue *)

Section EngineQueue.

Variable SpeechOptions : Type.
Variable TtsState : Type.
Variable PiperTask : Type.
Variable Player : Type.
Variable DEFAULT_VOLUME : Z.
Variable get_voice : Piper.Tts SpeechOptions TtsState -> option string.
Variable set_voice :
  string -> Piper.Tts SpeechOptions TtsState -> Piper.Tts SpeechOptions TtsState.
Variable get_pitch get_rate get_volume :
  Piper.Tts SpeechOptions TtsState -> option Z.
Variable set_pitch set_rate set_volume :
  Z -> Piper.Tts SpeechOptions TtsState -> Piper.Tts SpeechOptions TtsState.
Variable create_speech_task :
  Piper.Tts SpeechOptions TtsState -> string -> PiperTask.
Variable create_bookmark_task :
  Piper.Tts SpeechOptions TtsState -> string -> PiperTask.
Variable create_break_task :
  Piper.Tts SpeechOptions TtsState -> Z -> PiperTask.
Variable audio_uri_to_filepath : string -> string.

Lemma speak_element_queue (element : Piper.SpeechElement)
    (loc : Piper.Locals)
    (eng : Piper.Engine SpeechOptions TtsState PiperTask Player) :
  let st :=
    Piper.speak_element SpeechOptions TtsState PiperTask Player
      DEFAULT_VOLUME get_voice set_voice get_pitch get_rate get_volume
      set_pitch set_rate set_volume create_speech_task create_bookmark_task
      create_break_task audio_uri_to_filepath element (loc, eng) in
  Piper.player _ _ _ _ (snd st) = Piper.player _ _ _ _ eng /\
  Piper.silence_event _ _ _ _ (snd st) = Piper.silence_event _ _ _ _ eng /\
  exists items,
    Piper.bgQueue _ _ _ _ (snd st) = Piper.bgQueue _ _ _ _ eng ++ items /\
    List.length items = (if queues_item element then 1 else 0)%nat /\
    Forall (loop_item (Piper.player _ _ _ _ eng)) items.
Proof.
  destruct loc as [[[|c s]|] [[op orate] ovol]];
    destruct element; cbn [Piper.speak_element queues_item];
    try destruct (Piper.strips_to_nothing content);
    try destruct (Piper.pause_lookup content =? 0);
    cbn; repeat split;
    solve [ exists []; rewrite app_nil_r; repeat split; constructor
          | eexists; repeat split; repeat constructor ].
Qed.

Lemma speak_loop_queue (utterance : list Piper.SpeechElement) :
  forall (loc : Piper.Locals)
         (eng : Piper.Engine SpeechOptions TtsState PiperTask Player),
    let st :=
      fold_left
        (fun st element =>
           Piper.speak_element SpeechOptions TtsState PiperTask Player
             DEFAULT_VOLUME get_voice set_voice get_pitch get_rate get_volume
             set_pitch set_rate set_volume create_speech_task
             create_bookmark_task create_break_task audio_uri_to_filepath
             element st)
        utterance (loc, eng) in
    Piper.player _ _ _ _ (snd st) = Piper.player _ _ _ _ eng /\
    Piper.silence_event _ _ _ _ (snd st) = Piper.silence_event _ _ _ _ eng /\
    exists items,
      Piper.bgQueue _ _ _ _ (snd st) = Piper.bgQueue _ _ _ _ eng ++ items /\
      List.length items = List.length (filter queues_item utterance) /\
      Forall (loop_item (Piper.player _ _ _ _ eng)) items.
Proof.
  induction utterance as [|element utterance IH]; intros loc eng.
  - cbn. repeat split. exists []. rewrite app_nil_r. repeat split. constructor.
  - cbn [fold_left].
    pose proof (speak_element_queue element loc eng) as Hstep.
    cbv zeta in Hstep.
    destruct (Piper.speak_element _ _ _ _ _ _ _ _ _ _ _ _ _ _ _ _ _ element
                (loc, eng)) as [loc1 eng1].
    cbn [snd] in Hstep. destruct Hstep as (Hp & Hs & items1 & Hq & Hl & Hf).
    specialize (IH loc1 eng1). cbv zeta in IH |- *.
    destruct IH as (Hp' & Hs' & items & Hq' & Hl' & Hf').
    rewrite Hp', Hs', Hp, Hs. repeat split.
    exists (items1 ++ items). rewrite Hq', Hq, <- app_assoc. repeat split.
    + rewrite length_app, Hl, Hl'. cbn [filter].
      destruct (queues_item element); reflexivity.
    + apply Forall_app. split; [exact Hf|]. rewrite <- Hp. exact Hf'.
Qed.

(** X8.  [speak_utterance] clears the silence event, keeps the player,
    leaves what was on the queue in front, adds one item for every
    element of the utterance except text that strips to nothing (an audio
    file task, or a task for the engine's player, never [DoneSpeaking]),
    and puts [DoneSpeaking] for that player last. *)
Theorem speak_utterance_queue (utterance : list Piper.SpeechElement)
    (eng : Piper.Engine SpeechOptions TtsState PiperTask Player) :
  let eng' :=
    Piper.speak_utterance SpeechOptions TtsState PiperTask Player
      DEFAULT_VOLUME get_voice set_voice get_pitch get_rate get_volume
      set_pitch set_rate set_volume create_speech_task create_bookmark_task
      create_break_task audio_uri_to_filepath utterance eng in
  Piper.silence_event _ _ _ _ eng' = false /\
  Piper.player _ _ _ _ eng' = Piper.player _ _ _ _ eng /\
  exists items,
    Piper.bgQueue _ _ _ _ eng' =
      Piper.bgQueue _ _ _ _ eng ++ items
        ++ [Piper.DoneSpeaking _ _ (Piper.player _ _ _ _ eng)] /\
    List.length items = List.length (filter queues_item utterance) /\
    Forall (loop_item (Piper.player _ _ _ _ eng)) items.
Proof.
  cbv zeta. unfold Piper.speak_utterance.
  pose proof (speak_loop_queue utterance
                (Piper.mkLocals None (None, None, None))
                (Piper.mkEngine _ _ _ _ (Piper.tts _ _ _ _ eng)
                   (Piper.bgQueue _ _ _ _ eng) (Piper.player _ _ _ _ eng)
                   false)) as H.
  cbv zeta in H. cbn [Piper.tts Piper.bgQueue Piper.player] in *.
  destruct (fold_left _ utterance _) as [loc1 eng1].
  cbn [snd Piper.player Piper.silence_event Piper.bgQueue] in H.
  destruct H as (Hp & Hs & items & Hq & Hl & Hf).
  cbn. rewrite Hp, Hs, Hq. repeat split.
  exists items. rewrite <- app_assoc. repeat split; assumption.
Qed.

Lemma tts_eta (t : Piper.Tts SpeechOptions TtsState) :
  Piper.mkTts _ _ (Piper.speech_options _ _ t) (Piper.tts_state _ _ t) = t.
Proof. destruct t; reflexivity. Qed.

Lemma speak_element_plain (element : Piper.SpeechElement)
    (loc : Piper.Locals)
    (eng : Piper.Engine SpeechOptions TtsState PiperTask Player) :
  plain_element element = true ->
  let st :=
    Piper.speak_element SpeechOptions TtsState PiperTask Player
      DEFAULT_VOLUME get_voice set_voice get_pitch get_rate get_volume
      set_pitch set_rate set_volume create_speech_task create_bookmark_task
      create_break_task audio_uri_to_filepath element (loc, eng) in
  fst st = loc /\ Piper.tts _ _ _ _ (snd st) = Piper.tts _ _ _ _ eng.
Proof.
  destruct element; try discriminate; intros _;
    cbn [Piper.speak_element];
    try destruct (Piper.strips_to_nothing content);
    try destruct (Piper.pause_lookup content =? 0);
    cbn; auto.
Qed.

Lemma speak_loop_plain (elements : list Piper.SpeechElement) :
  forall (loc : Piper.Locals)
         (eng : Piper.Engine SpeechOptions TtsState PiperTask Player),
    forallb plain_element elements = true ->
    let st :=
      fold_left
        (fun st element =>
           Piper.speak_element SpeechOptions TtsState PiperTask Player
             DEFAULT_VOLUME get_voice set_voice get_pitch get_rate get_volume
             set_pitch set_rate set_volume create_speech_task
             create_bookmark_task create_break_task audio_uri_to_filepath
             element st)
        elements (loc, eng) in
    fst st = loc /\ Piper.tts _ _ _ _ (snd st) = Piper.tts _ _ _ _ eng.
Proof.
  induction elements as [|element elements IH]; intros loc eng Hall.
  - cbn. auto.
  - cbn [forallb] in Hall. apply andb_prop in Hall as [Hel Hall].
    cbn [fold_left].
    pose proof (speak_element_plain element loc eng Hel) as Hstep.
    cbv zeta in Hstep.
    destruct (Piper.speak_element _ _ _ _ _ _ _ _ _ _ _ _ _ _ _ _ _ element
                (loc, eng)) as [loc1 eng1].
    cbn [fst snd] in Hstep. destruct Hstep as [-> <-].
    exact (IH loc eng1 Hall).
Qed.

Lemma speak_element_closing (element : Piper.SpeechElement)
    (eng : Piper.Engine SpeechOptions TtsState PiperTask Player) :
  opens_scope element = false ->
  let loc := Piper.mkLocals None (None, None, None) in
  let st :=
    Piper.speak_element SpeechOptions TtsState PiperTask Player
      DEFAULT_VOLUME get_voice set_voice get_pitch get_rate get_volume
      set_pitch set_rate set_volume create_speech_task create_bookmark_task
      create_break_task audio_uri_to_filepath element (loc, eng) in
  fst st = loc /\ Piper.tts _ _ _ _ (snd st) = Piper.tts _ _ _ _ eng.
Proof.
  destruct element; try discriminate; intros _;
    cbn [Piper.speak_element];
    try destruct (Piper.strips_to_nothing content);
    try destruct (Piper.pause_lookup content =? 0);
    cbn; auto.
Qed.

Lemma speak_loop_closing (elements : list Piper.SpeechElement) :
  forall (eng : Piper.Engine SpeechOptions TtsState PiperTask Player),
    forallb (fun element => negb (opens_scope element)) elements = true ->
    let loc := Piper.mkLocals None (None, None, None) in
    let st :=
      fold_left
        (fun st element =>
           Piper.speak_element SpeechOptions TtsState PiperTask Player
             DEFAULT_VOLUME get_voice set_voice get_pitch get_rate get_volume
             set_pitch set_rate set_volume create_speech_task
             create_bookmark_task create_break_task audio_uri_to_filepath
             element st)
        elements (loc, eng) in
    fst st = loc /\ Piper.tts _ _ _ _ (snd st) = Piper.tts _ _ _ _ eng.
Proof.
  induction elements as [|element elements IH]; intros eng Hall.
  - cbn. auto.
  - cbn [forallb] in Hall. apply andb_prop in Hall as [Hel Hall].
    apply negb_true_iff in Hel.
    cbn [fold_left].
    pose proof (speak_element_closing element eng Hel) as Hstep.
    cbv zeta in Hstep.
    destruct (Piper.speak_element _ _ _ _ _ _ _ _ _ _ _ _ _ _ _ _ _ element
                (Piper.mkLocals None (None, None, None), eng)) as [loc1 eng1].
    cbn [fst snd] in Hstep. destruct Hstep as [-> <-].
    exact (IH eng1 Hall).
Qed.

(** X9.  An utterance without [start_voice] and [start_prosody] elements
    leaves [self.tts] as it was, not only its speech options: no setter of
    the text-to-speech system is called, an [end_voice] or [end_prosody]
    that nothing opened assigns nothing. *)
Theorem speak_utterance_without_scopes (utterance : list Piper.SpeechElement)
    (eng : Piper.Engine SpeechOptions TtsState PiperTask Player) :
  forallb (fun element => negb (opens_scope element)) utterance = true ->
  Piper.tts _ _ _ _
    (Piper.speak_utterance SpeechOptions TtsState PiperTask Player
       DEFAULT_VOLUME get_voice set_voice get_pitch get_rate get_volume
       set_pitch set_rate set_volume create_speech_task create_bookmark_task
       create_break_task audio_uri_to_filepath utterance eng) =
  Piper.tts _ _ _ _ eng.
Proof.
  intros Hall. unfold Piper.speak_utterance.
  pose proof (speak_loop_closing utterance
                (Piper.mkEngine _ _ _ _ (Piper.tts _ _ _ _ eng)
                   (Piper.bgQueue _ _ _ _ eng) (Piper.player _ _ _ _ eng)
                   false) Hall) as H.
  cbv zeta in H. cbn [Piper.tts] in *.
  destruct (fold_left _ utterance _) as [loc1 eng1].
  cbn [fst snd] in H. destruct H as [_ H].
  cbn. rewrite H. apply tts_eta.
Qed.

Section Voices.

Hypothesis get_set_voice :
  forall v t, get_voice (set_voice v t) = Some v.

(** X10.  A voice scope gives the voice back: when the current voice is a
    non-empty name, after [start_voice], any elements that are text,
    bookmarks, pauses or audio, and [end_voice], the voice of [self.tts]
    is the one that was current before [start_voice]. *)
Theorem voice_scope_restores_voice (voice_id v0 : string)
    (mid : list Piper.SpeechElement) (loc : Piper.Locals)
    (eng : Piper.Engine SpeechOptions TtsState PiperTask Player) :
  get_voice (Piper.tts _ _ _ _ eng) = Some v0 ->
  Piper.truthy_voice (Some v0) = true ->
  forallb plain_element mid = true ->
  get_voice
    (Piper.tts _ _ _ _
       (snd (fold_left
               (fun st element =>
                  Piper.speak_element SpeechOptions TtsState PiperTask Player
                    DEFAULT_VOLUME get_voice set_voice get_pitch get_rate
                    get_volume set_pitch set_rate set_volume
                    create_speech_task create_bookmark_task create_break_task
                    audio_uri_to_filepath element st)
               (Piper.start_voice voice_id :: mid ++ [Piper.end_voice])
               (loc, eng)))) = Some v0.
Proof.
  intros Hv Hne Hmid. cbn [fold_left Piper.speak_element].
  rewrite fold_left_app. rewrite Hv.
  match goal with
  | |- context [fold_left ?f mid (?l, ?e)] =>
      pose proof (speak_loop_plain mid l e Hmid) as H; cbv zeta in H;
      destruct (fold_left f mid (l, e)) as [loc1 eng1]
  end.
  cbn [fst snd] in H. destruct H as [-> Ht].
  cbn [fold_left Piper.speak_element Piper.old_voice].
  rewrite Hne. destruct v0 as [|c s]; [discriminate|].
  cbn. apply get_set_voice.
Qed.

(** X11.  Voice scopes do not nest: [old_voice] is one variable, so after
    a [start_voice] inside a [start_voice] the outer [end_voice] sets the
    voice of the outer scope again instead of the voice from before it. *)
Theorem nested_voice_scope_keeps_outer_voice (outer inner : string)
    (m1 m2 m3 : list Piper.SpeechElement) (loc : Piper.Locals)
    (eng : Piper.Engine SpeechOptions TtsState PiperTask Player) :
  Piper.truthy_voice (Some outer) = true ->
  forallb plain_element m1 = true ->
  forallb plain_element m2 = true ->
  forallb plain_element m3 = true ->
  get_voice
    (Piper.tts _ _ _ _
       (snd (fold_left
               (fun st element =>
                  Piper.speak_element SpeechOptions TtsState PiperTask Player
                    DEFAULT_VOLUME get_voice set_voice get_pitch get_rate
                    get_volume set_pitch set_rate set_volume
                    create_speech_task create_bookmark_task create_break_task
                    audio_uri_to_filepath element st)
               (Piper.start_voice outer :: m1
                  ++ Piper.start_voice inner :: m2
                  ++ Piper.end_voice :: m3 ++ [Piper.end_voice])
               (loc, eng)))) = Some outer.
Proof.
  intros Hne H1 H2 H3.
  cbn [fold_left Piper.speak_element].
  rewrite fold_left_app.
  match goal with
  | |- context [fold_left ?f m1 (?l, ?e)] =>
      pose proof (speak_loop_plain m1 l e H1) as H; cbv zeta in H;
      destruct (fold_left f m1 (l, e)) as [loc1 eng1]
  end.
  cbn [fst snd] in H. destruct H as [-> Ht1].
  cbn [fold_left Piper.speak_element Piper.old_prosody].
  rewrite fold_left_app.
  match goal with
  | |- context [fold_left ?f m2 (?l, ?e)] =>
      pose proof (speak_loop_plain m2 l e H2) as H; cbv zeta in H;
      destruct (fold_left f m2 (l, e)) as [loc2 eng2]
  end.
  cbn [fst snd] in H. destruct H as [-> Ht2].
  cbn [fold_left Piper.speak_element Piper.old_prosody Piper.old_voice].
  assert (Hov : get_voice (Piper.tts _ _ _ _ eng1) = Some outer).
  { rewrite Ht1. cbn. apply get_set_voice. }
  rewrite Hov, Hne.
  rewrite fold_left_app.
  match goal with
  | |- context [fold_left ?f m3 (?l, ?e)] =>
      pose proof (speak_loop_plain m3 l e H3) as H; cbv zeta in H;
      destruct (fold_left f m3 (l, e)) as [loc3 eng3]
  end.
  cbn [fst snd] in H. destruct H as [-> Ht3].
  cbn [fold_left Piper.speak_element Piper.old_voice].
  rewrite Hne. cbn. apply get_set_voice.
Qed.

End Voices.

End EngineQueue.

Lemma speak_utterance_without_scopes_witness :
  let eng := Piper.mkEngine string unit (string * string) unit
               (Piper.mkTts _ _ "amy" tt) [] tt true in
  Piper.tts _ _ _ _
    (voice_speak_utterance
       [Piper.text "Hello"; Piper.end_voice; Piper.end_prosody] eng) =
  Piper.tts _ _ _ _ eng.
Proof.
  apply (speak_utterance_without_scopes string unit (string * string) unit 50).
  reflexivity.
Defined.

Lemma voice_scope_restores_voice_witness :
  Some (Piper.speech_options _ _
          (Piper.tts _ _ _ _
             (snd (fold_left (fun st element => voice_speak_element element st)
                     (Piper.start_voice "joe" :: [Piper.text "Hello"]
                        ++ [Piper.end_voice])
                     (Piper.mkLocals None (None, None, None),
                      voice_engine_amy)))))
  = Some "amy".
Proof.
  apply (voice_scope_restores_voice string unit (string * string) unit 50
           (fun t => Some (Piper.speech_options _ _ t))
           (fun voice_id t => Piper.mkTts _ _ voice_id (Piper.tts_state _ _ t))
           (fun _ => None) (fun _ => None) (fun _ => None)
           (fun _ t => t) (fun _ t => t) (fun _ t => t)
           (fun t content => (Piper.speech_options _ _ t, content))
           (fun t content => (Piper.speech_options _ _ t, content))
           (fun t _ => (Piper.speech_options _ _ t, ""))
           (fun uri => uri)
           (fun v t => eq_refl)
           "joe" "amy" [Piper.text "Hello"]
           (Piper.mkLocals None (None, None, None)) voice_engine_amy);
    reflexivity.
Defined.

Lemma nested_voice_scope_keeps_outer_voice_witness :
  Some (Piper.speech_options _ _
          (Piper.tts _ _ _ _
             (snd (fold_left (fun st element => voice_speak_element element st)
                     (Piper.start_voice "joe" :: []
                        ++ Piper.start_voice "kim" :: [Piper.text "Hello"]
                        ++ Piper.end_voice :: [] ++ [Piper.end_voice])
                     (Piper.mkLocals None (None, None, None),
                      voice_engine_amy)))))
  = Some "joe".
Proof.
  apply (nested_voice_scope_keeps_outer_voice string unit (string * string)
           unit 50
           (fun t => Some (Piper.speech_options _ _ t))
           (fun voice_id t => Piper.mkTts _ _ voice_id (Piper.tts_state _ _ t))
           (fun _ => None) (fun _ => None) (fun _ => None)
           (fun _ t => t) (fun _ t => t) (fun _ t => t)
           (fun t content => (Piper.speech_options _ _ t, content))
           (fun t content => (Piper.speech_options _ _ t, content))
           (fun t _ => (Piper.speech_options _ _ t, ""))
           (fun uri => uri)
           (fun v t => eq_refl)
           "joe" "kim" [] [Piper.text "Hello"] []
           (Piper.mkLocals None (None, None, None)) voice_engine_amy);
    reflexivity.
Defined.

(** ** The event sink *)

Lemma last_cons_default {A : Type} (l : list A) :
  forall x d, List.last (x :: l) d = List.last l x.
Proof.
  induction l as [|y l IH]; intros x d; [reflexivity|].
  change (List.last (y :: l) d = List.last (y :: l) x).
  rewrite !IH. reflexivity.
Qed.

Section SinkFacts.

Variable Handler : Type.
Variable PiperTask : Type.
Variable Player : Type.

Lemma state_eqb_eq (a b : PiperThread.SynthState) :
  PiperThread.state_eqb a b = true <-> a = b.
Proof. destruct a, b; cbn; split; intros H; congruence. Qed.

Lemma state_eqb_refl (a : PiperThread.SynthState) :
  PiperThread.state_eqb a a = true.
Proof. destruct a; reflexivity. Qed.

Lemma on_state_changed_synthref (state : PiperThread.SynthState)
    (sink : PiperThread.EventSink Handler PiperTask Player) :
  PiperThread.synthref _ _ _ (PiperThread.on_state_changed _ _ _ state sink) =
  PiperThread.synthref _ _ _ sink.
Proof.
  unfold PiperThread.on_state_changed.
  destruct (PiperThread.state_eqb state (PiperThread._state _ _ _ sink));
    [reflexivity|].
  destruct (PiperThread.synthref _ _ _ sink) eqn:E; cbn; auto.
Qed.

Lemma on_state_changed_ready
    (sink : PiperThread.EventSink Handler PiperTask Player) :
  PiperThread._state _ _ _
    (PiperThread.on_state_changed _ _ _ PiperThread.state_ready sink) =
  PiperThread.state_ready.
Proof.
  unfold PiperThread.on_state_changed.
  destruct (PiperThread.state_eqb PiperThread.state_ready
              (PiperThread._state _ _ _ sink)) eqn:E.
  - apply state_eqb_eq in E. auto.
  - destruct (PiperThread.synthref _ _ _ sink); reflexivity.
Qed.

(** X12.  While the engine is alive, the handlers bound to
    [state_changed] are told the changes of state and nothing else: over
    any sequence of calls of [on_state_changed], a state reported again
    right after itself (or equal to the state the sink is in) calls no
    handler, every other report calls each handler once with the new
    state, in the order of the handlers, and the sink is left in the last
    changed state. *)
Theorem on_state_changed_tells_changes
    (states : list PiperThread.SynthState) :
  forall (sink : PiperThread.EventSink Handler PiperTask Player)
         (event_handlers : PiperThread.EventHandlers Handler),
    PiperThread.synthref _ _ _ sink = Some event_handlers ->
    let sink' := PiperThread.report _ _ _ states sink in
    PiperThread.effects _ _ _ sink' =
      PiperThread.effects _ _ _ sink ++
      flat_map (fun state =>
                  map (fun handler => PiperThread.StateHandler _ _ _ handler state)
                      (event_handlers PiperThread.state_changed))
               (PiperThread.changes (PiperThread._state _ _ _ sink) states) /\
    PiperThread._state _ _ _ sink' =
      List.last (PiperThread.changes (PiperThread._state _ _ _ sink) states)
                (PiperThread._state _ _ _ sink).
Proof.
  induction states as [|state states IH]; intros sink event_handlers Hs.
  - cbn. rewrite app_nil_r. auto.
  - cbv zeta. unfold PiperThread.report. cbn [fold_left PiperThread.changes].
    fold (PiperThread.report _ _ _ states
            (PiperThread.on_state_changed _ _ _ state sink)).
    specialize (IH (PiperThread.on_state_changed _ _ _ state sink)
                   event_handlers).
    rewrite on_state_changed_synthref in IH. specialize (IH Hs).
    cbv zeta in IH. destruct IH as [IHe IHs]. rewrite IHe, IHs.
    unfold PiperThread.on_state_changed. rewrite Hs.
    destruct (PiperThread.state_eqb state (PiperThread._state _ _ _ sink)) eqn:E.
    + auto.
    + cbn [PiperThread.effect PiperThread.set_state PiperThread.effects
           PiperThread._state PiperThread.synthref flat_map].
      rewrite <- app_assoc. split; [reflexivity|].
      symmetry. apply last_cons_default.
Qed.

(** X13.  Once the engine is gone ([synthref()] gives [None]), a sink
    that is in the state [ready] stays there whatever is reported, and no
    handler is called any more, neither for a state nor for a bookmark. *)
Theorem dead_synth_stays_ready (states : list PiperThread.SynthState) :
  forall (bookmark : string)
         (sink : PiperThread.EventSink Handler PiperTask Player),
    PiperThread.synthref _ _ _ sink = None ->
    PiperThread._state _ _ _ sink = PiperThread.state_ready ->
    let sink' := PiperThread.report _ _ _ states sink in
    PiperThread._state _ _ _ sink' = PiperThread.state_ready /\
    PiperThread.told_states (PiperThread.effects _ _ _ sink') =
      PiperThread.told_states (PiperThread.effects _ _ _ sink) /\
    PiperThread.told_bookmarks
      (PiperThread.effects _ _ _
         (PiperThread.on_bookmark_reached _ _ _ bookmark sink')) =
      PiperThread.told_bookmarks (PiperThread.effects _ _ _ sink).
Proof.
  induction states as [|state states IH]; intros bookmark sink Hd Hr.
  - cbn. repeat split; auto.
    unfold PiperThread.on_bookmark_reached. rewrite Hd. cbn.
    unfold PiperThread.told_bookmarks. rewrite flat_map_app. cbn.
    apply app_nil_r.
  - cbv zeta. unfold PiperThread.report. cbn [fold_left].
    fold (PiperThread.report _ _ _ states
            (PiperThread.on_state_changed _ _ _ state sink)).
    specialize (IH bookmark (PiperThread.on_state_changed _ _ _ state sink)).
    rewrite on_state_changed_synthref in IH. specialize (IH Hd).
    assert (Hst : PiperThread._state _ _ _
                    (PiperThread.on_state_changed _ _ _ state sink) =
                  PiperThread.state_ready).
    { unfold PiperThread.on_state_changed. rewrite Hd.
      destruct (PiperThread.state_eqb state _); [exact Hr | reflexivity]. }
    specialize (IH Hst). cbv zeta in IH. destruct IH as (H1 & H2 & H3).
    rewrite H1, H2, H3.
    unfold PiperThread.on_state_changed. rewrite Hd.
    destruct (PiperThread.state_eqb state _); [auto|].
    cbn. unfold PiperThread.told_states, PiperThread.told_bookmarks.
    rewrite !flat_map_app. cbn. rewrite !app_nil_r. auto.
Qed.

End SinkFacts.

Lemma on_state_changed_tells_changes_witness :
  PiperThread.effects string unit unit
    (PiperThread.report _ _ _
       [PiperThread.state_busy; PiperThread.state_busy;
        PiperThread.state_ready]
       (PiperThread.mkEventSink _ _ _ (Some two_handlers)
          PiperThread.state_ready [])) =
  [ PiperThread.StateHandler _ _ _ "first" PiperThread.state_busy;
    PiperThread.StateHandler _ _ _ "second" PiperThread.state_busy;
    PiperThread.StateHandler _ _ _ "first" PiperThread.state_ready;
    PiperThread.StateHandler _ _ _ "second" PiperThread.state_ready ].
Proof.
  destruct (on_state_changed_tells_changes string unit unit
              [PiperThread.state_busy; PiperThread.state_busy;
               PiperThread.state_ready]
              (PiperThread.mkEventSink _ _ _ (Some two_handlers)
                 PiperThread.state_ready [])
              two_handlers eq_refl) as [H _].
  exact H.
Defined.

Lemma dead_synth_stays_ready_witness :
  PiperThread._state string unit unit
    (PiperThread.report _ _ _
       [PiperThread.state_busy; PiperThread.state_paused]
       (PiperThread.mkEventSink _ _ _ None PiperThread.state_ready [])) =
  PiperThread.state_ready.
Proof.
  destruct (dead_synth_stays_ready string unit unit
              [PiperThread.state_busy; PiperThread.state_paused] "mark"
              (PiperThread.mkEventSink _ _ _ None PiperThread.state_ready [])
              eq_refl eq_refl) as [H _].
  exact H.
Defined.

(** ** Binding handlers *)

Section BindFacts.

Variable Handler : Type.
Variable PiperTask : Type.
Variable Player : Type.

Lemma bind_all_handlers (bindings : list (PiperThread.EngineEvent * Handler)) :
  forall event_handlers : PiperThread.EventHandlers Handler,
    forallb (fun b => PiperThread.bindable (fst b)) bindings = true ->
    exists event_handlers',
      PiperThread.bind_all _ bindings event_handlers = Some event_handlers' /\
      forall event,
        event_handlers' event =
        event_handlers event ++
        map snd (filter (fun b => PiperThread.event_eqb event (fst b)) bindings).
Proof.
  induction bindings as [|[event handler] bindings IH];
    intros event_handlers Hall.
  - exists event_handlers. split; [reflexivity|].
    intros event. cbn. symmetry. apply app_nil_r.
  - cbn [forallb fst] in Hall. apply andb_prop in Hall as [Hev Hall].
    cbn [PiperThread.bind_all].
    assert (Hb : PiperThread.bind _ event handler event_handlers =
                 Some (fun e => if PiperThread.event_eqb e event
                                then event_handlers e ++ [handler]
                                else event_handlers e)).
    { destruct event; try discriminate; reflexivity. }
    rewrite Hb.
    match goal with
    | |- context [PiperThread.bind_all _ bindings ?f] =>
        destruct (IH f Hall) as (eh & Heh & Hget)
    end.
    exists eh. split; [exact Heh|].
    intros e. rewrite Hget. cbn [filter fst].
    destruct (PiperThread.event_eqb e event); cbn [map snd].
    + rewrite <- app_assoc. reflexivity.
    + reflexivity.
Qed.

Lemma bind_all_raises (bindings : list (PiperThread.EngineEvent * Handler)) :
  forall event_handlers : PiperThread.EventHandlers Handler,
    forallb (fun b => PiperThread.bindable (fst b)) bindings = false ->
    PiperThread.bind_all _ bindings event_handlers = None.
Proof.
  induction bindings as [|[event handler] bindings IH];
    intros event_handlers Hall; [discriminate|].
  cbn [forallb fst] in Hall. cbn [PiperThread.bind_all].
  destruct event; cbn [PiperThread.bind PiperThread.bindable andb] in *;
    try reflexivity; apply IH; exact Hall.
Qed.

(** X14.  Handlers are called in the order in which they were bound.
    After any sequence of [bind] calls for the two events that can be
    bound, a change of state calls the handlers bound to [state_changed],
    and a bookmark those bound to [bookmark_reached], each once for every
    time it was bound and in the order of the [bind] calls; a [bind] for
    any other event raises [NotImplementedError]. *)
Theorem handlers_called_in_bind_order
    (bindings : list (PiperThread.EngineEvent * Handler))
    (state state0 : PiperThread.SynthState) (bookmark : string)
    (evs : list (PiperThread.Effect Handler PiperTask Player)) :
  (forallb (fun b => PiperThread.bindable (fst b)) bindings = true ->
   PiperThread.state_eqb state state0 = false ->
   exists event_handlers,
     PiperThread.bind_all _ bindings (PiperThread.no_handlers _) =
       Some event_handlers /\
     PiperThread.effects _ _ _
       (PiperThread.on_state_changed _ _ _ state
          (PiperThread.mkEventSink _ _ _ (Some event_handlers) state0 evs)) =
       evs ++
       map (fun b => PiperThread.StateHandler _ _ _ (snd b) state)
           (filter (fun b => PiperThread.event_eqb PiperThread.state_changed
                               (fst b)) bindings) /\
     PiperThread.effects _ _ _
       (PiperThread.on_bookmark_reached _ _ _ bookmark
          (PiperThread.mkEventSink _ _ _ (Some event_handlers) state0 evs)) =
       evs ++
       map (fun b => PiperThread.BookmarkHandler _ _ _ (snd b) bookmark)
           (filter (fun b => PiperThread.event_eqb PiperThread.bookmark_reached
                               (fst b)) bindings)) /\
  (forallb (fun b => PiperThread.bindable (fst b)) bindings = false ->
   PiperThread.bind_all _ bindings (PiperThread.no_handlers _) = None).
Proof.
  split.
  - intros Hall Hne.
    destruct (bind_all_handlers bindings (PiperThread.no_handlers _) Hall)
      as (eh & Heh & Hget).
    exists eh. split; [exact Heh|].
    unfold PiperThread.on_state_changed, PiperThread.on_bookmark_reached.
    cbn [PiperThread._state PiperThread.synthref]. rewrite Hne.
    cbn [PiperThread.effect PiperThread.set_state PiperThread.effects
         PiperThread.synthref PiperThread._state].
    rewrite !Hget. unfold PiperThread.no_handlers. cbn [app].
    rewrite !map_map. split; reflexivity.
  - apply bind_all_raises.
Qed.

End BindFacts.

Lemma handlers_called_in_bind_order_witness :
  exists event_handlers,
    PiperThread.bind_all string
      [ (PiperThread.state_changed, "first");
        (PiperThread.bookmark_reached, "marks");
        (PiperThread.state_changed, "second") ]
      (PiperThread.no_handlers _) = Some event_handlers /\
    PiperThread.effects string unit unit
      (PiperThread.on_state_changed _ _ _ PiperThread.state_busy
         (PiperThread.mkEventSink _ _ _ (Some event_handlers)
            PiperThread.state_ready [])) =
    [ PiperThread.StateHandler _ _ _ "first" PiperThread.state_busy;
      PiperThread.StateHandler _ _ _ "second" PiperThread.state_busy ].
Proof.
  destruct (handlers_called_in_bind_order string unit unit
              [ (PiperThread.state_changed, "first");
                (PiperThread.bookmark_reached, "marks");
                (PiperThread.state_changed, "second") ]
              PiperThread.state_busy PiperThread.state_ready "mark" [])
    as [H _].
  destruct (H eq_refl eq_refl) as (eh & Hb & Hs & _).
  exists eh. split; [exact Hb | exact Hs].
Defined.

(** ** The background thread *)

Section ThreadFacts.

Variable Handler : Type.
Variable SpeechOptions : Type.
Variable TtsState : Type.
Variable PiperTask : Type.
Variable Player : Type.
Variable DEFAULT_VOLUME : Z.
Variable get_voice : Piper.Tts SpeechOptions TtsState -> option string.
Variable set_voice :
  string -> Piper.Tts SpeechOptions TtsState -> Piper.Tts SpeechOptions TtsState.
Variable get_pitch get_rate get_volume :
  Piper.Tts SpeechOptions TtsState -> option Z.
Variable set_pitch set_rate set_volume :
  Z -> Piper.Tts SpeechOptions TtsState -> Piper.Tts SpeechOptions TtsState.
Variable create_speech_task :
  Piper.Tts SpeechOptions TtsState -> string -> PiperTask.
Variable create_bookmark_task :
  Piper.Tts SpeechOptions TtsState -> string -> PiperTask.
Variable create_break_task :
  Piper.Tts SpeechOptions TtsState -> Z -> PiperTask.
Variable audio_uri_to_filepath : string -> string.
Variable task_kind : PiperTask -> PiperThread.TaskKind.

Lemma speak_element_queued (element : Piper.SpeechElement)
    (loc : Piper.Locals)
    (eng : Piper.Engine SpeechOptions TtsState PiperTask Player) :
  let st :=
    Piper.speak_element SpeechOptions TtsState PiperTask Player
      DEFAULT_VOLUME get_voice set_voice get_pitch get_rate get_volume
      set_pitch set_rate set_volume create_speech_task create_bookmark_task
      create_break_task audio_uri_to_filepath element (loc, eng) in
  Piper.player _ _ _ _ (snd st) = Piper.player _ _ _ _ eng /\
  exists items,
    Piper.bgQueue _ _ _ _ (snd st) = Piper.bgQueue _ _ _ _ eng ++ items /\
    queued_for SpeechOptions TtsState PiperTask Player create_speech_task
      create_bookmark_task create_break_task audio_uri_to_filepath
      (Piper.player _ _ _ _ eng) element items.
Proof.
  destruct loc as [[[|c s]|] [[op orate] ovol]];
    destruct element; cbn [Piper.speak_element];
    try (destruct (Piper.strips_to_nothing content) eqn:E);
    try (destruct (Piper.pause_lookup content =? 0) eqn:E;
         [apply Z.eqb_eq in E | apply Z.eqb_neq in E]);
    cbn; (split; [reflexivity|]);
    first
      [ exists []; split; [symmetry; apply app_nil_r|];
        solve [econstructor; first [assumption | reflexivity]]
      | eexists; split; [reflexivity|];
        solve [econstructor; first [assumption | reflexivity]] ].
Qed.

Lemma speak_loop_queued (utterance : list Piper.SpeechElement) :
  forall (loc : Piper.Locals)
         (eng : Piper.Engine SpeechOptions TtsState PiperTask Player),
    let st :=
      fold_left
        (fun st element =>
           Piper.speak_element SpeechOptions TtsState PiperTask Player
             DEFAULT_VOLUME get_voice set_voice get_pitch get_rate get_volume
             set_pitch set_rate set_volume create_speech_task
             create_bookmark_task create_break_task audio_uri_to_filepath
             element st)
        utterance (loc, eng) in
    Piper.player _ _ _ _ (snd st) = Piper.player _ _ _ _ eng /\
    exists items,
      Piper.bgQueue _ _ _ _ (snd st) = Piper.bgQueue _ _ _ _ eng ++ items /\
      queued_for_all SpeechOptions TtsState PiperTask Player create_speech_task
        create_bookmark_task create_break_task audio_uri_to_filepath
        (Piper.player _ _ _ _ eng) utterance items.
Proof.
  induction utterance as [|element utterance IH]; intros loc eng.
  - cbn. split; [reflexivity|]. exists []. rewrite app_nil_r.
    split; [reflexivity | constructor].
  - cbn [fold_left].
    pose proof (speak_element_queued element loc eng) as Hstep.
    cbv zeta in Hstep.
    destruct (Piper.speak_element _ _ _ _ _ _ _ _ _ _ _ _ _ _ _ _ _ element
                (loc, eng)) as [loc1 eng1].
    cbn [snd] in Hstep. destruct Hstep as (Hp & items1 & Hq & Hf).
    specialize (IH loc1 eng1). cbv zeta in IH |- *.
    destruct IH as (Hp' & items & Hq' & Hf').
    rewrite Hp', Hp. split; [reflexivity|].
    exists (items1 ++ items). rewrite Hq', Hq, <- app_assoc.
    split; [reflexivity|].
    constructor; [exact Hf|]. rewrite <- Hp. exact Hf'.
Qed.

Lemma speak_utterance_queued (utterance : list Piper.SpeechElement)
    (eng : Piper.Engine SpeechOptions TtsState PiperTask Player) :
  exists items,
    Piper.bgQueue _ _ _ _
      (Piper.speak_utterance SpeechOptions TtsState PiperTask Player
         DEFAULT_VOLUME get_voice set_voice get_pitch get_rate get_volume
         set_pitch set_rate set_volume create_speech_task create_bookmark_task
         create_break_task audio_uri_to_filepath utterance eng) =
      Piper.bgQueue _ _ _ _ eng ++ items
        ++ [Piper.DoneSpeaking _ _ (Piper.player _ _ _ _ eng)] /\
    queued_for_all SpeechOptions TtsState PiperTask Player create_speech_task
      create_bookmark_task create_break_task audio_uri_to_filepath
      (Piper.player _ _ _ _ eng) utterance items.
Proof.
  unfold Piper.speak_utterance.
  pose proof (speak_loop_queued utterance
                (Piper.mkLocals None (None, None, None))
                (Piper.mkEngine _ _ _ _ (Piper.tts _ _ _ _ eng)
                   (Piper.bgQueue _ _ _ _ eng) (Piper.player _ _ _ _ eng)
                   false)) as H.
  cbv zeta in H. cbn [Piper.tts Piper.bgQueue Piper.player] in *.
  destruct (fold_left _ utterance _) as [loc1 eng1].
  cbn [snd Piper.player Piper.bgQueue] in H.
  destruct H as (Hp & items & Hq & Hf).
  exists items. cbn. rewrite Hp, Hq, <- app_assoc. split; [reflexivity|exact Hf].
Qed.

Lemma run_app (silence : bool)
    (a b : list (Piper.QueueItem PiperTask Player))
    (sink : PiperThread.EventSink Handler PiperTask Player) :
  PiperThread.run _ _ _ task_kind silence (a ++ b) sink =
  PiperThread.run _ _ _ task_kind silence b
    (PiperThread.run _ _ _ task_kind silence a sink).
Proof. unfold PiperThread.run. apply fold_left_app. Qed.

Lemma run_done_ready (silence : bool) (p : Player)
    (sink : PiperThread.EventSink Handler PiperTask Player) :
  PiperThread._state _ _ _
    (PiperThread.run _ _ _ task_kind silence [Piper.DoneSpeaking _ _ p] sink) =
  PiperThread.state_ready.
Proof.
  unfold PiperThread.run. cbn [fold_left PiperThread.run_task].
  apply on_state_changed_ready.
Qed.

(** X15.  When the background thread has worked through the queue that
    [speak_utterance] leaves, the state of the sink is [ready]: this
    holds for every utterance, for whatever was on the queue before, for a
    live and for a dead engine, and whether or not the silence event was
    set in between. *)
Theorem worker_ends_ready (utterance : list Piper.SpeechElement)
    (eng : Piper.Engine SpeechOptions TtsState PiperTask Player)
    (silence : bool)
    (sink : PiperThread.EventSink Handler PiperTask Player) :
  PiperThread._state _ _ _
    (PiperThread.run _ _ _ task_kind silence
       (Piper.bgQueue _ _ _ _
          (Piper.speak_utterance SpeechOptions TtsState PiperTask Player
             DEFAULT_VOLUME get_voice set_voice get_pitch get_rate get_volume
             set_pitch set_rate set_volume create_speech_task
             create_bookmark_task create_break_task audio_uri_to_filepath
             utterance eng))
       sink) = PiperThread.state_ready.
Proof.
  destruct (speak_utterance_queued utterance eng) as (items & Hq & _).
  rewrite Hq, app_assoc, run_app. apply run_done_ready.
Qed.


Lemma told_states_app (a b : list (PiperThread.Effect Handler PiperTask Player)) :
  PiperThread.told_states (a ++ b) =
  PiperThread.told_states a ++ PiperThread.told_states b.
Proof. unfold PiperThread.told_states. apply flat_map_app. Qed.

Lemma told_bookmarks_app
    (a b : list (PiperThread.Effect Handler PiperTask Player)) :
  PiperThread.told_bookmarks (a ++ b) =
  PiperThread.told_bookmarks a ++ PiperThread.told_bookmarks b.
Proof. unfold PiperThread.told_bookmarks. apply flat_map_app. Qed.

Lemma told_states_notes (state : PiperThread.SynthState)
    (handlers : list Handler) :
  PiperThread.told_states
    (map (fun handler =>
            PiperThread.StateHandler Handler PiperTask Player handler state)
         handlers) =
  map (fun handler => (handler, state)) handlers.
Proof.
  induction handlers as [|h handlers IH]; [reflexivity|].
  cbn. f_equal. exact IH.
Qed.

Lemma told_states_marks (bookmark : string) (handlers : list Handler) :
  PiperThread.told_states
    (map (fun handler =>
            PiperThread.BookmarkHandler Handler PiperTask Player handler
              bookmark)
         handlers) = [].
Proof. induction handlers as [|h handlers IH]; [reflexivity|]. exact IH. Qed.

Lemma told_bookmarks_notes (state : PiperThread.SynthState)
    (handlers : list Handler) :
  PiperThread.told_bookmarks
    (map (fun handler =>
            PiperThread.StateHandler Handler PiperTask Player handler state)
         handlers) = [].
Proof. induction handlers as [|h handlers IH]; [reflexivity|]. exact IH. Qed.

Lemma told_bookmarks_marks (bookmark : string) (handlers : list Handler) :
  PiperThread.told_bookmarks
    (map (fun handler =>
            PiperThread.BookmarkHandler Handler PiperTask Player handler
              bookmark)
         handlers) =
  map (fun handler => (handler, bookmark)) handlers.
Proof.
  induction handlers as [|h handlers IH]; [reflexivity|].
  cbn. f_equal. exact IH.
Qed.

Lemma on_state_changed_told (state : PiperThread.SynthState)
    (sink : PiperThread.EventSink Handler PiperTask Player)
    (event_handlers : PiperThread.EventHandlers Handler) :
  PiperThread.synthref _ _ _ sink = Some event_handlers ->
  let sink' := PiperThread.on_state_changed _ _ _ state sink in
  PiperThread.synthref _ _ _ sink' = Some event_handlers /\
  PiperThread._state _ _ _ sink' = state /\
  PiperThread.told_states (PiperThread.effects _ _ _ sink') =
    PiperThread.told_states (PiperThread.effects _ _ _ sink) ++
    (if PiperThread.state_eqb state (PiperThread._state _ _ _ sink) then []
     else map (fun handler => (handler, state))
              (event_handlers PiperThread.state_changed)) /\
  PiperThread.told_bookmarks (PiperThread.effects _ _ _ sink') =
    PiperThread.told_bookmarks (PiperThread.effects _ _ _ sink).
Proof.
  intros Hs. cbv zeta. unfold PiperThread.on_state_changed. rewrite Hs.
  destruct (PiperThread.state_eqb state (PiperThread._state _ _ _ sink)) eqn:E.
  - apply state_eqb_eq in E. rewrite app_nil_r. auto.
  - cbn [PiperThread.effect PiperThread.set_state PiperThread.effects
         PiperThread._state PiperThread.synthref].
    rewrite told_states_app, told_bookmarks_app, told_states_notes,
      told_bookmarks_notes, app_nil_r. auto.
Qed.

Lemma process_task_states (task : option PiperTask) (p : Player)
    (sink : PiperThread.EventSink Handler PiperTask Player)
    (event_handlers : PiperThread.EventHandlers Handler) :
  PiperThread.synthref _ _ _ sink = Some event_handlers ->
  let sink' :=
    PiperThread.run_task _ _ _ task_kind false
      (Piper.ProcessPiperTask _ _ task p) sink in
  PiperThread.synthref _ _ _ sink' = Some event_handlers /\
  PiperThread._state _ _ _ sink' = PiperThread.state_busy /\
  PiperThread.told_states (PiperThread.effects _ _ _ sink') =
    PiperThread.told_states (PiperThread.effects _ _ _ sink) ++
    (if PiperThread.state_eqb PiperThread.state_busy
          (PiperThread._state _ _ _ sink) then []
     else map (fun handler => (handler, PiperThread.state_busy))
              (event_handlers PiperThread.state_changed)).
Proof.
  intros Hs. cbv zeta. cbn [PiperThread.run_task].
  destruct (on_state_changed_told PiperThread.state_busy sink event_handlers Hs)
    as (H1 & H2 & H3 & _).
  destruct task as [t|]; [destruct (task_kind t)|]; auto.
  - cbn [PiperThread.effect PiperThread.effects PiperThread.synthref
         PiperThread._state].
    rewrite told_states_app, H3. cbn. rewrite app_nil_r. auto.
  - unfold PiperThread.on_bookmark_reached. rewrite H1.
    cbn [PiperThread.effect PiperThread.effects PiperThread.synthref
         PiperThread._state].
    rewrite told_states_app, told_states_marks, app_nil_r. auto.
Qed.

Lemma queued_for_states (p : Player) (element : Piper.SpeechElement)
    (items : list (Piper.QueueItem PiperTask Player))
    (sink : PiperThread.EventSink Handler PiperTask Player)
    (event_handlers : PiperThread.EventHandlers Handler) :
  queued_for SpeechOptions TtsState PiperTask Player create_speech_task
    create_bookmark_task create_break_task audio_uri_to_filepath
    p element items ->
  PiperThread.synthref _ _ _ sink = Some event_handlers ->
  let sink' := PiperThread.run _ _ _ task_kind false items sink in
  PiperThread.synthref _ _ _ sink' = Some event_handlers /\
  PiperThread._state _ _ _ sink' =
    (if queues_task element then PiperThread.state_busy
     else PiperThread._state _ _ _ sink) /\
  PiperThread.told_states (PiperThread.effects _ _ _ sink') =
    PiperThread.told_states (PiperThread.effects _ _ _ sink) ++
    (if queues_task element
     then if PiperThread.state_eqb PiperThread.state_busy
               (PiperThread._state _ _ _ sink) then []
          else map (fun handler => (handler, PiperThread.state_busy))
                   (event_handlers PiperThread.state_changed)
     else []).
Proof.
  intros Hq Hs. cbv zeta. unfold PiperThread.run.
  destruct Hq as [c Hc|c Hc|c t Hc|c t Hc|name t|c t Hc|c Hc|el Hel| |uri];
    cbn [fold_left queues_task queues_item];
    rewrite ?Hc; cbn [negb];
    try (apply process_task_states; exact Hs);
    try (rewrite app_nil_r; auto; fail).
  - destruct el; try discriminate; cbn [queues_task queues_item];
      apply process_task_states; exact Hs.
  - cbn [PiperThread.run_task PiperThread.effect PiperThread.effects
         PiperThread.synthref PiperThread._state].
    rewrite told_states_app. cbn. rewrite !app_nil_r. auto.
Qed.

Lemma queued_for_all_states (p : Player)
    (utterance : list Piper.SpeechElement)
    (items : list (Piper.QueueItem PiperTask Player)) :
  queued_for_all SpeechOptions TtsState PiperTask Player create_speech_task
    create_bookmark_task create_break_task audio_uri_to_filepath
    p utterance items ->
  forall (sink : PiperThread.EventSink Handler PiperTask Player)
         (event_handlers : PiperThread.EventHandlers Handler),
    PiperThread.synthref _ _ _ sink = Some event_handlers ->
    let sink' := PiperThread.run _ _ _ task_kind false items sink in
    PiperThread.synthref _ _ _ sink' = Some event_handlers /\
    PiperThread._state _ _ _ sink' =
      (if existsb queues_task utterance then PiperThread.state_busy
       else PiperThread._state _ _ _ sink) /\
    PiperThread.told_states (PiperThread.effects _ _ _ sink') =
      PiperThread.told_states (PiperThread.effects _ _ _ sink) ++
      (if existsb queues_task utterance
       then if PiperThread.state_eqb PiperThread.state_busy
                 (PiperThread._state _ _ _ sink) then []
            else map (fun handler => (handler, PiperThread.state_busy))
                     (event_handlers PiperThread.state_changed)
       else []).
Proof.
  induction 1 as [|element utterance items rest Hel Hall IH];
    intros sink event_handlers Hs; cbv zeta.
  - cbn. rewrite app_nil_r. auto.
  - rewrite run_app.
    destruct (queued_for_states p element items sink event_handlers Hel Hs)
      as (H1 & H2 & H3).
    destruct (IH _ event_handlers H1) as (H1' & H2' & H3').
    rewrite H1', H2', H3', H2, H3. cbn [existsb].
    destruct (queues_task element); cbn [orb].
    + cbn [PiperThread.state_eqb].
      destruct (existsb queues_task utterance); rewrite !app_nil_r; auto.
    + rewrite app_nil_r. auto.
Qed.

Lemma speak_utterance_silence (utterance : list Piper.SpeechElement)
    (eng : Piper.Engine SpeechOptions TtsState PiperTask Player) :
  Piper.silence_event _ _ _ _
    (Piper.speak_utterance SpeechOptions TtsState PiperTask Player
       DEFAULT_VOLUME get_voice set_voice get_pitch get_rate get_volume
       set_pitch set_rate set_volume create_speech_task create_bookmark_task
       create_break_task audio_uri_to_filepath utterance eng) = false.
Proof.
  unfold Piper.speak_utterance.
  pose proof (speak_loop_queue SpeechOptions TtsState PiperTask Player
                DEFAULT_VOLUME get_voice set_voice get_pitch get_rate
                get_volume set_pitch set_rate set_volume create_speech_task
                create_bookmark_task create_break_task audio_uri_to_filepath
                utterance (Piper.mkLocals None (None, None, None))
                (Piper.mkEngine _ _ _ _ (Piper.tts _ _ _ _ eng)
                   (Piper.bgQueue _ _ _ _ eng) (Piper.player _ _ _ _ eng)
                   false)) as H.
  cbv zeta in H. cbn [Piper.tts Piper.bgQueue Piper.player] in *.
  destruct (fold_left _ utterance _) as [loc1 eng1].
  cbn [snd Piper.silence_event] in H. destruct H as (_ & Hs & _).
  cbn. exact Hs.
Qed.

(** X17.  What the handlers of [state_changed] hear of an utterance: when
    the queue is empty, the engine alive and the sink [ready], and the
    background thread works through what [speak_utterance] queued, every
    handler is told [busy] once and then [ready] once if the utterance has
    an element that queues a task for the player, and nothing at all if it
    has none (only audio files, or text that strips to nothing). *)
Theorem utterance_tells_busy_then_ready
    (utterance : list Piper.SpeechElement)
    (eng : Piper.Engine SpeechOptions TtsState PiperTask Player)
    (sink : PiperThread.EventSink Handler PiperTask Player)
    (event_handlers : PiperThread.EventHandlers Handler) :
  Piper.bgQueue _ _ _ _ eng = [] ->
  PiperThread.synthref _ _ _ sink = Some event_handlers ->
  PiperThread._state _ _ _ sink = PiperThread.state_ready ->
  let eng' :=
    Piper.speak_utterance SpeechOptions TtsState PiperTask Player
      DEFAULT_VOLUME get_voice set_voice get_pitch get_rate get_volume
      set_pitch set_rate set_volume create_speech_task create_bookmark_task
      create_break_task audio_uri_to_filepath utterance eng in
  PiperThread.told_states
    (PiperThread.effects _ _ _
       (PiperThread.run _ _ _ task_kind (Piper.silence_event _ _ _ _ eng')
          (Piper.bgQueue _ _ _ _ eng') sink)) =
  PiperThread.told_states (PiperThread.effects _ _ _ sink) ++
  (if existsb queues_task utterance
   then map (fun handler => (handler, PiperThread.state_busy))
            (event_handlers PiperThread.state_changed)
        ++ map (fun handler => (handler, PiperThread.state_ready))
               (event_handlers PiperThread.state_changed)
   else []).
Proof.
  intros Hq Hs Hr. cbv zeta. rewrite speak_utterance_silence.
  destruct (speak_utterance_queued utterance eng) as (items & Hq' & Hall).
  rewrite Hq', Hq. cbn [app]. rewrite run_app.
  destruct (queued_for_all_states _ _ _ Hall sink event_handlers Hs)
    as (H1 & H2 & H3).
  unfold PiperThread.run at 1. cbn [fold_left PiperThread.run_task].
  match goal with
  | |- context [PiperThread.on_state_changed _ _ _ _ ?s] =>
      destruct (on_state_changed_told PiperThread.state_ready s event_handlers)
        as (_ & _ & H4 & _); [exact H1|]
  end.
  rewrite H4.
  cbn [PiperThread.effect PiperThread.effects PiperThread._state].
  rewrite told_states_app, H3, H2, Hr. cbn [PiperThread.state_eqb].
  cbn [PiperThread.told_states flat_map app].
  destruct (existsb queues_task utterance); cbn [PiperThread.state_eqb];
    rewrite ?app_nil_r, <- ?app_assoc; reflexivity.
Qed.

Section Bookmarks.

Hypothesis bookmark_task_kind :
  forall t name,
    task_kind (create_bookmark_task t name) = PiperThread.BookmarkTask name.
Hypothesis speech_task_kind :
  forall t content,
    PiperThread.is_bookmark_task (task_kind (create_speech_task t content))
    = false.
Hypothesis break_task_kind :
  forall t value,
    PiperThread.is_bookmark_task (task_kind (create_break_task t value))
    = false.

Lemma process_task_bookmarks (task : option PiperTask) (p : Player)
    (sink : PiperThread.EventSink Handler PiperTask Player)
    (event_handlers : PiperThread.EventHandlers Handler) :
  PiperThread.synthref _ _ _ sink = Some event_handlers ->
  let sink' :=
    PiperThread.run_task _ _ _ task_kind false
      (Piper.ProcessPiperTask _ _ task p) sink in
  PiperThread.synthref _ _ _ sink' = Some event_handlers /\
  PiperThread.told_bookmarks (PiperThread.effects _ _ _ sink') =
    PiperThread.told_bookmarks (PiperThread.effects _ _ _ sink) ++
    match task with
    | Some t =>
        match task_kind t with
        | PiperThread.BookmarkTask name =>
            map (fun handler => (handler, name))
                (event_handlers PiperThread.bookmark_reached)
        | _ => []
        end
    | None => []
    end.
Proof.
  intros Hs. cbv zeta. cbn [PiperThread.run_task].
  destruct (on_state_changed_told PiperThread.state_busy sink event_handlers Hs)
    as (H1 & _ & _ & H4).
  destruct task as [t|]; [destruct (task_kind t)|].
  - cbn [PiperThread.effect PiperThread.effects PiperThread.synthref].
    rewrite told_bookmarks_app, H4. cbn. auto.
  - unfold PiperThread.on_bookmark_reached. rewrite H1.
    cbn [PiperThread.effect PiperThread.effects PiperThread.synthref].
    rewrite told_bookmarks_app, told_bookmarks_marks, H4. auto.
  - rewrite app_nil_r. auto.
  - rewrite app_nil_r. auto.
Qed.

Lemma queued_for_bookmarks (p : Player) (element : Piper.SpeechElement)
    (items : list (Piper.QueueItem PiperTask Player))
    (sink : PiperThread.EventSink Handler PiperTask Player)
    (event_handlers : PiperThread.EventHandlers Handler) :
  queued_for SpeechOptions TtsState PiperTask Player create_speech_task
    create_bookmark_task create_break_task audio_uri_to_filepath
    p element items ->
  PiperThread.synthref _ _ _ sink = Some event_handlers ->
  let sink' := PiperThread.run _ _ _ task_kind false items sink in
  PiperThread.synthref _ _ _ sink' = Some event_handlers /\
  PiperThread.told_bookmarks (PiperThread.effects _ _ _ sink') =
    PiperThread.told_bookmarks (PiperThread.effects _ _ _ sink) ++
    flat_map (fun name => map (fun handler => (handler, name))
                              (event_handlers PiperThread.bookmark_reached))
             (bookmark_names [element]).
Proof.
  intros Hq Hs. cbv zeta. unfold PiperThread.run.
  destruct Hq as [c Hc|c Hc|c t Hc|c t Hc|name t|c t Hc|c Hc|el Hel| |uri];
    cbn [fold_left bookmark_names flat_map app];
    try (rewrite app_nil_r; auto; fail).
  1,2: destruct (process_task_bookmarks
                   (Some (create_speech_task t c)) p sink event_handlers Hs)
         as (H1 & H2);
       split; [exact H1|]; rewrite H2;
       pose proof (speech_task_kind t c) as Hk;
       destruct (task_kind (create_speech_task t c)); auto; discriminate.
  - destruct (process_task_bookmarks
                (Some (create_bookmark_task t name)) p sink event_handlers Hs)
      as (H1 & H2).
    split; [exact H1|]. rewrite H2, bookmark_task_kind, app_nil_r. reflexivity.
  - destruct (process_task_bookmarks
                (Some (create_break_task t (Piper.pause_lookup c))) p sink
                event_handlers Hs) as (H1 & H2).
    split; [exact H1|]. rewrite H2.
    pose proof (break_task_kind t (Piper.pause_lookup c)) as Hk.
    destruct (task_kind (create_break_task t (Piper.pause_lookup c)));
      auto; discriminate.
  - destruct (process_task_bookmarks None p sink event_handlers Hs)
      as (H1 & H2). auto.
  - destruct (process_task_bookmarks None p sink event_handlers Hs)
      as (H1 & H2).
    split; [exact H1|]. rewrite H2.
    destruct el; try discriminate; reflexivity.
  - destruct (process_task_bookmarks None p sink event_handlers Hs)
      as (H1 & H2). auto.
  - cbn [PiperThread.run_task PiperThread.effect PiperThread.effects
         PiperThread.synthref].
    rewrite told_bookmarks_app. cbn. auto.
Qed.

Lemma bookmark_names_cons (element : Piper.SpeechElement)
    (utterance : list Piper.SpeechElement) :
  bookmark_names (element :: utterance) =
  bookmark_names [element] ++ bookmark_names utterance.
Proof.
  unfold bookmark_names. cbn [flat_map]. rewrite app_nil_r. reflexivity.
Qed.

Lemma queued_for_all_bookmarks (p : Player)
    (utterance : list Piper.SpeechElement)
    (items : list (Piper.QueueItem PiperTask Player)) :
  queued_for_all SpeechOptions TtsState PiperTask Player create_speech_task
    create_bookmark_task create_break_task audio_uri_to_filepath
    p utterance items ->
  forall (sink : PiperThread.EventSink Handler PiperTask Player)
         (event_handlers : PiperThread.EventHandlers Handler),
    PiperThread.synthref _ _ _ sink = Some event_handlers ->
    let sink' := PiperThread.run _ _ _ task_kind false items sink in
    PiperThread.synthref _ _ _ sink' = Some event_handlers /\
    PiperThread.told_bookmarks (PiperThread.effects _ _ _ sink') =
      PiperThread.told_bookmarks (PiperThread.effects _ _ _ sink) ++
      flat_map (fun name => map (fun handler => (handler, name))
                                (event_handlers PiperThread.bookmark_reached))
               (bookmark_names utterance).
Proof.
  induction 1 as [|element utterance items rest Hel Hall IH];
    intros sink event_handlers Hs; cbv zeta.
  - cbn. rewrite app_nil_r. auto.
  - rewrite run_app.
    destruct (queued_for_bookmarks p element items sink event_handlers Hel Hs)
      as (H1 & H2).
    destruct (IH _ event_handlers H1) as (H1' & H2').
    split; [exact H1'|].
    rewrite H2', H2, (bookmark_names_cons element utterance), flat_map_app,
      app_assoc.
    reflexivity.
Qed.

(** X18.  The bookmarks of an utterance reach the handlers in order:
    when the queue is empty and the engine alive, and a bookmark task is
    what [create_bookmark_task] makes and nothing else is one, the
    background thread working through what [speak_utterance] queued
    reports to the handlers of [bookmark_reached] exactly the bookmark
    elements of the utterance, in the order of the utterance, each to
    every handler in the order of the handlers. *)
Theorem utterance_reports_bookmarks_in_order
    (utterance : list Piper.SpeechElement)
    (eng : Piper.Engine SpeechOptions TtsState PiperTask Player)
    (sink : PiperThread.EventSink Handler PiperTask Player)
    (event_handlers : PiperThread.EventHandlers Handler) :
  Piper.bgQueue _ _ _ _ eng = [] ->
  PiperThread.synthref _ _ _ sink = Some event_handlers ->
  let eng' :=
    Piper.speak_utterance SpeechOptions TtsState PiperTask Player
      DEFAULT_VOLUME get_voice set_voice get_pitch get_rate get_volume
      set_pitch set_rate set_volume create_speech_task create_bookmark_task
      create_break_task audio_uri_to_filepath utterance eng in
  PiperThread.told_bookmarks
    (PiperThread.effects _ _ _
       (PiperThread.run _ _ _ task_kind (Piper.silence_event _ _ _ _ eng')
          (Piper.bgQueue _ _ _ _ eng') sink)) =
  PiperThread.told_bookmarks (PiperThread.effects _ _ _ sink) ++
  flat_map (fun name => map (fun handler => (handler, name))
                            (event_handlers PiperThread.bookmark_reached))
           (bookmark_names utterance).
Proof.
  intros Hq Hs. cbv zeta. rewrite speak_utterance_silence.
  destruct (speak_utterance_queued utterance eng) as (items & Hq' & Hall).
  rewrite Hq', Hq. cbn [app]. rewrite run_app.
  destruct (queued_for_all_bookmarks _ _ _ Hall sink event_handlers Hs)
    as (H1 & H2).
  unfold PiperThread.run at 1. cbn [fold_left PiperThread.run_task].
  match goal with
  | |- context [PiperThread.on_state_changed _ _ _ _ ?s] =>
      destruct (on_state_changed_told PiperThread.state_ready s event_handlers)
        as (_ & _ & _ & H4); [exact H1|]
  end.
  rewrite H4.
  cbn [PiperThread.effect PiperThread.effects].
  rewrite told_bookmarks_app, H2. cbn. rewrite app_nil_r. reflexivity.
Qed.

End Bookmarks.

End ThreadFacts.

Lemma utterance_tells_busy_then_ready_witness :
  PiperThread.told_states
    (PiperThread.effects _ _ _
       (kind_run [Piper.text "Hello"; Piper.bookmark "b1"; Piper.text "..."])) =
  [ ("first", PiperThread.state_busy); ("second", PiperThread.state_busy);
    ("first", PiperThread.state_ready); ("second", PiperThread.state_ready) ].
Proof.
  apply (utterance_tells_busy_then_ready string string unit
           PiperThread.TaskKind unit 50
           (fun t => Some (Piper.speech_options _ _ t))
           (fun voice_id t => Piper.mkTts _ _ voice_id (Piper.tts_state _ _ t))
           (fun _ => None) (fun _ => None) (fun _ => None)
           (fun _ t => t) (fun _ t => t) (fun _ t => t)
           (fun _ _ => PiperThread.AudioTask)
           (fun _ name => PiperThread.BookmarkTask name)
           (fun _ _ => PiperThread.AudioTask)
           (fun uri => uri) (fun k => k)
           [Piper.text "Hello"; Piper.bookmark "b1"; Piper.text "..."]
           kind_engine_amy
           (PiperThread.mkEventSink _ _ _ (Some two_handlers)
              PiperThread.state_ready [])
           two_handlers);
    reflexivity.
Defined.

Lemma utterance_reports_bookmarks_in_order_witness :
  PiperThread.told_bookmarks
    (PiperThread.effects _ _ _
       (kind_run [Piper.bookmark "b1"; Piper.text "Hello";
                  Piper.bookmark "b2"])) =
  [("marks", "b1"); ("marks", "b2")].
Proof.
  apply (utterance_reports_bookmarks_in_order string string unit
           PiperThread.TaskKind unit 50
           (fun t => Some (Piper.speech_options _ _ t))
           (fun voice_id t => Piper.mkTts _ _ voice_id (Piper.tts_state _ _ t))
           (fun _ => None) (fun _ => None) (fun _ => None)
           (fun _ t => t) (fun _ t => t) (fun _ t => t)
           (fun _ _ => PiperThread.AudioTask)
           (fun _ name => PiperThread.BookmarkTask name)
           (fun _ _ => PiperThread.AudioTask)
           (fun uri => uri) (fun k => k)
           (fun _ _ => eq_refl) (fun _ _ => eq_refl) (fun _ _ => eq_refl)
           [Piper.bookmark "b1"; Piper.text "Hello"; Piper.bookmark "b2"]
           kind_engine_amy
           (PiperThread.mkEventSink _ _ _ (Some two_handlers)
              PiperThread.state_ready [])
           two_handlers);
    reflexivity.
Defined.

(** ** The players *)

Lemma lookup_app_found (sample_rate : Z)
    (d d' : list (Z * PiperPlayers.WavePlayer)) (p : PiperPlayers.WavePlayer) :
  PiperPlayers.lookup sample_rate d = Some p ->
  PiperPlayers.lookup sample_rate (d ++ d') = Some p.
Proof.
  induction d as [|[k q] d IH]; [discriminate|].
  cbn [PiperPlayers.lookup app]. destruct (k =? sample_rate); auto.
Qed.

Lemma lookup_app_missing (sample_rate : Z)
    (d d' : list (Z * PiperPlayers.WavePlayer)) :
  PiperPlayers.lookup sample_rate d = None ->
  PiperPlayers.lookup sample_rate (d ++ d') = PiperPlayers.lookup sample_rate d'.
Proof.
  induction d as [|[k q] d IH]; [reflexivity|].
  cbn [PiperPlayers.lookup app]. destruct (k =? sample_rate);
    [discriminate | auto].
Qed.

Lemma lookup_none (sample_rate : Z) (d : list (Z * PiperPlayers.WavePlayer)) :
  PiperPlayers.lookup sample_rate d = None <-> ~ In sample_rate (map fst d).
Proof.
  induction d as [|[k q] d IH]; cbn [PiperPlayers.lookup map fst In].
  - tauto.
  - destruct (k =? sample_rate) eqn:E.
    + apply Z.eqb_eq in E. split; [discriminate | tauto].
    + apply Z.eqb_neq in E. tauto.
Qed.

Lemma get_or_create_keeps (sample_rate other : Z) (ps : PiperPlayers.Players)
    (p : PiperPlayers.WavePlayer) :
  PiperPlayers.lookup sample_rate (PiperPlayers._players ps) = Some p ->
  PiperPlayers.lookup sample_rate
    (PiperPlayers._players
       (snd (PiperPlayers._get_or_create_player other ps))) = Some p.
Proof.
  intros H. unfold PiperPlayers._get_or_create_player.
  destruct (PiperPlayers.lookup other (PiperPlayers._players ps));
    cbn [snd PiperPlayers._players]; [exact H|].
  apply lookup_app_found. exact H.
Qed.

Lemma requests_keep (sample_rates : list Z) :
  forall (sample_rate : Z) (ps : PiperPlayers.Players)
         (p : PiperPlayers.WavePlayer),
    PiperPlayers.lookup sample_rate (PiperPlayers._players ps) = Some p ->
    PiperPlayers.lookup sample_rate
      (PiperPlayers._players (PiperPlayers.requests sample_rates ps)) = Some p.
Proof.
  induction sample_rates as [|other sample_rates IH]; intros sample_rate ps p H.
  - exact H.
  - unfold PiperPlayers.requests. cbn [fold_left].
    apply IH. apply get_or_create_keeps. exact H.
Qed.

(** X19.  A player once made for a sample rate is the player of that rate
    from then on: whatever other players are asked for in between,
    [_get_or_create_player] returns the very same object for the rate
    again, constructs nothing and leaves [self._players] as it is. *)
Theorem player_for_a_rate_is_kept (sample_rate : Z) (others : list Z)
    (ps : PiperPlayers.Players) :
  let first := PiperPlayers._get_or_create_player sample_rate ps in
  let later := PiperPlayers.requests others (snd first) in
  PiperPlayers._get_or_create_player sample_rate later = (fst first, later).
Proof.
  cbv zeta.
  assert (H : PiperPlayers.lookup sample_rate
                (PiperPlayers._players
                   (snd (PiperPlayers._get_or_create_player sample_rate ps)))
              = Some (fst (PiperPlayers._get_or_create_player sample_rate ps))).
  { unfold PiperPlayers._get_or_create_player.
    destruct (PiperPlayers.lookup sample_rate (PiperPlayers._players ps))
      eqn:E; cbn [fst snd PiperPlayers._players]; [exact E|].
    rewrite (lookup_app_missing _ _ _ E). cbn [PiperPlayers.lookup].
    rewrite Z.eqb_refl. reflexivity. }
  apply (requests_keep others) in H.
  unfold PiperPlayers._get_or_create_player at 1. rewrite H. reflexivity.
Qed.

(** What holds of the players at any time after [__init__]. *)
Lemma requests_invariant (sample_rates : list Z) :
  forall ps : PiperPlayers.Players,
    NoDup (map fst (PiperPlayers._players ps)) ->
    PiperPlayers.constructed ps = List.length (PiperPlayers._players ps) ->
    (forall k p, In (k, p) (PiperPlayers._players ps) ->
                 PiperPlayers.samplesPerSec p = k /\
                 PiperPlayers.channels p = 1 /\
                 PiperPlayers.bitsPerSample p = 16 /\
                 PiperPlayers.buffered p = true /\
                 (PiperPlayers.player_id p < PiperPlayers.constructed ps)%nat) ->
    NoDup (map (fun kp => PiperPlayers.player_id (snd kp))
               (PiperPlayers._players ps)) ->
    let ps' := PiperPlayers.requests sample_rates ps in
    NoDup (map fst (PiperPlayers._players ps')) /\
    PiperPlayers.constructed ps' = List.length (PiperPlayers._players ps') /\
    (forall k p, In (k, p) (PiperPlayers._players ps') ->
                 PiperPlayers.samplesPerSec p = k /\
                 PiperPlayers.channels p = 1 /\
                 PiperPlayers.bitsPerSample p = 16 /\
                 PiperPlayers.buffered p = true /\
                 (PiperPlayers.player_id p < PiperPlayers.constructed ps')%nat) /\
    NoDup (map (fun kp => PiperPlayers.player_id (snd kp))
               (PiperPlayers._players ps')) /\
    (forall k, In k (map fst (PiperPlayers._players ps')) <->
               In k (map fst (PiperPlayers._players ps)) \/ In k sample_rates).
Proof.
  induction sample_rates as [|r sample_rates IH];
    intros ps Hkeys Hcount Hmade Hids; cbv zeta.
  - cbn [PiperPlayers.requests fold_left In].
    split; [exact Hkeys|]. split; [exact Hcount|]. split; [exact Hmade|].
    split; [exact Hids|]. intros k. tauto.
  - unfold PiperPlayers.requests. cbn [fold_left].
    fold (PiperPlayers.requests sample_rates
            (snd (PiperPlayers._get_or_create_player r ps))).
    unfold PiperPlayers._get_or_create_player.
    destruct (PiperPlayers.lookup r (PiperPlayers._players ps)) eqn:E;
      cbn [snd].
    + destruct (IH ps Hkeys Hcount Hmade Hids) as (H1 & H2 & H3 & H4 & H5).
      split; [exact H1|]. split; [exact H2|]. split; [exact H3|].
      split; [exact H4|].
      intros k. rewrite H5. cbn [In]. split; [tauto|].
      intros [Hk|[Hk|Hk]]; auto. subst k. left.
      destruct (in_dec Z.eq_dec r (map fst (PiperPlayers._players ps)))
        as [Hin|Hout]; [exact Hin|].
      apply lookup_none in Hout. congruence.
    + apply lookup_none in E.
      destruct (IH (PiperPlayers.mkPlayers
                      (PiperPlayers._players ps
                         ++ [(r, PiperPlayers.mkWavePlayer
                                   (PiperPlayers.constructed ps) 1 r 16 true)])
                      (S (PiperPlayers.constructed ps))))
        as (H1 & H2 & H3 & H4 & H5); cbn [PiperPlayers._players
                                          PiperPlayers.constructed].
      * rewrite map_app. cbn [map fst].
        apply NoDup_app; [exact Hkeys | repeat constructor; auto |].
        intros k Hk [Hk'|[]]. subst k. contradiction.
      * rewrite length_app. cbn [List.length]. lia.
      * intros k p Hin. apply in_app_or in Hin as [Hin|[Hin|[]]].
        -- destruct (Hmade k p Hin) as (? & ? & ? & ? & ?).
           repeat split; auto.
        -- injection Hin as <- <-. cbn. repeat split; auto.
      * rewrite map_app. cbn [map snd PiperPlayers.player_id].
        apply NoDup_app; [exact Hids | repeat constructor; auto |].
        intros i Hi [Hi'|[]]. subst i.
        apply in_map_iff in Hi as ([k p] & Hp & Hin). cbn [snd] in Hp.
        destruct (Hmade k p Hin) as (_ & _ & _ & _ & Hlt). lia.
      * split; [exact H1|]. split; [exact H2|]. split; [exact H3|].
        split; [exact H4|].
        intros k. rewrite H5. cbn [PiperPlayers._players].
        rewrite map_app, in_app_iff. cbn [map fst In]. tauto.
Qed.

(** X20.  From the empty dict of [__init__], after players were asked for
    any sequence of sample rates, [self._players] holds exactly one player
    for every rate that was asked for and no other: the keys are distinct,
    the players are distinct objects, as many were constructed as there
    are keys, and the player of a rate is a mono, 16-bit, buffered player
    of that rate. *)
Theorem one_player_per_sample_rate (sample_rates : list Z) :
  let ps := PiperPlayers.requests sample_rates PiperPlayers.no_players in
  NoDup (map fst (PiperPlayers._players ps)) /\
  (forall k, In k (map fst (PiperPlayers._players ps)) <-> In k sample_rates) /\
  PiperPlayers.constructed ps = List.length (PiperPlayers._players ps) /\
  NoDup (map (fun kp => PiperPlayers.player_id (snd kp))
             (PiperPlayers._players ps)) /\
  (forall k p, In (k, p) (PiperPlayers._players ps) ->
               PiperPlayers.samplesPerSec p = k /\
               PiperPlayers.channels p = 1 /\
               PiperPlayers.bitsPerSample p = 16 /\
               PiperPlayers.buffered p = true).
Proof.
  cbv zeta.
  destruct (requests_invariant sample_rates PiperPlayers.no_players)
    as (H1 & H2 & H3 & H4 & H5).
  { constructor. }
  { reflexivity. }
  { intros k p []. }
  { constructor. }
  split; [exact H1|]. split.
  { intros k. rewrite H5. cbn. tauto. }
  split; [exact H2|]. split; [exact H4|].
  intros k p Hin. destruct (H3 k p Hin) as (? & ? & ? & ? & _). auto.
Qed.

(** ** Muting page and section speech *)

Section MuteFacts.

Variable Reader : Type.
Variable set_active_section : Section -> Shell Reader -> Shell Reader.
Variable go_to_first_of_section : Shell Reader -> Shell Reader.

(** X21.  [mute_page_and_section_speech] gives the two speech switches
    back: the body of the [with] statement runs with both switches off,
    and afterwards both have the values from before, whatever the body did
    to them and whether it returned or raised; everything else is as the
    body left it.  [onTOCItemClick] is this with the reader calls and
    [SetFocus] as the body, so a click leaves both switches as they were
    and the text control focused. *)
Theorem mute_restores_speech_switches {A : Type}
    (body : Shell Reader -> Shell Reader * result A) (sh : Shell Reader)
    (selected : Section) (v : View Reader) :
  let muted := set_speech_switches _ false false sh in
  let after := mute_page_and_section_speech Reader body sh in
  (speak_page_number _ muted = false /\
   speak_section_title _ muted = false) /\
  (speak_page_number _ (fst after) = speak_page_number _ sh /\
   speak_section_title _ (fst after) = speak_section_title _ sh) /\
  (snd after = snd (body muted) /\
   reader _ (fst after) = reader _ (fst (body muted)) /\
   insertion_point _ (fst after) = insertion_point _ (fst (body muted)) /\
   events _ (fst after) = events _ (fst (body muted)) /\
   content_focused _ (fst after) = content_focused _ (fst (body muted))) /\
  (shell _ (onTOCItemClick _ set_active_section go_to_first_of_section
              selected v) =
   fst (mute_page_and_section_speech Reader
          (fun sh => (SetFocus _ (go_to_first_of_section
                                    (set_active_section selected sh)),
                      Ok tt))
          (shell _ v)) /\
   speak_page_number _
     (shell _ (onTOCItemClick _ set_active_section go_to_first_of_section
                 selected v)) = speak_page_number _ (shell _ v) /\
   speak_section_title _
     (shell _ (onTOCItemClick _ set_active_section go_to_first_of_section
                 selected v)) = speak_section_title _ (shell _ v) /\
   content_focused _
     (shell _ (onTOCItemClick _ set_active_section go_to_first_of_section
                 selected v)) = true).
Proof.
  cbv zeta. unfold mute_page_and_section_speech.
  destruct (body (set_speech_switches Reader false false sh)) as [sh' outcome].
  cbn. repeat split.
Qed.

End MuteFacts.

(** ** Navigation backwards *)

Lemma remaining_before_decreases (elements : list SemanticElement)
    (requested : SemanticElementType) (from_position landing : Z)
    (el : SemanticElement) :
  In el elements ->
  qualifies requested false from_position el = true ->
  landing <= stop el ->
  (remaining_before elements requested landing
   < remaining_before elements requested from_position)%nat.
Proof.
  intros Hin Hq Hland. unfold remaining_before.
  apply (filter_length_lt _ _ _ el); [|exact Hin|exact Hq|].
  - intros x Hx. unfold qualifies in *.
    apply andb_prop in Hx. destruct Hx as [Hk Hx].
    apply andb_prop in Hq. destruct Hq as [_ Hq].
    apply Z.ltb_lt in Hx. apply Z.ltb_lt in Hq.
    rewrite Hk. simpl. apply Z.ltb_lt. lia.
  - unfold qualifies.
    replace (stop el <? landing) with false
      by (symmetry; apply Z.ltb_ge; lia).
    apply andb_false_r.
Qed.

Section ProgressBack.

Variable options : SemanticElementType -> string * bool * bool.
Variable lines : Z -> Z * Z.
Variable range_text : Z -> Z -> string.

Lemma retreats_within (element_type : SemanticElementType) (n : nat) :
  forall v : View PageReader,
    is_loaded (reader _ (shell _ v)) = true ->
    ranges_ok (page_elements (reader _ (shell _ v))) = true ->
    lands_within options lines (page_elements (reader _ (shell _ v))) = true ->
    (remaining_before (page_elements (reader _ (shell _ v))) element_type
       (get_insertion_point _ v) <= n)%nat ->
    exists k, (k <= n)%nat /\
              retreats options lines range_text element_type v k.
Proof.
  induction n as [|n IH]; intros v Hready Hok Hland Hrem;
    destruct (press_cases options lines range_text element_type false v
                Hready Hok)
      as (v' & Hrun & Hreader
          & [Hnone | (el & msg & Hin & Hk & Hbefore & Hpoint & Hev)]).
  - exists O. split; [lia|].
    apply (retreats_now _ _ _ _ v v' Hrun). eexists. exact Hnone.
  - assert (Hq : qualifies element_type false (get_insertion_point _ v) el
                 = true).
    { unfold qualifies. rewrite Hk. simpl. apply Z.ltb_lt. exact Hbefore. }
    pose proof (remaining_before_decreases _ _ _ (stop el) _ Hin Hq
                  (Z.le_refl _)).
    lia.
  - exists O. split; [lia|].
    apply (retreats_now _ _ _ _ v v' Hrun). eexists. exact Hnone.
  - assert (Hq : qualifies element_type false (get_insertion_point _ v) el
                 = true).
    { unfold qualifies. rewrite Hk. simpl. apply Z.ltb_lt. exact Hbefore. }
    assert (Hle : get_insertion_point _ v' <= stop el).
    { rewrite Hpoint. unfold lands_within in Hland.
      rewrite forallb_forall in Hland. apply Z.leb_le. apply Hland.
      exact Hin. }
    pose proof (remaining_before_decreases _ _ _ _ _ Hin Hq Hle) as Hdec.
    destruct (IH v') as (k & Hk' & Hret).
    + rewrite Hreader. exact Hready.
    + rewrite Hreader. exact Hok.
    + rewrite Hreader. exact Hland.
    + rewrite Hreader. lia.
    + exists (S k). split; [lia|].
      apply (retreats_later _ _ _ _ v v' k Hrun).
      * eexists _, _, _. exact Hev.
      * lia.
      * exact Hret.
Qed.

(** X22.  Going backward always ends.  On a page whose ranges have
    [start <= stop], where a match never leaves the insertion point after
    its own end (the start of a line is not after a position of the line),
    every backward call that announces a match moves the insertion point
    strictly back, also for the kinds that move to the start of the line,
    and after at most as many such calls as the page has elements a call
    finds nothing and announces that there is no previous element. *)
Theorem backward_navigation_ends (element_type : SemanticElementType)
    (v : View PageReader) :
  is_loaded (reader _ (shell _ v)) = true ->
  ranges_ok (page_elements (reader _ (shell _ v))) = true ->
  lands_within options lines (page_elements (reader _ (shell _ v))) = true ->
  exists k,
    (k <= List.length (page_elements (reader _ (shell _ v))))%nat /\
    retreats options lines range_text element_type v k.
Proof.
  intros Hready Hok Hland.
  destruct (retreats_within element_type
              (remaining_before (page_elements (reader _ (shell _ v)))
                 element_type (get_insertion_point _ v))
              v Hready Hok Hland (Nat.le_refl _)) as (k & Hle & Hret).
  exists k. split; [|exact Hret].
  unfold remaining_before in Hle.
  pose proof (filter_length_le
                (qualifies element_type false (get_insertion_point _ v))
                (page_elements (reader _ (shell _ v)))).
  lia.
Qed.

End ProgressBack.

Lemma backward_navigation_ends_witness :
  exists k, (k <= 2)%nat /\
            retreats line_options one_line no_text heading
              (view_at two_headings 20) k.
Proof.
  apply (backward_navigation_ends line_options one_line no_text heading
           (view_at two_headings 20)); reflexivity.
Defined.

(** ** Loading a document *)

Section LoaderFacts.

Variable Document : Type.
Variable gettext : string -> string.

(** X23.  [resolve_document] tells the user of a failure exactly once:
    when reading raises anything but [DecryptionRequired], one
    [notify_user] and then one [unloadCurrentEbook] are scheduled,
    whichever [except] clause caught it, and the function returns [None],
    or raises the exception again when [app.debug] is set.
    [DecryptionRequired] is passed on with nothing scheduled, a document
    that was read is returned with nothing scheduled, and the function
    itself never loads a document or asks for a password. *)
Theorem resolve_document_reports_once (debug : bool)
    (read_document : Document + ResourceLoader.Raised) :
  let r := ResourceLoader.resolve_document Document gettext debug
             read_document in
  let n := if ResourceLoader.failed read_document then 1%nat else 0%nat in
  List.length (filter (ResourceLoader.is_notify Document) (fst r)) = n /\
  List.length (filter (ResourceLoader.is_unload Document) (fst r)) = n /\
  (ResourceLoader.failed read_document = true ->
   List.last (fst r) (ResourceLoader.Callback Document) =
   ResourceLoader.UnloadCurrentEbook Document) /\
  (forall d, snd r = inl (Some d) <-> read_document = inl d) /\
  (snd r = inl None <->
   ResourceLoader.failed read_document = true /\ debug = false) /\
  (forall e, snd r = inr e <->
             read_document = inr e /\
             (e = ResourceLoader.DecryptionRequired \/ debug = true)) /\
  (forall d, ~ In (ResourceLoader.LoadDocument Document d) (fst r)) /\
  ~ In (ResourceLoader.DecryptDocument Document) (fst r).
Proof.
  cbv zeta. destruct read_document as [d'|[]], debug; cbn;
    unfold not; repeat split; intros;
    repeat match goal with
           | H : _ /\ _ |- _ => destruct H
           | H : _ \/ _ |- _ => destruct H
           | H : False |- _ => destruct H
           end;
    try discriminate; try congruence; auto;
    try (left; congruence).
Qed.


End LoaderFacts.

(** ** The text of a page *)

Lemma count_lf_app (a b : string) :
  FitzText.count_lf (a ++ b) =
  (FitzText.count_lf a + FitzText.count_lf b)%nat.
Proof.
  induction a as [|c a IH]; [reflexivity|].
  cbn [String.append FitzText.count_lf]. rewrite IH. lia.
Qed.

Lemma count_lf_replace (s : string) :
  FitzText.count_lf (FitzText.replace_newlines s) = 0%nat.
Proof.
  induction s as [|c s IH]; [reflexivity|].
  cbn [FitzText.replace_newlines FitzText.count_lf]. rewrite IH.
  destruct (Ascii.eqb c FitzText.LF) eqn:E; [reflexivity|].
  rewrite E. reflexivity.
Qed.

Lemma split_crlf_plain (t : string) :
  FitzText.count_lf t = 0%nat -> FitzText.split_crlf t = [t].
Proof.
  induction t as [|c t IH]; [reflexivity|].
  intros H. cbn [FitzText.count_lf] in H.
  assert (Ht : FitzText.count_lf t = 0%nat) by lia.
  specialize (IH Ht).
  cbn [FitzText.split_crlf]. destruct t as [|c' t'].
  - reflexivity.
  - cbn [FitzText.count_lf] in Ht.
    destruct (Ascii.eqb c' FitzText.LF) eqn:E; [discriminate|].
    rewrite andb_false_r, IH. reflexivity.
Qed.

Lemma split_crlf_piece (t : string) :
  forall s,
    FitzText.count_lf t = 0%nat ->
    FitzText.split_crlf (t ++ FitzText.CRLF ++ s) = t :: FitzText.split_crlf s.
Proof.
  induction t as [|c t IH]; intros s H.
  - reflexivity.
  - cbn [FitzText.count_lf] in H.
    assert (Ht : FitzText.count_lf t = 0%nat) by lia.
    specialize (IH s Ht).
    cbn [String.append FitzText.split_crlf].
    destruct t as [|c' t'].
    + cbn [String.append] in *. unfold FitzText.CRLF in *.
      cbn [String.append] in *.
      replace (Ascii.eqb FitzText.CR FitzText.LF) with false by reflexivity.
      rewrite andb_false_r, IH. reflexivity.
    + cbn [String.append] in *. cbn [FitzText.count_lf] in Ht.
      destruct (Ascii.eqb c' FitzText.LF) eqn:E; [discriminate|].
      rewrite andb_false_r, IH. reflexivity.
Qed.

(** X25.  The text of a page can be taken apart again: the blocks have
    their line feeds replaced by spaces and are joined by carriage return
    and line feed, so the text has one line feed for every block but the
    first, and splitting it at the separator gives back the blocks, each
    with its line feeds replaced, in order. *)
Theorem text_from_page_splits_into_blocks (blk : string) (bloks : list string) :
  FitzText.split_crlf (FitzText._text_from_page (blk :: bloks)) =
    map FitzText.replace_newlines (blk :: bloks) /\
  FitzText.count_lf (FitzText._text_from_page (blk :: bloks)) =
    List.length bloks /\
  FitzText._text_from_page [] = EmptyString.
Proof.
  split; [|split; [|reflexivity]].
  - revert blk. induction bloks as [|b bloks IH]; intros blk.
    + cbn. apply split_crlf_plain. apply count_lf_replace.
    + unfold FitzText._text_from_page in *.
      cbn [map String.concat] in *.
      rewrite split_crlf_piece by apply count_lf_replace.
      rewrite IH. reflexivity.
  - revert blk. induction bloks as [|b bloks IH]; intros blk.
    + cbn. apply count_lf_replace.
    + unfold FitzText._text_from_page in *.
      cbn [map String.concat List.length] in *.
      rewrite !count_lf_app, IH, count_lf_replace. reflexivity.
Qed.

(** ** The metadata *)

Lemma substring_prefix (stem rest : string) :
  String.substring 0 (String.length stem) (stem ++ rest) = stem.
Proof.
  induction stem as [|c stem IH]; cbn.
  - destruct rest; reflexivity.
  - rewrite IH. reflexivity.
Qed.

Lemma string_length_app (a b : string) :
  String.length (a ++ b) = (String.length a + String.length b)%nat.
Proof. induction a as [|c a IH]; cbn; [reflexivity | rewrite IH; reflexivity]. Qed.

Lemma substring_nothing (s : string) : String.substring 0 0 s = EmptyString.
Proof. destruct s; reflexivity. Qed.

(** X26.  The title of a document is the title of its metadata when that
    is a non-empty string, and otherwise the file name without its last
    four characters: a name that ends in a four-character extension gives
    the name without it, and a name of at most four characters gives the
    empty title.  Author and publication year are the empty string when
    the metadata has none. *)
Theorem metadata_title_fallback (basename stem ext : string)
    (meta_title meta_author meta_creationDate : option string) :
  let m := FitzMetadata.metadata basename meta_title meta_author
             meta_creationDate in
  (forall t, meta_title = Some t -> t <> EmptyString ->
             FitzMetadata.title m = t) /\
  (meta_title = None \/ meta_title = Some EmptyString ->
   (basename = (stem ++ ext)%string -> String.length ext = 4%nat ->
    FitzMetadata.title m = stem) /\
   ((String.length basename <= 4)%nat ->
    FitzMetadata.title m = EmptyString)) /\
  (meta_author = None -> FitzMetadata.author m = EmptyString) /\
  (meta_creationDate = None ->
   FitzMetadata.publication_year m = EmptyString).
Proof.
  cbv zeta. unfold FitzMetadata.metadata. cbn [FitzMetadata.title
    FitzMetadata.author FitzMetadata.publication_year].
  split; [|split; [|split]].
  - intros t -> Hne. destruct t; [congruence | reflexivity].
  - intros Hmissing.
    assert (Hor : FitzMetadata.py_or meta_title
                    (FitzMetadata.drop_last_4 basename) =
                  FitzMetadata.drop_last_4 basename).
    { destruct Hmissing as [-> | ->]; reflexivity. }
    rewrite Hor. unfold FitzMetadata.drop_last_4. split.
    + intros -> Hext. rewrite string_length_app, Hext.
      replace (String.length stem + 4 - 4)%nat with (String.length stem) by lia.
      apply substring_prefix.
    + intros Hshort.
      replace (String.length basename - 4)%nat with 0%nat by lia.
      apply substring_nothing.
  - intros ->. reflexivity.
  - intros ->. reflexivity.
Qed.

Lemma metadata_title_fallback_witness :
  FitzMetadata.title
    (FitzMetadata.metadata "book.pdf" (Some EmptyString) None None) = "book".
Proof.
  destruct (metadata_title_fallback "book.pdf" "book" ".pdf"
              (Some EmptyString) None None) as (_ & H & _).
  destruct (H (or_intror eq_refl)) as [H1 _].
  apply H1; reflexivity.
Defined.

Lemma one_player_per_sample_rate_witness :
  NoDup (map fst (PiperPlayers._players
                    (PiperPlayers.requests [22050; 16000; 22050]
                       PiperPlayers.no_players))) /\
  PiperPlayers.constructed
    (PiperPlayers.requests [22050; 16000; 22050] PiperPlayers.no_players)
  = 2%nat.
Proof.
  destruct (one_player_per_sample_rate [22050; 16000; 22050])
    as (H1 & _ & H3 & _).
  split; [exact H1 | exact H3].
Defined.

Lemma resolve_document_reports_once_witness :
  List.length
    (filter (ResourceLoader.is_notify unit)
       (fst (ResourceLoader.resolve_document unit (fun s => s) false
               (inr ResourceLoader.ReaderError)))) = 1%nat /\
  snd (ResourceLoader.resolve_document unit (fun s => s) false
         (inr ResourceLoader.ReaderError)) = inl None.
Proof.
  destruct (resolve_document_reports_once unit (fun s => s) false
              (inr ResourceLoader.ReaderError))
    as (H1 & _ & _ & _ & H5 & _).
  split; [exact H1|]. apply H5. split; reflexivity.
Defined.


(** ** Reading an EPUB *)

Section ReadFacts.

Variable Ebook : Type.
Variable fitz_open : string -> option string -> FitzRead.Opened Ebook.
Variable base_read :
  FitzRead.Doc Ebook -> FitzRead.Doc Ebook * option FitzRead.Exn.
Variable make_unrestricted_file : string -> string.


End ReadFacts.


(** ** Pausing and resuming *)

Section PauseFacts.

Variable Handler : Type.
Variable SpeechOptions : Type.
Variable TtsState : Type.
Variable PiperTask : Type.
Variable Player : Type.

(** X28.  [resume] does not give back the state from before [pause]:
    while the engine is alive, after [pause] and [resume] the sink is in
    the state [busy] whatever state it was in, also when nothing was being
    spoken.  The player is paused and then released, the handlers are told
    [paused] (unless the sink was paused already) and then [busy]. *)
Theorem resume_reports_busy
    (eng : Piper.Engine SpeechOptions TtsState PiperTask Player)
    (sink : PiperThread.EventSink Handler PiperTask Player)
    (event_handlers : PiperThread.EventHandlers Handler) :
  PiperThread.synthref _ _ _ sink = Some event_handlers ->
  let p := Piper.player _ _ _ _ eng in
  let sink' :=
    PiperThread.resume Handler PiperTask Player SpeechOptions TtsState eng
      (PiperThread.pause Handler PiperTask Player SpeechOptions TtsState eng
         sink) in
  PiperThread._state _ _ _ sink' = PiperThread.state_busy /\
  PiperThread.effects _ _ _ sink' =
    PiperThread.effects _ _ _ sink
      ++ [PiperThread.PlayerPause _ _ _ p true]
      ++ (if PiperThread.state_eqb PiperThread.state_paused
               (PiperThread._state _ _ _ sink) then []
          else map (fun handler =>
                      PiperThread.StateHandler _ _ _ handler
                        PiperThread.state_paused)
                   (event_handlers PiperThread.state_changed))
      ++ [PiperThread.PlayerPause _ _ _ p false]
      ++ map (fun handler =>
                PiperThread.StateHandler _ _ _ handler PiperThread.state_busy)
             (event_handlers PiperThread.state_changed).
Proof.
  intros Hs. cbv zeta. destruct sink as [sr st evs]. cbn in Hs. subst sr.
  unfold PiperThread.resume, PiperThread.pause, PiperThread.on_state_changed,
    PiperThread.effect, PiperThread.set_state.
  destruct st; cbn; (split; [reflexivity|]);
    rewrite <- ?app_assoc; reflexivity.
Qed.

End PauseFacts.

Lemma resume_reports_busy_witness :
  PiperThread._state string unit unit
    (PiperThread.resume _ _ _ string unit
       (Piper.mkEngine string unit unit unit (Piper.mkTts _ _ "amy" tt) [] tt
          true)
       (PiperThread.pause _ _ _ string unit
          (Piper.mkEngine string unit unit unit (Piper.mkTts _ _ "amy" tt) []
             tt true)
          (PiperThread.mkEventSink _ _ _ (Some two_handlers)
             PiperThread.state_ready []))) =
  PiperThread.state_busy.
Proof.
  destruct (resume_reports_busy string string unit unit unit
              (Piper.mkEngine string unit unit unit (Piper.mkTts _ _ "amy" tt)
                 [] tt true)
              (PiperThread.mkEventSink _ _ _ (Some two_handlers)
                 PiperThread.state_ready [])
              two_handlers eq_refl) as [H _].
  exact H.
Defined.

(** ** The generators over the queue of a worker process *)

Section DrainFacts.

Variable Value : Type.
Variable is_minus_one : Value -> bool.

(** X29.  The generators [export_to_text] and [search] yield what the
    worker process put on its queue before the first value that equals
    -1, in order, and nothing after it; the value -1 itself is never
    yielded.  They come to their end exactly when the process puts such a
    value, and wait for ever on the queue when it never does. *)
Theorem generators_yield_up_to_minus_one (queue : list Value) :
  (forall yielded,
      FitzQueue.export_to_text Value is_minus_one queue = Some yielded <->
      exists marker rest,
        queue = yielded ++ marker :: rest /\
        is_minus_one marker = true /\
        forallb (fun value => negb (is_minus_one value)) yielded = true) /\
  (FitzQueue.export_to_text Value is_minus_one queue = None <->
   forallb (fun value => negb (is_minus_one value)) queue = true) /\
  FitzQueue.search Value is_minus_one queue =
  FitzQueue.export_to_text Value is_minus_one queue.
Proof.
  unfold FitzQueue.search, FitzQueue.export_to_text.
  split; [|split; [|reflexivity]].
  - induction queue as [|value queue IH]; intros yielded.
    + cbn. split; [discriminate|].
      intros (marker & rest & H & _). destruct yielded; discriminate.
    + cbn [FitzQueue.drain]. destruct (is_minus_one value) eqn:E.
      * split.
        -- intros H. injection H as <-. exists value, queue. auto.
        -- intros (marker & rest & H & Hl & Hy).
           destruct yielded as [|y yielded]; [reflexivity|].
           cbn in H, Hy. injection H as <- _. rewrite E in Hy. discriminate.
      * destruct (FitzQueue.drain Value is_minus_one queue) as [ys|] eqn:Hd.
        -- split.
           ++ intros H. injection H as <-.
              destruct (proj1 (IH ys) eq_refl) as (marker & rest & -> & Hl & Hy).
              exists marker, rest. cbn. rewrite E, Hy. auto.
           ++ intros (marker & rest & H & Hl & Hy).
              destruct yielded as [|y yielded]; cbn in H.
              ** injection H as <- _. congruence.
              ** injection H as <- H. cbn in Hy. rewrite E in Hy. cbn in Hy.
                 f_equal. f_equal.
                 assert (Some ys = Some yielded) as Hs.
                 { apply IH. exists marker, rest. auto. }
                 congruence.
        -- split; [discriminate|].
           intros (marker & rest & H & Hl & Hy).
           destruct yielded as [|y yielded]; cbn in H.
           ++ injection H as <- _. congruence.
           ++ injection H as <- H. cbn in Hy. rewrite E in Hy. cbn in Hy.
              assert (None = Some yielded) as Hs.
              { apply IH. exists marker, rest. auto. }
              discriminate.
  - induction queue as [|value queue IH]; cbn.
    + tauto.
    + destruct (is_minus_one value); cbn.
      * split; discriminate.
      * destruct (FitzQueue.drain Value is_minus_one queue).
        -- split; [discriminate|]. intros H. apply IH in H. discriminate.
        -- split; [intros _; apply IH; reflexivity | reflexivity].
Qed.

End DrainFacts.

Lemma generators_yield_up_to_minus_one_witness :
  FitzQueue.export_to_text Z (fun value => value =? -1) [10; 55; 100; -1; 7] =
  Some [10; 55; 100].
Proof.
  destruct (generators_yield_up_to_minus_one Z (fun value => value =? -1)
              [10; 55; 100; -1; 7]) as [H _].
  apply H. exists (-1), [7]. repeat split; reflexivity.
Defined.
